(** * Chromosight pattern detection: a shallow embedding of
      [chromosight/utils/detection.py] and the properties checked on it.

    Conventions of the embedding.
    - Matrix indices and shapes are [Z]; candidate ids and focus labels are
      [nat].
    - Pixel values are Python floats in the source.  They are idealised as
      exact rationals ([Q]); comparisons are the exact ones.
    - A [scipy.sparse.coo_matrix] is its shape together with the list of
      its stored entries [(row, col, data)] in storage order.  The functions
      that only depend on the values a sparse matrix denotes ([xcorr2],
      [corrcoef2d]) use the denotation (shape and a cell function).
    - Exceptions are values of type [exn]; code that can raise returns
      [result A = exn + A]. *)

From Stdlib Require Import String.
From Stdlib Require Import List ZArith QArith Qabs Bool Lia Arith.
From Stdlib Require Import Lqa FinFun Sorted Permutation.
Import ListNotations.

Local Open Scope Z_scope.

(* ===================================================================== *)
(** ** Exceptions *)
(* ===================================================================== *)

Inductive exn : Type :=
| ValueError (msg : string)
| TypeError (msg : string)
| AttributeError (msg : string)
| IndexError (msg : string)
| NameError (msg : string).

Definition result (A : Type) : Type := (exn + A)%type.

Definition ok {A : Type} (a : A) : result A := inr a.
Definition raise {A : Type} (e : exn) : result A := inl e.

Definition bind {A B : Type} (m : result A) (k : A -> result B) : result B :=
  match m with
  | inl e => inl e
  | inr a => k a
  end.

Notation "'do' x <- m ; k" := (bind m (fun x => k))
  (at level 10, x name, m at level 100, k at level 200).
Notation "'do' ' p <- m ; k" := (bind m (fun x => match x with p => k end))
  (at level 10, p pattern, m at level 100, k at level 200).

(** A [for] loop whose body can raise. *)
Fixpoint for_each {S X : Type} (body : S -> X -> result S) (xs : list X) (st : S)
  : result S :=
  match xs with
  | [] => ok st
  | x :: t => do st' <- body st x; for_each body t st'
  end.

(* ===================================================================== *)
(** ** Sparse matrices in coordinate format *)
(* ===================================================================== *)

Module Sparse.

Record coo (A : Type) : Type := mk_coo {
  shape : Z * Z;
  entries : list (Z * Z * A)
}.
Arguments mk_coo {A} _ _.
Arguments shape {A} _.
Arguments entries {A} _.

Definition coord {A : Type} (e : Z * Z * A) : Z * Z := fst e.
Definition data {A : Type} (e : Z * Z * A) : A := snd e.

Definition coords {A : Type} (m : coo A) : list (Z * Z) :=
  map coord (entries m).

Definition coord_eqb (p q : Z * Z) : bool :=
  (fst p =? fst q) && (snd p =? snd q).

(** [m.T]: rows and columns exchanged, storage order kept. *)
Definition transpose_entries {A : Type} (l : list (Z * Z * A)) : list (Z * Z * A) :=
  map (fun e => (snd (coord e), fst (coord e), data e)) l.

(** Order of the entries after [.tocsr().tocoo()]: by row, then by column.
    The conversion also sums entries that share a coordinate, which is not
    shown here: the embedding is that of the code on matrices that store
    each coordinate at most once ([distinct_coords]), and the properties of
    the labeler and of the picker are stated for such matrices. *)
Definition lex_leb (p q : Z * Z) : bool :=
  (fst p <? fst q) || ((fst p =? fst q) && (snd p <=? snd q)).

Fixpoint insert_entry {A : Type} (x : Z * Z * A) (l : list (Z * Z * A))
  : list (Z * Z * A) :=
  match l with
  | [] => [x]
  | y :: t => if lex_leb (coord x) (coord y) then x :: l
              else y :: insert_entry x t
  end.

Definition tocsr_tocoo {A : Type} (l : list (Z * Z * A)) : list (Z * Z * A) :=
  fold_right insert_entry [] l.

(** No coordinate stored twice. *)
Fixpoint distinct_coords (l : list (Z * Z)) : bool :=
  match l with
  | [] => true
  | p :: t => negb (existsb (coord_eqb p) t) && distinct_coords t
  end.

(** The dense array a matrix of labels denotes ([.todense()]). *)
Definition cell (m : coo nat) (r c : Z) : nat :=
  fold_right (fun e acc => if coord_eqb (coord e) (r, c) then (data e + acc)%nat else acc)
             0%nat (entries m).

Definition zrange (n : Z) : list Z := map Z.of_nat (seq 0 (Z.to_nat n)).

Definition todense (m : coo nat) : list (list nat) :=
  map (fun r => map (fun c => cell m r c) (zrange (snd (shape m))))
      (zrange (fst (shape m))).

(** [sp.coo_matrix(dense)]: the nonzero cells in row-major order. *)
Fixpoint row_entries (r c : Z) (row : list nat) : list (Z * Z * nat) :=
  match row with
  | [] => []
  | v :: t => (if (v =? 0)%nat then [] else [(r, c, v)]) ++ row_entries r (c + 1) t
  end.

Fixpoint rows_entries (r : Z) (rows : list (list nat)) : list (Z * Z * nat) :=
  match rows with
  | [] => []
  | row :: t => row_entries r 0 row ++ rows_entries (r + 1) t
  end.

Definition of_dense (nr nc : Z) (rows : list (list nat)) : coo nat :=
  mk_coo (nr, nc) (rows_entries 0 rows).

End Sparse.
Import Sparse.

(* ===================================================================== *)
(** ** [scipy.sparse.csgraph.connected_components] *)
(* ===================================================================== *)

(** The library routine, called with its defaults (weak connectivity),
    returns the number of components of the graph on nodes [0..n-1] and, for
    each node, the 0-based rank of its component, components being ranked by
    their least node.  It is modelled by merging classes edge after edge,
    each class being named by its least node. *)
Module Csgraph.

Definition relabel (old new : nat) (lab : list nat) : list nat :=
  map (fun x => if (x =? old)%nat then new else x) lab.

Definition join (lab : list nat) (e : nat * nat) : list nat :=
  let la := nth (fst e) lab 0%nat in
  let lb := nth (snd e) lab 0%nat in
  relabel (Nat.max la lb) (Nat.min la lb) lab.

Definition component_roots (n : nat) (edges : list (nat * nat)) : list nat :=
  fold_left join edges (seq 0 n).

Definition heads (n : nat) (root : list nat) : list nat :=
  filter (fun i => (nth i root 0 =? i)%nat) (seq 0 n).

Definition rank (hs : list nat) (r : nat) : nat :=
  length (filter (fun h => (h <? r)%nat) hs).

Definition connected_components (n : nat) (edges : list (nat * nat))
  : nat * list nat :=
  let root := component_roots n edges in
  let hs := heads n root in
  (length hs, map (rank hs) root).

(** Two nodes are in the same component when a chain of edges, taken in
    either direction, links them. *)
Inductive connected (edges : list (nat * nat)) : nat -> nat -> Prop :=
| conn_refl : forall i, connected edges i i
| conn_edge : forall a b, In (a, b) edges -> connected edges a b
| conn_sym : forall i j, connected edges i j -> connected edges j i
| conn_trans : forall i j k,
    connected edges i j -> connected edges j k -> connected edges i k.

(** [reps] holds one node of each component of the graph on [0..n-1]. *)
Definition representatives (n : nat) (edges : list (nat * nat)) (reps : list nat)
  : Prop :=
  NoDup reps
  /\ (forall r, In r reps -> (r < n)%nat)
  /\ (forall i, (i < n)%nat -> exists r, In r reps /\ connected edges i r)
  /\ (forall r r', In r reps -> In r' reps -> connected edges r r' -> r = r').

End Csgraph.

(* ===================================================================== *)
(** ** FocusLabeler: [label_connected_pixels_sparse] *)
(* ===================================================================== *)

Module Labeler.

(** One step of [get_1d_foci_transition]: neither the row nor the column
    index moves by 2 or more between two consecutive stored pixels. *)
Definition stay (p q : Z * Z) : bool :=
  (Z.abs (fst q - fst p) <? 2) && (Z.abs (snd q - snd p) <? 2).

Fixpoint diff_stay (l : list (Z * Z)) : list bool :=
  match l with
  | p :: ((q :: _) as tl) => stay p q :: diff_stay tl
  | _ => []
  end.

Definition get_1d_foci_transition (l : list (Z * Z)) : list bool :=
  diff_stay l ++ [false].

(** [ori_ids]: the candidates with their storage index as data;
    [trans_ids.data]: these indices in the order of the transposed matrix
    after [.tocsr().tocoo()]. *)
Definition ori_ids (cs : list (Z * Z)) : list (Z * Z * nat) :=
  combine cs (seq 0 (length cs)).

Definition trans_ids (cs : list (Z * Z)) : list (Z * Z * nat) :=
  tocsr_tocoo (transpose_entries (ori_ids cs)).

(** [fill_adjacency_1d]: the cells of [adj] set to 1, as a list of edges. *)
Fixpoint fill_adjacency_1d (adj : list (nat * nat)) (candidate_id : nat)
         (stay_foci : list bool) (ids : option (list nat)) : list (nat * nat) :=
  match stay_foci with
  | [] => adj
  | next_candidate_in_focus :: rest =>
      let adj' :=
        if next_candidate_in_focus then
          match ids with
          | Some trans => adj ++ [(nth candidate_id trans 0%nat,
                                   nth (S candidate_id) trans 0%nat)]
          | None => adj ++ [(candidate_id, S candidate_id)]
          end
        else adj in
      fill_adjacency_1d adj' (S candidate_id) rest ids
  end.

Definition adjacency (cs : list (Z * Z)) : list (nat * nat) :=
  let stay_foci_hori := get_1d_foci_transition cs in
  let tr := trans_ids cs in
  let stay_foci_verti := get_1d_foci_transition (map coord tr) in
  let adj_mat := fill_adjacency_1d [] 0 stay_foci_hori None in
  fill_adjacency_1d adj_mat 0 stay_foci_verti (Some (map data tr)).

Definition count_label (x : nat) (foci : list nat) : nat :=
  length (filter (fun y => (y =? x)%nat) foci).

(** The loop removing the foci with fewer than [min_focus_size] pixels. *)
Definition remove_small (min_focus_size : nat) (foci : list nat) (focus_num : nat)
  : list nat :=
  if (count_label focus_num foci <? min_focus_size)%nat
  then map (fun y => if (y =? focus_num)%nat then 0%nat else y) foci
  else foci.

Definition filter_foci (min_focus_size num_foci : nat) (foci : list nat) : list nat :=
  fold_left (remove_small min_focus_size) (seq 1 num_foci) foci.

(** Entries kept by the boolean mask [good_foci = foci > 0]. *)
Fixpoint masked_entries (cs : list (Z * Z)) (foci : list nat) : list (Z * Z * nat) :=
  match cs, foci with
  | p :: cs', f :: foci' =>
      (if (0 <? f)%nat then [(fst p, snd p, f)] else []) ++ masked_entries cs' foci'
  | _, _ => []
  end.

(** The labeler on a matrix that stores each coordinate at most once.  On
    other matrices the transposed ids are summed by the conversion, and the
    code can raise an [IndexError] when it fills the adjacency matrix. *)
Definition label_connected_pixels_sparse {A : Type} (matrix : coo A)
           (min_focus_size : nat) : nat * coo nat :=
  let candidates := coords matrix in
  let n_candidates := length candidates in
  let adj_mat := adjacency candidates in
  let '(num_foci, foci) := Csgraph.connected_components n_candidates adj_mat in
  let foci := map S foci in
  let foci := filter_foci min_focus_size num_foci foci in
  (num_foci, mk_coo (shape matrix) (masked_entries candidates foci)).

End Labeler.
Import Labeler.

(* ===================================================================== *)
(** ** Rational helpers *)
(* ===================================================================== *)

Definition Qltb (a b : Q) : bool := negb (Qle_bool b a).

Fixpoint insert_Q (x : Q) (l : list Q) : list Q :=
  match l with
  | [] => [x]
  | y :: t => if Qle_bool x y then x :: l else y :: insert_Q x t
  end.

Definition sort_Q (l : list Q) : list Q := fold_right insert_Q [] l.

(** [np.median]: the middle value of the sorted data, or the mean of the
    two middle values.  On empty data numpy gives NaN; the value chosen here
    is then never compared with anything. *)
Definition median (l : list Q) : Q :=
  let s := sort_Q l in
  let n := length s in
  if Nat.even n
  then ((nth (n / 2 - 1) s 0 + nth (n / 2) s 0) / 2)%Q
  else nth (n / 2) s 0%Q.

(** Modelled from the spec: [chromosight.utils.preprocessing.mad], whose
    source is not available; the glossary defines MAD as the median absolute
    deviation. *)
Definition mad (l : list Q) : Q :=
  let m := median l in
  median (map (fun x => Qabs (x - m)) l).

(** Value stored at [(r, c)] once the matrix is in CSR format (entries that
    share a coordinate are summed; absent cells are 0). *)
Definition csr_get (m : coo Q) (r c : Z) : Q :=
  fold_right (fun e acc => if coord_eqb (coord e) (r, c) then (data e + acc)%Q else acc)
             0%Q (entries m).

(* ===================================================================== *)
(** ** Picker: [picker] *)
(* ===================================================================== *)

Module Picker.

Fixpoint insert_nat (x : nat) (l : list nat) : list nat :=
  match l with
  | [] => [x]
  | y :: t => if (x <? y)%nat then x :: l
              else if (x =? y)%nat then l
              else y :: insert_nat x t
  end.

(** [np.unique]: the distinct values, ascending. *)
Definition unique (l : list nat) : list nat := fold_right insert_nat [] l.

(** [np.where(a == x)[0]] *)
Fixpoint where_eq (x : nat) (i : nat) (l : list nat) : list nat :=
  match l with
  | [] => []
  | y :: t => (if (y =? x)%nat then [i] else []) ++ where_eq x (S i) t
  end.

(** [np.argmax]: index of the first occurrence of the maximum. *)
Fixpoint argmax_from (best_i : nat) (best : Q) (i : nat) (l : list Q) : nat :=
  match l with
  | [] => best_i
  | x :: t => if Qltb best x then argmax_from i x (S i) t
              else argmax_from best_i best (S i) t
  end.

Definition argmax (l : list Q) : nat :=
  match l with
  | [] => 0%nat
  | x :: t => argmax_from 0 x 1 t
  end.

(** [a[i] = x] on a list; the index is always in range where it is used. *)
Fixpoint set_nth {A : Type} (i : nat) (x : A) (l : list A) : list A :=
  match l, i with
  | [], _ => []
  | _ :: t, O => x :: t
  | y :: t, S j => y :: set_nth j x t
  end.

Fixpoint enumerate_from {A : Type} (i : nat) (l : list A) : list (nat * A) :=
  match l with
  | [] => []
  | x :: t => (i, x) :: enumerate_from (S i) t
  end.

(** Thresholding of the correlation map: values below the threshold are
    set to 0, the others to 1, zeros are eliminated. *)
Definition candidates (mat_conv : coo Q) (thres : Q) : coo Q :=
  mk_coo (shape mat_conv)
         (map (fun e => (fst (coord e), snd (coord e), 1%Q))
              (filter (fun e => negb (Qltb (data e) thres) && negb (Qeq_bool (data e) 0))
                      (entries mat_conv))).

(** Body of the loop over the foci: the best pixel of focus [focus_id]. *)
Definition best_pixel (mat_conv : coo Q) (labelled_mat : coo nat) (focus_id : nat)
  : Z * Z :=
  let focus_idx := where_eq focus_id 0 (map data (entries labelled_mat)) in
  let focus_px := map (fun i => nth i (coords labelled_mat) (0, 0)) focus_idx in
  let focus_pixel_idx :=
    argmax (map (fun p => csr_get mat_conv (fst p) (snd p)) focus_px) in
  let original_pixel_idx := nth focus_pixel_idx focus_idx 0%nat in
  nth original_pixel_idx (coords labelled_mat) (0, 0).

(** The picker on a correlation map that stores each coordinate at most
    once, as the labeler it calls; [None] is the value returned when no
    candidate is found. *)
Definition picker (mat_conv matrix : coo Q) (precision : Q) : option (list (Z * Z)) :=
  let values := map data (entries mat_conv) in
  let thres := (median values + precision * mad values)%Q in
  let candidate_mat := candidates mat_conv thres in
  if (0 <? length (entries candidate_mat))%nat then
    let '(num_foci, labelled_mat) := label_connected_pixels_sparse candidate_mat 2 in
    let foci_coords := repeat (0, 0) num_foci in
    Some (fold_left
            (fun foci_coords rf =>
               set_nth (fst rf) (best_pixel mat_conv labelled_mat (snd rf)) foci_coords)
            (enumerate_from 0 (unique (map data (entries labelled_mat))))
            foci_coords)
  else None.

End Picker.
Import Picker.

(* ===================================================================== *)
(** ** PatternValidator: [validate_patterns] *)
(* ===================================================================== *)

Module Validator.

Record pattern : Type := mk_pattern { bin1 : Z; bin2 : Z; score : Q }.

Definition window : Type := list (list Q).

(** [range(lo, hi)] *)
Definition range (lo hi : Z) : list Z :=
  map (fun k => lo + Z.of_nat k) (seq 0 (Z.to_nat (hi - lo))).

(** [m[r, c]] on a CSR matrix: negative indices count from the end, an
    index outside the shape raises. *)
Definition csr_index (m : coo Q) (r c : Z) : result Q :=
  let '(nr, nc) := shape m in
  let r' := if r <? 0 then r + nr else r in
  let c' := if c <? 0 then c + nc else c in
  if (0 <=? r') && (r' <? nr) && (0 <=? c') && (c' <? nc)
  then ok (csr_get m r' c')
  else raise (IndexError "index out of bounds").

Definition mem (x : Z) (s : list Z) : bool := existsb (Z.eqb x) s.

Definition count_zero (w : window) : Z :=
  Z.of_nat (length (filter (fun v => Qeq_bool v 0) (concat w))).

Record loop_state : Type := mk_state {
  st_coords : list pattern;
  st_windows : list window;
  st_blacklist : list nat
}.

(** Body of the loop over the candidates. *)
Definition validate_step (matrix conv_mat : coo Q)
           (detectable_rows detectable_cols : list Z)
           (win_h win_w : Z) (max_undetected_perc : Q)
           (st : loop_state) (il : nat * (Z * Z)) : result loop_state :=
  let '(i, l) := il in
  let half_h := win_h / 2 + 1 in
  let half_w := win_w / 2 + 1 in
  let p1 := fst l in
  let p2 := snd l in
  let '(p1, p2) := if p1 >? p2 then (p2, p1) else (p1, p2) in
  if (p1 - half_h >=? 0)
     && (p1 + half_h + 1 <? fst (shape matrix))
     && (p2 - half_w >=? 0)
     && (p2 + half_w + 1 <? snd (shape matrix))
  then
    let win_rows := range (p1 - half_h + 1) (p1 + half_h) in
    let win_cols := range (p2 - half_w + 1) (p2 + half_w) in
    let pattern_window : window :=
      map (fun r => map (fun c => csr_get matrix r c) win_cols) win_rows in
    let n_rows := Z.of_nat (length win_rows) in
    let n_cols := Z.of_nat (length win_cols) in
    let tot_pixels := n_rows * n_cols in
    let n_bad_rows :=
      n_rows - Z.of_nat (length (filter (fun r => mem r detectable_rows) win_rows)) in
    let n_bad_cols :=
      n_cols - Z.of_nat (length (filter (fun c => mem c detectable_cols) win_cols)) in
    let tot_undetected_pixels :=
      n_bad_rows * n_cols + n_bad_cols * n_rows - n_bad_rows * n_bad_cols in
    let tot_zero_pixels := count_zero pattern_window in
    let tot_missing_pixels := Z.max tot_undetected_pixels tot_zero_pixels in
    if Qltb (inject_Z tot_missing_pixels / inject_Z tot_pixels)
            (max_undetected_perc / 100)
    then
      do s <- csr_index conv_mat (fst l) (snd l);
      if (n_rows =? win_h) && (n_cols =? win_w)
      then ok (mk_state
                 (set_nth i (mk_pattern (fst l) (snd l) s) (st_coords st))
                 (set_nth i pattern_window (st_windows st))
                 (st_blacklist st))
      else raise (ValueError "could not broadcast input array")
    else ok (mk_state (st_coords st) (st_windows st) (st_blacklist st ++ [i]))
  else ok (mk_state (st_coords st) (st_windows st) (st_blacklist st ++ [i])).

(** [a[~mask]] where [mask] is true exactly at the blacklisted indices. *)
Definition drop_blacklisted {A : Type} (blacklist : list nat) (l : list A) : list A :=
  map snd (filter (fun ix => negb (existsb (Nat.eqb (fst ix)) blacklist))
                  (enumerate_from 0 l)).

Definition validate_patterns (coords : list (Z * Z)) (matrix conv_mat : coo Q)
           (detectable_bins : list Z * list Z) (kernel_shape : Z * Z)
           (max_undetected_perc : Q) : result (list pattern * list window) :=
  let '(win_h, win_w) := kernel_shape in
  let detectable_rows := fst detectable_bins in
  let detectable_cols := snd detectable_bins in
  let validated_coords := map (fun l => mk_pattern (fst l) (snd l) 0) coords in
  let pattern_windows :=
    repeat (repeat (repeat 0%Q (Z.to_nat win_w)) (Z.to_nat win_h)) (length coords) in
  do st <- for_each (validate_step matrix conv_mat detectable_rows detectable_cols
                                   win_h win_w max_undetected_perc)
                    (enumerate_from 0 coords)
                    (mk_state validated_coords pattern_windows []);
  ok (drop_blacklisted (st_blacklist st) (st_coords st),
      drop_blacklisted (st_blacklist st) (st_windows st)).

(** *** The acceptance rule, stated on one candidate

    The definitions below restate what the loop decides for a candidate
    [l], independently of the loop; the loop is proved to compute them. *)

Definition canonical (l : Z * Z) : Z * Z :=
  if fst l >? snd l then (snd l, fst l) else (fst l, snd l).

Definition half (k : Z) : Z := k / 2 + 1.

Definition window_rows (win_h : Z) (l : Z * Z) : list Z :=
  range (fst (canonical l) - half win_h + 1) (fst (canonical l) + half win_h).

Definition window_cols (win_w : Z) (l : Z * Z) : list Z :=
  range (snd (canonical l) - half win_w + 1) (snd (canonical l) + half win_w).

Definition window_at (matrix : coo Q) (win_h win_w : Z) (l : Z * Z) : window :=
  map (fun r => map (fun c => csr_get matrix r c) (window_cols win_w l))
      (window_rows win_h l).

(** The margin test of the loop. *)
Definition margins_ok (matrix : coo Q) (win_h win_w : Z) (l : Z * Z) : bool :=
  (fst (canonical l) - half win_h >=? 0)
  && (fst (canonical l) + half win_h + 1 <? fst (shape matrix))
  && (snd (canonical l) - half win_w >=? 0)
  && (snd (canonical l) + half win_w + 1 <? snd (shape matrix)).

(** The window lies inside the matrix. *)
Definition window_in_bounds (matrix : coo Q) (win_h win_w : Z) (l : Z * Z) : Prop :=
  Forall (fun r => 0 <= r < fst (shape matrix)) (window_rows win_h l)
  /\ Forall (fun c => 0 <= c < snd (shape matrix)) (window_cols win_w l).

Definition total_pixels (win_h win_w : Z) (l : Z * Z) : Z :=
  Z.of_nat (length (window_rows win_h l)) * Z.of_nat (length (window_cols win_w l)).

Definition undetected_pixels (detectable_bins : list Z * list Z) (win_h win_w : Z)
           (l : Z * Z) : Z :=
  let n_rows := Z.of_nat (length (window_rows win_h l)) in
  let n_cols := Z.of_nat (length (window_cols win_w l)) in
  let n_bad_rows :=
    n_rows - Z.of_nat (length (filter (fun r => mem r (fst detectable_bins))
                                      (window_rows win_h l))) in
  let n_bad_cols :=
    n_cols - Z.of_nat (length (filter (fun c => mem c (snd detectable_bins))
                                      (window_cols win_w l))) in
  n_bad_rows * n_cols + n_bad_cols * n_rows - n_bad_rows * n_bad_cols.

Definition missing_pixels (matrix : coo Q) (detectable_bins : list Z * list Z)
           (win_h win_w : Z) (l : Z * Z) : Z :=
  Z.max (undetected_pixels detectable_bins win_h win_w l)
        (count_zero (window_at matrix win_h win_w l)).

Definition accepts (matrix : coo Q) (detectable_bins : list Z * list Z)
           (win_h win_w : Z) (max_undetected_perc : Q) (l : Z * Z) : bool :=
  margins_ok matrix win_h win_w l
  && Qltb (inject_Z (missing_pixels matrix detectable_bins win_h win_w l)
           / inject_Z (total_pixels win_h win_w l))
          (max_undetected_perc / 100).

(** Row of the table for an accepted candidate. *)
Definition scored (conv_mat : coo Q) (l : Z * Z) : pattern :=
  mk_pattern (fst l) (snd l) (csr_get conv_mat (fst l) (snd l)).

(** The candidate is a valid index of the correlation map. *)
Definition valid_index (conv_mat : coo Q) (l : Z * Z) : Prop :=
  0 <= fst l < fst (shape conv_mat) /\ 0 <= snd l < snd (shape conv_mat).

End Validator.
Import Validator.

(* ===================================================================== *)
(** ** IterativeDetector: [pattern_detector] and [explore_patterns] *)
(* ===================================================================== *)

Module Explorer.

(** Kernels are 2D arrays; the stack of windows returned by a pass, which
    [explore_patterns] stores as the kernel of the next pass, is 3D. *)
Inductive ndarray : Type :=
| Arr2 (a : list (list Q))
| Arr3 (a : list window).

Definition shape0 (a : ndarray) : Z :=
  match a with
  | Arr2 rows => Z.of_nat (length rows)
  | Arr3 ws => Z.of_nat (length ws)
  end.

(** [h, w = a.shape] *)
Definition shape2 (a : ndarray) : result (Z * Z) :=
  match a with
  | Arr2 rows => ok (Z.of_nat (length rows), Z.of_nat (length (hd [] rows)))
  | Arr3 _ => raise (ValueError "too many values to unpack")
  end.

Record ContactMap : Type := mk_contact_map {
  cm_matrix : coo Q;
  cm_max_dist : Z;
  cm_detectable_bins : list Z * list Z
}.

Record KernelConfig : Type := mk_kernel_config {
  cfg_max_dist : option Z;
  cfg_precision : Q;
  cfg_max_perc_undetected : Q;
  cfg_max_iterations : nat;
  cfg_kernels : list ndarray
}.

Record explore_state : Type := mk_explore {
  all_patterns : list (Z * Z * Q);
  hashed_neighborhoods : list (Z * Z);
  old_pattern_count : Z;
  current_pattern_count : Z;
  list_current_pattern_count : list nat;
  kernels : list (nat * list ndarray);
  (* the local variable [detected_coords]; [None] while it is unbound *)
  detected_coords : option (list pattern)
}.

(** The table of detected patterns is a [pandas.DataFrame]; a loop over it
    yields its column labels. *)
Definition columns : list string := ["bin1"%string; "bin2"%string; "score"%string].

(** [neigh_hash(coords, window)] on what the loop yields: [coords[0]] is
    the first character of a column label, and [//] between a string and an
    integer raises. *)
Definition neigh_hash (coords : string) (window : Z) : result (Z * Z) :=
  match coords with
  | EmptyString => raise (IndexError "string index out of range")
  | String _ _ =>
      raise (TypeError "unsupported operand type(s) for //: 'str' and 'int'")
  end.

Definition set_mem (h : Z * Z) (s : list (Z * Z)) : bool := existsb (coord_eqb h) s.

(** [kernels[i].append(x)] *)
Definition append_kernel (i : nat) (x : ndarray) (ks : list (nat * list ndarray))
  : list (nat * list ndarray) :=
  map (fun kv => if (fst kv =? i)%nat then (fst kv, snd kv ++ [x]) else kv) ks.

Definition lookup_kernels (i : nat) (ks : list (nat * list ndarray)) : list ndarray :=
  match find (fun kv => (fst kv =? i)%nat) ks with
  | Some kv => snd kv
  | None => []
  end.

Section Detector.

(** Lines 167-174 of [pattern_detector]: [corrcoef2d] on the contact map,
    NaN cleaning and trimming to the scannable range.  The coefficients
    involve square roots; the map is taken as given here. *)
Variable correlation_map : ContactMap -> KernelConfig -> ndarray -> result (coo Q).

(** The pair [(None, None)] is [None]. *)
Definition pattern_detector (contact_map : ContactMap) (kernel_config : KernelConfig)
           (kernel_matrix : ndarray) : result (option (list pattern * list window)) :=
  if shape0 kernel_matrix >=? fst (shape (cm_matrix contact_map)) then ok None
  else
    do mat_conv <- correlation_map contact_map kernel_config kernel_matrix;
    match picker mat_conv (cm_matrix contact_map) (cfg_precision kernel_config) with
    | None => ok None
    | Some chrom_pattern_coords =>
        do kernel_shape <- shape2 kernel_matrix;
        do r <- validate_patterns chrom_pattern_coords (cm_matrix contact_map) mat_conv
                  (cm_detectable_bins contact_map) kernel_shape
                  (cfg_max_perc_undetected kernel_config);
        ok (Some r)
    end.

(** Body of the loop over one detection result.  The hash is computed
    first; the unpacking [pos1, pos2, score = new_coords] that follows it
    would fail on a label of four or five characters. *)
Definition record_coords (window : Z) (st : explore_state) (new_coords : string)
  : result explore_state :=
  do h <- neigh_hash new_coords window;
  if negb (set_mem h (hashed_neighborhoods st))
  then raise (ValueError "too many values to unpack (expected 3)")
  else ok st.

(** Body of the loop over the kernels of pass [i].  On the sentinel [None]
    the iteration itself raises; on a table the inner loop runs over its
    column labels. *)
Definition kernel_step (contact_map : ContactMap) (kernel_config : KernelConfig)
           (window : Z) (i : nat) (st : explore_state) (kernel_matrix : ndarray)
  : result explore_state :=
  do det <- pattern_detector contact_map kernel_config kernel_matrix;
  match det with
  | None => raise (TypeError "'NoneType' object is not iterable")
  | Some (coords, pileup_pattern) =>
      do st <- for_each (record_coords window) columns st;
      ok (mk_explore (all_patterns st) (hashed_neighborhoods st)
                     (old_pattern_count st) (current_pattern_count st)
                     (list_current_pattern_count st)
                     (append_kernel i (Arr3 pileup_pattern) (kernels st))
                     (Some coords))
  end.

(** Body of the loop over the passes. *)
Definition pass_step (contact_map : ContactMap) (kernel_config : KernelConfig)
           (window : Z) (st : explore_state) (i : nat) : result explore_state :=
  if negb (old_pattern_count st =? current_pattern_count st) then
    let st := mk_explore (all_patterns st) (hashed_neighborhoods st)
                         (current_pattern_count st) (current_pattern_count st)
                         (list_current_pattern_count st) (kernels st)
                         (detected_coords st) in
    let current_kernels :=
      if (i =? 1)%nat then cfg_kernels kernel_config
      else lookup_kernels (i - 1) (kernels st) in
    do st <- for_each (kernel_step contact_map kernel_config window i)
                      current_kernels st;
    match detected_coords st with
    | None => raise (NameError "local variable 'detected_coords' referenced before assignment")
    | Some coords =>
        ok (mk_explore (all_patterns st) (hashed_neighborhoods st)
                       (old_pattern_count st) (current_pattern_count st)
                       (list_current_pattern_count st ++ [length coords])
                       (kernels st) (detected_coords st))
    end
  else ok st.

Definition explore_patterns (contact_map : ContactMap) (kernel_config : KernelConfig)
           (window : Z)
  : result (list (Z * Z * Q) * list (nat * list ndarray) * list nat) :=
  let passes := seq 1 (cfg_max_iterations kernel_config) in
  let init := mk_explore [] [] (-1) 0 [] (map (fun i => (i, [])) passes) None in
  do st <- for_each (pass_step contact_map kernel_config window) passes init;
  ok (all_patterns st, kernels st, list_current_pattern_count st).

End Detector.

End Explorer.
Import Explorer.

(* ===================================================================== *)
(** ** SparseCorrelator: [xcorr2] and [corrcoef2d] *)
(* ===================================================================== *)

Module Xcorr.

(** A matrix by what it denotes: its shape and the value of each cell.
    Cells are only read inside the shape. *)
Record mat : Type := mk_mat { nrows : Z; ncols : Z; val : Z -> Z -> Q }.

(** An argument is either a [scipy.sparse] matrix or a dense numpy array. *)
Inductive array_like : Type :=
| SparseMatrix (m : mat)
| DenseArray (m : mat).

Definition issparse (a : array_like) : bool :=
  match a with SparseMatrix _ => true | DenseArray _ => false end.

Definition values (a : array_like) : mat :=
  match a with SparseMatrix m => m | DenseArray m => m end.

Definition with_values (a : array_like) (m : mat) : array_like :=
  match a with SparseMatrix _ => SparseMatrix m | DenseArray _ => DenseArray m end.

Definition sum_upto (n : Z) (f : Z -> Q) : Q :=
  fold_right (fun k acc => (f k + acc)%Q) 0%Q (zrange n).

(** [sp.diags(diagonals, offsets, shape=(m, n))] where every diagonal is a
    scalar, repeated along its diagonal. *)
Definition diags (diagonals : list Q) (offsets : list Z) (m n : Z) : result mat :=
  if existsb (fun off => Z.min (Z.min (m + off) (n - off)) (Z.min m n) <? 0) offsets
  then raise (ValueError "Offset out of bounds")
  else ok (mk_mat m n
             (fun i j =>
                fold_right (fun vo acc => if j - i =? snd vo then (fst vo + acc)%Q else acc)
                           0%Q (combine diagonals offsets))).

(** [a @ b] and [a.dot(b)] *)
Definition matmul (a b : mat) : result mat :=
  if ncols a =? nrows b
  then ok (mk_mat (nrows a) (ncols b)
             (fun i j => sum_upto (ncols a) (fun k => (val a i k * val b k j)%Q)))
  else raise (ValueError "dimension mismatch").

(** [a + b] *)
Definition add (a b : mat) : result mat :=
  if (nrows a =? nrows b) && (ncols a =? ncols b)
  then ok (mk_mat (nrows a) (ncols a) (fun i j => (val a i j + val b i j)%Q))
  else raise (ValueError "inconsistent shapes").

Definition scale (c : Q) (a : mat) : mat :=
  mk_mat (nrows a) (ncols a) (fun i j => (val a i j * c)%Q).

(** [a[:, start:stop]] for [0 <= start] and [0 <= stop] *)
Definition slice_cols (a : mat) (start stop : Z) : mat :=
  let start := Z.min start (ncols a) in
  let stop := Z.min stop (ncols a) in
  mk_mat (nrows a) (Z.max 0 (stop - start)) (fun i j => val a i (j + start)).

(** [sp.csc_matrix((m, n))] *)
Definition zeros (m n : Z) : result mat :=
  if (m <? 0) || (n <? 0)
  then raise (ValueError "'shape' elements cannot be negative")
  else ok (mk_mat m n (fun _ _ => 0%Q)).

Definition arange (n : Z) : list Z := zrange n.

Definition column (a : mat) (j : Z) : list Q :=
  map (fun i => val a i j) (zrange (nrows a)).

Definition all_cells (a : mat) (p : Z -> Z -> bool) : bool :=
  forallb (fun i => forallb (fun j => p i j) (zrange (ncols a))) (zrange (nrows a)).

Definition rtol : Q := 1 # 100000000.
Definition atol : Q := 1 # 100000000.

(** [np.allclose(kernel, np.tile(c, kernel.shape), rtol=1e-08)] *)
Definition allclose_const (kernel : mat) (c : Q) : bool :=
  all_cells kernel
    (fun i j => Qle_bool (Qabs (val kernel i j - c)) (atol + rtol * Qabs c)).

(** The branch taken for a constant kernel. *)
Definition constant_path (signal : mat) (km kn : Z) (constant_kernel : Q)
  : result mat :=
  let sm := nrows signal in
  let sn := ncols signal in
  do l_subkernel_sp <- diags (map (fun _ => 1%Q) (arange km)) (arange km)
                             (sn - km + 1) sm;
  do r_subkernel_sp <- diags (map (fun _ => 1%Q) (arange kn)) (map Z.opp (arange kn))
                             sn (sm - kn + 1);
  do ls <- matmul l_subkernel_sp signal;
  do out <- matmul ls r_subkernel_sp;
  ok (scale constant_kernel out).

(** The general branch: one product per kernel column. *)
Definition general_step (signal kernel : mat) (out : mat) (kj : Z) : result mat :=
  let sm := nrows signal in
  let sn := ncols signal in
  let km := nrows kernel in
  let kn := ncols kernel in
  do subkernel_sp <- diags (column kernel kj) (arange km) (sn - km + 1) sm;
  do prod <- matmul subkernel_sp (slice_cols signal kj (sn - kn + 1 + kj));
  add out prod.

Definition general_path (signal kernel : mat) (out : mat) : result mat :=
  for_each (general_step signal kernel) (zrange (ncols kernel)) out.

(** [out.data[out.data < threshold] = 0] *)
Definition apply_threshold (threshold : Q) (out : mat) : mat :=
  mk_mat (nrows out) (ncols out)
         (fun i j => if Qltb (val out i j) threshold then 0%Q else val out i j).

(** The final [sp.coo_matrix((data, (rows + kh, cols + kw)), shape=(sm, sn))];
    the constructor rejects a stored entry outside the shape. *)
Definition add_margins (out : mat) (kh kw sm sn : Z) : result mat :=
  if all_cells out (fun i j => Qeq_bool (val out i j) 0
                                || ((i + kh <? sm) && (j + kw <? sn)))
  then ok (mk_mat sm sn
             (fun r c =>
                if (kh <=? r) && (r - kh <? nrows out) && (kw <=? c) && (c - kw <? ncols out)
                then val out (r - kh) (c - kw) else 0%Q))
  else raise (ValueError "index exceeds matrix dimensions").

Definition default_threshold : Q := 1 # 10000.

Definition xcorr2 (signal kernel : array_like) (threshold : Q) : result mat :=
  let sm := nrows (values signal) in
  let sn := ncols (values signal) in
  let km := nrows (values kernel) in
  let kn := ncols (values kernel) in
  let kh := (km - 1) / 2 in
  let kw := (kn - 1) / 2 in
  if negb (issparse signal) then
    raise (ValueError "cannot handle signal in dense format")
  else if issparse kernel then
    raise (ValueError "cannot handle kernel in sparse format")
  else if (km >? sm) || (sn >? sn) then
    raise (ValueError "cannot have kernel bigger than signal")
  else if (km <=? 0) || (kn <=? 0) then
    raise (IndexError "index 0 is out of bounds")
  else
    let k00 := val (values kernel) 0 0 in
    let constant_kernel :=
      if allclose_const (values kernel) k00 then Some k00 else None in
    do out <- zeros (sm - km + 1) (sn - kn + 1);
    do out <- match constant_kernel with
              | Some c => constant_path (values signal) km kn c
              | None => general_path (values signal) (values kernel) out
              end;
    add_margins (apply_threshold threshold out) kh kw sm sn.

(** Entries of the correlation map.  The denominator is a square root,
    kept symbolic: [Quot n d] stands for [n / sqrt d] with [0 < d].
    Dividing a nonzero value by a zero denominator gives an infinity. *)
Inductive corr_value : Type :=
| Zero
| Quot (num radicand : Q)
| PosInf
| NegInf
| NaN.

Record corr_mat : Type := mk_corr { c_nrows : Z; c_ncols : Z; c_at : Z -> Z -> corr_value }.

(** [conv.data /= denom[nz_vals].A1] at one stored value [n <> 0], the
    denominator being [sqrt d]. *)
Definition divide (n d : Q) : corr_value :=
  if Qeq_bool n 0 then Zero
  else if Qltb 0 d then Quot n d
  else if Qeq_bool d 0 then (if Qltb 0 n then PosInf else NegInf)
  else NaN.

(** [conv.data[conv.data < 0] = 0] *)
Definition clip (v : corr_value) : corr_value :=
  match v with
  | Quot n d => if Qltb n 0 then Zero else v
  | NegInf => Zero
  | _ => v
  end.

(** Modelled from the spec: [chromosight.utils.preprocessing.diag_trim],
    whose source is not available; it zeroes all pixels whose column-row
    distance exceeds [max_dist]. *)
Definition diag_trim (m : corr_mat) (max_dist : Z) : corr_mat :=
  mk_corr (c_nrows m) (c_ncols m)
          (fun i j => if Z.abs (j - i) >? max_dist then Zero else c_at m i j).

(** [sp.triu] *)
Definition triu (m : corr_mat) : corr_mat :=
  mk_corr (c_nrows m) (c_ncols m) (fun i j => if j >=? i then c_at m i j else Zero).

(** [signal.setdiag(signal.diagonal(i), -i)] for [i] in [1 .. km - 1]. *)
Definition symmetrize (signal : mat) (km : Z) : mat :=
  mk_mat (nrows signal) (ncols signal)
         (fun r c =>
            if (1 <=? r - c) && (r - c <? km) && (c <? nrows signal) && (r <? ncols signal)
            then val signal c r else val signal r c).

Definition power2 (m : mat) : mat :=
  mk_mat (nrows m) (ncols m) (fun i j => (val m i j * val m i j)%Q).

Definition ones_like (m : mat) : mat :=
  mk_mat (nrows m) (ncols m) (fun _ _ => 1%Q).

Definition sum_cells (m : mat) : Q :=
  sum_upto (nrows m) (fun i => sum_upto (ncols m) (fun j => val m i j)).

Definition corrcoef2d (signal kernel : array_like) (max_dist : option Z)
           (sym_upper : bool) : result corr_mat :=
  (* [ValueError(...)] is built here for a dense signal, and not raised *)
  do signal <-
    (if sym_upper then
       if issparse signal
       then ok (with_values signal (symmetrize (values signal) (nrows (values kernel))))
       else raise (AttributeError "'numpy.ndarray' object has no attribute 'tolil'")
     else ok signal);
  do conv <- xcorr2 signal kernel default_threshold;
  let kernel1 := DenseArray (ones_like (values kernel)) in
  do signal2 <- xcorr2 (with_values signal (power2 (values signal))) kernel1
                       default_threshold;
  let kernel2 := sum_cells (power2 (values kernel)) in
  let size := inject_Z (nrows (values kernel) * ncols (values kernel)) in
  do conv <- xcorr2 signal
               (with_values kernel (scale (/ size) (values kernel)))
               default_threshold;
  let conv :=
    mk_corr (nrows conv) (ncols conv)
            (fun i j => clip (divide (val conv i j) (val signal2 i j * kernel2))) in
  let conv :=
    match max_dist with
    | Some d => diag_trim conv d
    | None => conv
    end in
  ok (triu conv).

(** A correlation coefficient within [[0, 1]]. *)
Definition in_unit_interval (v : corr_value) : Prop :=
  match v with
  | Zero => True
  | Quot n d => (0 <= n)%Q /\ (n * n <= d)%Q
  | _ => False
  end.

End Xcorr.

(* ===================================================================== *)
(** ** Pileup: [pileup_patterns] *)
(* ===================================================================== *)

Module Pileup.

(** [np.median] with its value on empty data: NaN, shown as [None]. *)
Definition np_median (l : list Q) : option Q :=
  match l with
  | [] => None
  | _ => Some (median l)
  end.

(** [np.apply_along_axis(np.median, 0, pattern_windows)] on a stack of
    windows of [win_h] rows and [win_w] columns; numpy refuses a stack whose
    windows have no cell. *)
Definition pileup_patterns (pattern_windows : list window) (win_h win_w : nat)
  : result (list (list (option Q))) :=
  if (win_h =? 0)%nat || (win_w =? 0)%nat
  then raise (ValueError "Cannot apply_along_axis when any iteration dimensions are 0")
  else ok (map (fun i =>
                  map (fun j =>
                         np_median (map (fun w => nth j (nth i w []) 0%Q) pattern_windows))
                      (seq 0 win_w))
               (seq 0 win_h)).

End Pileup.
Import Pileup.

(* ===================================================================== *)
(** ** SmearFilter: [remove_smears] *)
(* ===================================================================== *)

Module Smears.

(** A [pandas.DataFrame] with the columns [bin1], [bin2] and [score]: its
    rows in order, each with its index label.  A table built from scratch
    carries the labels [0 .. n-1]; a table filtered with [.loc] keeps the
    labels of the rows it was filtered from. *)
Definition DataFrame : Type := list (nat * pattern).

Definition key (r : nat * pattern) : Z * Z := (bin1 (snd r), bin2 (snd r)).

(** The groups of [groupby(["bin1", "bin2"], sort=False)], by their keys in
    order of first appearance. *)
Fixpoint group_keys (seen : list (Z * Z)) (rows : DataFrame) : list (Z * Z) :=
  match rows with
  | [] => []
  | r :: t => if set_mem (key r) seen then group_keys seen t
              else key r :: group_keys (key r :: seen) t
  end.

Definition group (p : DataFrame) (k : Z * Z) : DataFrame :=
  filter (fun r => coord_eqb (key r) k) p.

(** [idxmax] on the scores of a group: the label of the first row holding
    the largest score. *)
Definition idxmax (g : DataFrame) : nat :=
  nth (argmax (map (fun r => score (snd r)) g)) (map fst g) 0%nat.

(** [mask[idx] = True] on a mask of [n] entries; an index out of range
    raises before any entry is written. *)
Definition set_true (mask : list bool) (idx : list nat) : result (list bool) :=
  if forallb (fun k => (k <? length mask)%nat) idx
  then ok (map (fun ib => existsb (Nat.eqb (fst ib)) idx || snd ib)
               (enumerate_from 0 mask))
  else raise (IndexError "index is out of bounds").

(** [p.row] and [p.col] are set as attributes of the copy [p], which has no
    column of these names: the table keeps its three columns, and the
    grouping is on [bin1] and [bin2] as they are. *)
Definition remove_smears (patterns : DataFrame) (win_size : Z) : result (list bool) :=
  let p := patterns in
  let best_idx := map (fun k => idxmax (group p k)) (group_keys [] p) in
  let good_patterns_mask := repeat false (length patterns) in
  match set_true good_patterns_mask best_idx with
  | inr mask => ok mask
  | inl (IndexError _) => ok good_patterns_mask
  | inl e => raise e
  end.

End Smears.
Import Smears.

(* ===================================================================== *)
(** ** Worked example of the docstring *)
(* ===================================================================== *)

Definition example_M : coo nat :=
  of_dense 4 4 [[1;0;0;0]; [1;0;1;0]; [1;0;1;1]; [0;0;0;0]]%nat.

(** Two pixels are 8-way adjacent when their rows and their columns differ
    by at most 1; a chain links two candidate pixels through adjacent
    candidate pixels. *)
Definition adjacent8 (p q : Z * Z) : Prop :=
  Z.abs (fst p - fst q) <= 1 /\ Z.abs (snd p - snd q) <= 1.

Inductive chain (cs : list (Z * Z)) : Z * Z -> Z * Z -> Prop :=
| chain_refl : forall p, In p cs -> chain cs p p
| chain_step : forall p q r,
    In p cs -> In q cs -> adjacent8 p q -> chain cs q r -> chain cs p r.

(** Modelled from the spec: a focus is a class of candidate pixels linked by
    chains of 8-way adjacent candidates.  [edges8] joins every two
    candidates that are 8-way adjacent, [components8] counts the classes. *)
Definition adjacent8b (p q : Z * Z) : bool :=
  (Z.abs (fst p - fst q) <=? 1) && (Z.abs (snd p - snd q) <=? 1).

Definition edges8 (cs : list (Z * Z)) : list (nat * nat) :=
  filter (fun e => adjacent8b (nth (fst e) cs (0, 0)) (nth (snd e) cs (0, 0)))
         (list_prod (seq 0 (length cs)) (seq 0 (length cs))).

Definition components8 (cs : list (Z * Z)) : nat :=
  fst (Csgraph.connected_components (length cs) (edges8 cs)).

(** A correlation map in which every stored pixel passes the threshold: two
    adjacent pixels and one isolated pixel. *)
Definition two_foci_map : coo Q :=
  mk_coo (6, 6) [(1, 1, (1 # 2)%Q); (1, 2, (1 # 2)%Q); (4, 4, (1 # 2)%Q)].

(** The candidate matrix of [two_foci_map]. *)
Definition two_foci_pixels : coo nat :=
  mk_coo (6, 6) [(1, 1, 1%nat); (1, 2, 1%nat); (4, 4, 1%nat)].

(** Four candidates stored row by row; [(0, 1)] and [(1, 0)] touch by a
    corner, and are neither stored one after the other nor next to each
    other once sorted by column. *)
Definition split_diagonal : coo nat :=
  mk_coo (6, 6) [(0, 1, 1%nat); (0, 5, 1%nat); (1, 0, 1%nat); (5, 0, 1%nat)].

(** A 9x9 contact map without empty pixel, all bins detectable, and a
    correlation map for it. *)
Definition full_map : coo Q :=
  mk_coo (9, 9) (flat_map (fun r => map (fun c => (r, c, 1%Q)) (zrange 9)) (zrange 9)).

Definition all_bins : list Z * list Z := (zrange 9, zrange 9).

Definition example_scores : coo Q :=
  mk_coo (9, 9) [(1, 5, (7 # 10)%Q); (5, 2, (7 # 10)%Q)].

(** An all-zero 10x10 contact map, a 3x3 kernel and a configuration; the
    correlation map of an all-zero contact map stores nothing. *)
Definition empty_contact_map : ContactMap :=
  mk_contact_map (mk_coo (10, 10) []) 5 (zrange 10, zrange 10).

Definition flat_kernel : ndarray :=
  Arr2 [[1%Q; 1%Q; 1%Q]; [1%Q; 1%Q; 1%Q]; [1%Q; 1%Q; 1%Q]].

Definition example_config : KernelConfig :=
  mk_kernel_config (Some 5) 4 50 3 [flat_kernel].

Definition empty_correlation (contact_map : ContactMap) (_ : KernelConfig) (_ : ndarray)
  : result (coo Q) :=
  ok (mk_coo (shape (cm_matrix contact_map)) []).

Import Xcorr.

(** Inputs of the correlator: a 3x3 signal of ones, a 1x4 kernel of ones, a
    2x3 signal with cells 1..6, the 1x1 kernel [[1]], and a 2x2 signal whose
    only stored value is 0.005. *)
Definition signal_3x3 : mat := mk_mat 3 3 (fun _ _ => 1%Q).
Definition kernel_1x4 : mat := mk_mat 1 4 (fun _ _ => 1%Q).
Definition kernel_3x3 : mat := mk_mat 3 3 (fun _ _ => 1%Q).
Definition signal_2x3 : mat := mk_mat 2 3 (fun i j => inject_Z (3 * i + j + 1)).
Definition kernel_1x1 : mat := mk_mat 1 1 (fun _ _ => 1%Q).
Definition faint_signal : mat :=
  mk_mat 2 2 (fun i j => if (i =? 0) && (j =? 1) then (1 # 200)%Q else 0%Q).

(** The cells of a matrix, row by row. *)
Definition cells (m : mat) : list (list Q) :=
  map (fun i => map (fun j => Qred (val m i j)) (zrange (ncols m))) (zrange (nrows m)).

(** A 1x2 kernel with two different cells. *)
Definition kernel_1x2 : mat := mk_mat 1 2 (fun _ j => if j =? 0 then 1%Q else 2%Q).

(** Two patterns one pixel apart, with the default index. *)
Definition close_patterns : DataFrame :=
  [(0%nat, mk_pattern 10 20 (1 # 2)); (1%nat, mk_pattern 10 21 (1 # 4))].

(** The rows labelled 2 and 3 of a table of four rows. *)
Definition filtered_patterns : DataFrame :=
  [(2%nat, mk_pattern 10 20 (1 # 2)); (3%nat, mk_pattern 30 40 (1 # 4))].

(* ===================================================================== *)
(** * Vocabulary of the properties *)
(* ===================================================================== *)

(** The invariant of the merging loop of [connected_components]: every node
    carries the least node of its class, and two nodes carry the same name
    exactly when the edges processed so far link them. *)
Record merged (n : nat) (E : list (nat * nat)) (lab : list nat) : Prop := {
  merged_length : length lab = n;
  merged_le : forall i, (i < n)%nat -> (nth i lab 0 <= i)%nat;
  merged_idem : forall i, (i < n)%nat -> nth (nth i lab 0%nat) lab 0%nat = nth i lab 0%nat;
  merged_sound : forall i j, Csgraph.connected E i j -> nth i lab 0%nat = nth j lab 0%nat;
  merged_complete : forall i j, (i < n)%nat -> (j < n)%nat ->
                                nth i lab 0%nat = nth j lab 0%nat ->
                                Csgraph.connected E i j
}.

(** An edge between two of the [n] nodes. *)
Definition in_range (n : nat) (e : nat * nat) : Prop := (fst e < n /\ snd e < n)%nat.

(** The edge written by [fill_adjacency_1d] at position [q] joins two of the
    [n] nodes. *)
Definition edge_ok (n : nat) (ids : option (list nat)) (q : nat) : Prop :=
  match ids with
  | Some tr => (nth q tr 0 < n /\ nth (S q) tr 0 < n)%nat
  | None => (q < n /\ S q < n)%nat
  end.

(** Strictly increasing lists, as [np.unique] returns them. *)
Inductive ascending : list nat -> Prop :=
| asc_nil : ascending []
| asc_cons : forall x l, ascending l -> (forall y, In y l -> (x < y)%nat) ->
                         ascending (x :: l).

(** Rows of the table and of the window stack of [validate_patterns] once
    the loop has visited a candidate, [acc] telling the accepted ones. *)
Definition init_pattern (l : Z * Z) : pattern := mk_pattern (fst l) (snd l) 0.

Definition final_pattern (acc : Z * Z -> bool) (conv_mat : coo Q) (l : Z * Z) : pattern :=
  if acc l then scored conv_mat l else init_pattern l.

Definition zero_window (win_h win_w : Z) : window :=
  repeat (repeat 0%Q (Z.to_nat win_w)) (Z.to_nat win_h).

Definition final_window (acc : Z * Z -> bool) (matrix : coo Q) (win_h win_w : Z)
           (l : Z * Z) : window :=
  if acc l then window_at matrix win_h win_w l else zero_window win_h win_w.

(** Indices blacklisted by the loop among the candidates [post], the first
    of which has index [k]. *)
Definition rejected (acc : Z * Z -> bool) (k : nat) (post : list (Z * Z)) : list nat :=
  map fst (filter (fun il => negb (acc (snd il))) (enumerate_from k post)).

(** Sum of [f] over a list of indices. *)
Definition sum_list {A : Type} (l : list A) (f : A -> Q) : Q :=
  fold_right (fun k acc => (f k + acc)%Q) 0%Q l.

(** The cell of [sp.diags] on diagonal [d]: the value of the diagonal
    through it, duplicated offsets being summed. *)
Definition diag_cell (diagonals : list Q) (offsets : list Z) (d : Z) : Q :=
  fold_right (fun vo acc => if (d =? snd vo)%Z then (fst vo + acc)%Q else acc)
             0%Q (combine diagonals offsets).

(** One kernel column against the signal, at output cell [(i, j)]. *)
Definition column_term (signal kernel : mat) (kj i j : Z) : Q :=
  sum_upto (nrows kernel)
           (fun k => (val kernel k kj * val signal (i + k) (j + kj))%Q).

(** Sum of the signal over the window of output cell [(i, j)]. *)
Definition window_sum (signal kernel : mat) (i j : Z) : Q :=
  sum_upto (ncols kernel)
           (fun kj => sum_upto (nrows kernel) (fun k => val signal (i + k) (j + kj))).

(** Cross-correlation of the signal with the kernel at output cell
    [(i, j)]. *)
Definition cross_correlation (signal kernel : mat) (i j : Z) : Q :=
  sum_upto (ncols kernel) (fun kj => column_term signal kernel kj i j).

(** The [N] x [N] matrix returned by [xcorr2] for the raw output [out] of
    either branch: thresholded, and framed by the margins lost to the
    kernel. *)
Definition with_margins (kernel : mat) (N : Z) (threshold : Q) (out : mat) : mat :=
  let kh := (nrows kernel - 1) / 2 in
  let kw := (ncols kernel - 1) / 2 in
  mk_mat N N
    (fun r c =>
       if (kh <=? r) && (r - kh <? nrows out) && (kw <=? c) && (c - kw <? ncols out)
       then (if Qltb (val out (r - kh) (c - kw)) threshold then 0%Q
             else val out (r - kh) (c - kw))
       else 0%Q).

(** [l1] is [l2] with some elements left out, the order kept. *)
Inductive sublist {A : Type} : list A -> list A -> Prop :=
| sub_nil : sublist [] []
| sub_skip : forall x l1 l2, sublist l1 l2 -> sublist l1 (x :: l2)
| sub_keep : forall x l1 l2, sublist l1 l2 -> sublist (x :: l1) (x :: l2).

(** The edge written by [fill_adjacency_1d] for position [q]. *)
Definition edge_at (ids : option (list nat)) (q : nat) : nat * nat :=
  match ids with
  | Some tr => (nth q tr 0%nat, nth (S q) tr 0%nat)
  | None => (q, S q)
  end.

(** A label is either absent or carried by at least [m] pixels. *)
Definition settled (m x : nat) (foci : list nat) : Prop :=
  (count_label x foci = 0 \/ m <= count_label x foci)%nat.

(** Pixels stored row by row, columns ascending within a row. *)
Definition row_major (cs : list (Z * Z)) : Prop :=
  StronglySorted (fun p q => lex_leb p q = true) cs.

(** Row [i] of the table holds the largest score among the rows with its
    bins, and is the first such row. *)
Definition first_best (p : DataFrame) (i : nat) : Prop :=
  let d := (0%nat, mk_pattern 0 0 0) in
  (forall j, (j < length p)%nat -> key (nth j p d) = key (nth i p d) ->
             (score (snd (nth j p d)) <= score (snd (nth i p d)))%Q)
  /\ (forall j, (j < i)%nat -> key (nth j p d) = key (nth i p d) ->
                (score (snd (nth j p d)) < score (snd (nth i p d)))%Q).

(* ===================================================================== *)
(** * Properties *)
(* ===================================================================== *)

Lemma bind_ok {A B : Type} (a : A) (k : A -> result B) : bind (ok a) k = k a.
Proof. reflexivity. Qed.

Lemma bind_raise {A B : Type} (e : exn) (k : A -> result B) : bind (raise e) k = raise e.
Proof. reflexivity. Qed.

Lemma for_each_cons {S X : Type} (body : S -> X -> result S) x t st :
  for_each body (x :: t) st = bind (body st x) (fun st' => for_each body t st').
Proof. reflexivity. Qed.

Lemma set_nth_app {A : Type} (x y : A) (pre post : list A) (n : nat) :
  n = length pre -> set_nth n x (pre ++ y :: post) = pre ++ x :: post.
Proof.
  intros ->. induction pre as [| z pre IH]; simpl; [reflexivity | now rewrite IH].
Qed.

Lemma Qltb_lt (a b : Q) : Qltb a b = true <-> (a < b)%Q.
Proof.
  unfold Qltb. rewrite negb_true_iff. split.
  - intros H. apply Qnot_le_lt. intros Hle.
    apply Qle_bool_iff in Hle. congruence.
  - intros H. destruct (Qle_bool b a) eqn:E; [| reflexivity].
    apply Qle_bool_iff in E. exfalso. now apply (Qlt_not_le a b).
Qed.

Lemma Qltb_ge (a b : Q) : Qltb a b = false -> (b <= a)%Q.
Proof.
  intros H. destruct (Qlt_le_dec a b) as [Hlt | Hle]; [| exact Hle].
  apply Qltb_lt in Hlt. congruence.
Qed.

(* --------------------------------------------------------------------- *)
(** ** Connected components *)
(* --------------------------------------------------------------------- *)

Section CsgraphFacts.

Import Csgraph.
Local Open Scope nat_scope.

Lemma relabel_length old new lab : length (relabel old new lab) = length lab.
Proof. unfold relabel. apply length_map. Qed.

Lemma nth_map_lt {A B : Type} (f : A -> B) (l : list A) (d : B) (d' : A) :
  forall i, i < length l -> nth i (map f l) d = f (nth i l d').
Proof.
  induction l as [| x t IH]; intros [| i] Hi; simpl in *; try lia.
  - reflexivity.
  - apply IH. lia.
Qed.

Lemma relabel_nth old new lab i :
  i < length lab ->
  nth i (relabel old new lab) 0 =
    if nth i lab 0 =? old then new else nth i lab 0.
Proof.
  intros Hi. unfold relabel. now rewrite (nth_map_lt _ _ _ 0).
Qed.

Lemma connected_mono E E' i j :
  incl E E' -> connected E i j -> connected E' i j.
Proof.
  intros Hincl H. induction H.
  - apply conn_refl.
  - apply conn_edge. now apply Hincl.
  - now apply conn_sym.
  - eapply conn_trans; eassumption.
Qed.

Lemma connected_nil i j : connected [] i j -> i = j.
Proof.
  induction 1; try congruence.
  contradiction.
Qed.

Lemma merged_init n : merged n [] (seq 0 n).
Proof.
  split.
  - apply length_seq.
  - intros i Hi. rewrite seq_nth by assumption. simpl. lia.
  - intros i Hi.
    assert (E : nth i (seq 0 n) 0 = i) by (now rewrite seq_nth).
    now rewrite !E.
  - intros i j H. apply connected_nil in H. now subst.
  - intros i j Hi Hj. rewrite !seq_nth by assumption. simpl.
    intros ->. apply conn_refl.
Qed.

Lemma merged_join n E lab a b :
  merged n E lab -> a < n -> b < n ->
  merged n (E ++ [(a, b)]) (join lab (a, b)).
Proof.
  intros [Hlen Hle Hidem Hsound Hcompl] Ha Hb.
  unfold join. simpl fst. simpl snd.
  set (la := nth a lab 0). set (lb := nth b lab 0).
  assert (Hla : la < n) by (specialize (Hle a Ha); unfold la; lia).
  assert (Hlb : lb < n) by (specialize (Hle b Hb); unfold lb; lia).
  assert (Hmin_fix : nth (Nat.min la lb) lab 0 = Nat.min la lb).
  { destruct (Nat.min_dec la lb) as [-> | ->]; unfold la, lb; now apply Hidem. }
  assert (Hnth : forall i, i < n ->
            nth i (relabel (Nat.max la lb) (Nat.min la lb) lab) 0 =
            if nth i lab 0 =? Nat.max la lb then Nat.min la lb else nth i lab 0).
  { intros i Hi. apply relabel_nth. now rewrite Hlen. }
  assert (Hnth_all : forall i,
            nth i (relabel (Nat.max la lb) (Nat.min la lb) lab) 0 =
            if i <? n then
              (if nth i lab 0 =? Nat.max la lb then Nat.min la lb else nth i lab 0)
            else 0).
  { intros i. destruct (Nat.ltb_spec i n) as [Hi | Hi].
    - now apply Hnth.
    - apply nth_overflow. rewrite relabel_length. lia. }
  split.
  - now rewrite relabel_length.
  - intros i Hi. rewrite Hnth by assumption.
    specialize (Hle i Hi).
    destruct (Nat.eqb_spec (nth i lab 0) (Nat.max la lb)); lia.
  - intros i Hi. rewrite (Hnth i Hi).
    destruct (Nat.eqb_spec (nth i lab 0) (Nat.max la lb)) as [He | Hne].
    + rewrite Hnth by lia. rewrite Hmin_fix.
      destruct (Nat.eqb_spec (Nat.min la lb) (Nat.max la lb)); reflexivity.
    + assert (Hr : nth i lab 0 < n) by (specialize (Hle i Hi); lia).
      rewrite Hnth by assumption. rewrite (Hidem i Hi).
      destruct (Nat.eqb_spec (nth i lab 0) (Nat.max la lb)); [contradiction | reflexivity].
  - intros i j H. induction H as [i | x y Hin | i j _ IH | i j k _ IH1 _ IH2].
    + reflexivity.
    + apply in_app_or in Hin. destruct Hin as [Hin | [Heq | []]].
      * rewrite !Hnth_all.
        pose proof (Hsound x y (conn_edge E x y Hin)) as Hxy.
        destruct (Nat.ltb_spec x n) as [Hx | Hx], (Nat.ltb_spec y n) as [Hy | Hy];
          try (now rewrite Hxy); try reflexivity.
        -- rewrite (nth_overflow lab 0 (n := y)) in Hxy by lia.
           rewrite Hxy.
           destruct (Nat.eqb_spec 0 (Nat.max la lb)) as [H0 | H0]; [lia | reflexivity].
        -- rewrite (nth_overflow lab 0 (n := x)) in Hxy by lia.
           rewrite <- Hxy.
           destruct (Nat.eqb_spec 0 (Nat.max la lb)) as [H0 | H0]; [lia | reflexivity].
      * injection Heq as <- <-.
        rewrite !Hnth by assumption. fold la. fold lb.
        destruct (Nat.eqb_spec la (Nat.max la lb)), (Nat.eqb_spec lb (Nat.max la lb)); lia.
    + now symmetry.
    + congruence.
  - intros i j Hi Hj. rewrite (Hnth i Hi), (Hnth j Hj).
    assert (Hedge : connected (E ++ [(a, b)]) a b).
    { apply conn_edge. apply in_or_app. right. now left. }
    assert (Hup : forall x y, x < n -> y < n -> nth x lab 0 = nth y lab 0 ->
                              connected (E ++ [(a, b)]) x y).
    { intros x y Hx Hy Hxy. apply connected_mono with (E := E).
      - apply incl_appl, incl_refl.
      - now apply Hcompl. }
    (* the node of the edge carrying the larger name, and the other one *)
    assert (Hends : exists u v, u < n /\ v < n
               /\ nth u lab 0 = Nat.max la lb /\ nth v lab 0 = Nat.min la lb
               /\ connected (E ++ [(a, b)]) u v).
    { destruct (Nat.le_gt_cases la lb) as [Hc | Hc].
      - exists b, a. repeat split; try assumption; fold la; fold lb; try lia.
        now apply conn_sym.
      - exists a, b. repeat split; try assumption; fold la; fold lb; lia. }
    destruct Hends as (u & v & Hu & Hv & Humax & Hvmin & Huv).
    destruct (Nat.eqb_spec (nth i lab 0) (Nat.max la lb)) as [Hei | Hni],
             (Nat.eqb_spec (nth j lab 0) (Nat.max la lb)) as [Hej | Hnj]; intros Heq.
    + apply Hup; congruence.
    + apply conn_trans with (j := u); [apply Hup; congruence |].
      apply conn_trans with (j := v); [assumption |].
      apply Hup; congruence.
    + apply conn_trans with (j := v); [apply Hup; congruence |].
      apply conn_trans with (j := u); [now apply conn_sym |].
      apply Hup; congruence.
    + now apply Hup.
Qed.

Lemma merged_fold n edges :
  forall E lab, Forall (in_range n) edges -> merged n E lab ->
                merged n (E ++ edges) (fold_left join edges lab).
Proof.
  induction edges as [| [a b] rest IH]; intros E lab Hr Hm; simpl.
  - now rewrite app_nil_r.
  - inversion Hr as [| ? ? [Ha Hb] Hrest]; subst. simpl in Ha, Hb.
    replace (E ++ (a, b) :: rest) with ((E ++ [(a, b)]) ++ rest)
      by (now rewrite <- app_assoc).
    apply IH; [assumption |].
    now apply merged_join.
Qed.

Lemma merged_roots n edges :
  Forall (in_range n) edges -> merged n edges (component_roots n edges).
Proof.
  intros Hr. unfold component_roots.
  change edges with ([] ++ edges) at 1.
  apply merged_fold; [assumption | apply merged_init].
Qed.

End CsgraphFacts.

Section ComponentCount.

Import Csgraph.
Local Open Scope nat_scope.

Lemma heads_spec n root r :
  In r (heads n root) <-> r < n /\ nth r root 0 = r.
Proof.
  unfold heads. rewrite filter_In, in_seq, Nat.eqb_eq. lia.
Qed.

Lemma heads_NoDup n root : NoDup (heads n root).
Proof. unfold heads. apply NoDup_filter, seq_NoDup. Qed.

(** The nodes that name their own class form one representative per
    component. *)
Lemma heads_representatives n edges :
  Forall (in_range n) edges ->
  representatives n edges (heads n (component_roots n edges)).
Proof.
  intros Hr. destruct (merged_roots n edges Hr) as [Hlen Hle Hidem Hsound Hcompl].
  set (root := component_roots n edges) in *.
  repeat split.
  - apply heads_NoDup.
  - intros r Hin. now apply heads_spec in Hin.
  - intros i Hi. exists (nth i root 0).
    assert (Hlt : nth i root 0 < n) by (specialize (Hle i Hi); lia).
    split.
    + apply heads_spec. split; [assumption | now apply Hidem].
    + apply Hcompl; try assumption. symmetry. now apply Hidem.
  - intros r r' Hin Hin' Hc.
    apply heads_spec in Hin. apply heads_spec in Hin'.
    apply Hsound in Hc. lia.
Qed.

Lemma filter_length_lt {A : Type} (f : A -> bool) (l : list A) (x : A) :
  In x l -> f x = false -> length (filter f l) < length l.
Proof.
  induction l as [| y t IH]; intros Hin Hf; simpl in *; [contradiction |].
  destruct Hin as [-> | Hin].
  - rewrite Hf. pose proof (filter_length_le f t). lia.
  - specialize (IH Hin Hf). destruct (f y); simpl; lia.
Qed.

Lemma rank_lt hs r : In r hs -> rank hs r < length hs.
Proof.
  intros Hin. unfold rank. apply filter_length_lt with (x := r); [assumption |].
  apply Nat.ltb_irrefl.
Qed.

(** Component labels range over [0 .. num - 1]. *)
Lemma connected_components_labels n edges :
  Forall (in_range n) edges ->
  Forall (fun l => l < fst (connected_components n edges))
         (snd (connected_components n edges)).
Proof.
  intros Hr. destruct (merged_roots n edges Hr) as [Hlen Hle Hidem _ _].
  unfold connected_components. simpl.
  set (root := component_roots n edges) in *.
  apply Forall_forall. intros l Hin.
  apply in_map_iff in Hin. destruct Hin as (r & <- & Hin).
  apply rank_lt.
  apply (In_nth _ _ 0) in Hin. destruct Hin as (i & Hi & <-).
  rewrite Hlen in Hi.
  apply heads_spec. split.
  - specialize (Hle i Hi). lia.
  - now apply Hidem.
Qed.

Lemma connected_components_length n edges :
  length (snd (connected_components n edges)) = n.
Proof.
  unfold connected_components. simpl. rewrite length_map.
  unfold component_roots.
  assert (H : forall es lab, length (fold_left join es lab) = length lab).
  { induction es as [| e es IH]; intros lab; simpl; [reflexivity |].
    rewrite IH. unfold join. apply relabel_length. }
  rewrite H. apply length_seq.
Qed.

End ComponentCount.

(* --------------------------------------------------------------------- *)
(** ** The adjacency built by the labeler *)
(* --------------------------------------------------------------------- *)

Section AdjacencyFacts.

Local Open Scope nat_scope.

Lemma insert_entry_length {A : Type} (x : Z * Z * A) l :
  length (insert_entry x l) = S (length l).
Proof.
  induction l as [| y t IH]; simpl; [reflexivity |].
  destruct (lex_leb (coord x) (coord y)); simpl; [reflexivity | now rewrite IH].
Qed.

Lemma insert_entry_In {A : Type} (x y : Z * Z * A) l :
  In y (insert_entry x l) -> y = x \/ In y l.
Proof.
  induction l as [| z t IH]; simpl.
  - intros [<- | []]. now left.
  - destruct (lex_leb (coord x) (coord z)); simpl.
    + intros [<- | [<- | H]]; auto.
    + intros [<- | H]; auto. destruct (IH H); auto.
Qed.

Lemma tocsr_tocoo_length {A : Type} (l : list (Z * Z * A)) :
  length (tocsr_tocoo l) = length l.
Proof.
  induction l as [| x t IH]; simpl; [reflexivity |].
  now rewrite insert_entry_length, IH.
Qed.

Lemma tocsr_tocoo_In {A : Type} (l : list (Z * Z * A)) y :
  In y (tocsr_tocoo l) -> In y l.
Proof.
  induction l as [| x t IH]; simpl; [trivial |].
  intros H. apply insert_entry_In in H. destruct H as [-> | H]; auto.
Qed.

Lemma ori_ids_length cs : length (ori_ids cs) = length cs.
Proof. unfold ori_ids. rewrite length_combine, length_seq. lia. Qed.

Lemma trans_ids_length cs : length (trans_ids cs) = length cs.
Proof.
  unfold trans_ids, transpose_entries.
  now rewrite tocsr_tocoo_length, length_map, ori_ids_length.
Qed.

Lemma trans_ids_data cs e : In e (trans_ids cs) -> data e < length cs.
Proof.
  unfold trans_ids, transpose_entries. intros H.
  apply tocsr_tocoo_In in H. apply in_map_iff in H.
  destruct H as ([[r c] i] & <- & Hin). unfold data. simpl.
  unfold ori_ids in Hin. apply in_combine_r in Hin.
  apply in_seq in Hin. lia.
Qed.

Lemma diff_stay_length l : length (diff_stay l) = length l - 1.
Proof.
  induction l as [| p [| q t] IH]; simpl in *; try reflexivity.
  rewrite IH. lia.
Qed.

Lemma transition_true l p :
  nth p (get_1d_foci_transition l) false = true -> S p < length l.
Proof.
  unfold get_1d_foci_transition. intros H.
  destruct (Nat.lt_ge_cases p (length (diff_stay l))) as [Hlt | Hge].
  - rewrite diff_stay_length in Hlt. lia.
  - rewrite app_nth2 in H by assumption.
    destruct (p - length (diff_stay l)) as [| [| k]]; simpl in H; discriminate.
Qed.

Lemma fill_adjacency_in_range n ids :
  forall flags adj k,
    Forall (in_range n) adj ->
    (forall p, nth p flags false = true -> edge_ok n ids (k + p)) ->
    Forall (in_range n) (fill_adjacency_1d adj k flags ids).
Proof.
  induction flags as [| f rest IH]; intros adj k Hadj Hflags; simpl.
  - assumption.
  - apply IH.
    + destruct f; [| assumption].
      specialize (Hflags 0 eq_refl). rewrite Nat.add_0_r in Hflags.
      unfold edge_ok in Hflags.
      destruct ids; apply Forall_app; split; try assumption;
        (constructor; [exact Hflags | constructor]).
    + intros p Hp. specialize (Hflags (S p) Hp).
      now rewrite Nat.add_succ_r in Hflags.
Qed.

(** Every cell of the adjacency matrix lies inside it. *)
Lemma adjacency_in_range cs : Forall (in_range (length cs)) (adjacency cs).
Proof.
  unfold adjacency.
  apply fill_adjacency_in_range.
  - apply fill_adjacency_in_range; [constructor |].
    intros p Hp. apply transition_true in Hp. simpl. lia.
  - intros p Hp. apply transition_true in Hp. rewrite length_map in Hp.
    rewrite trans_ids_length in Hp. simpl.
    assert (Hnth : forall q, q < length cs ->
              nth q (map data (trans_ids cs)) 0 < length cs).
    { intros q Hq.
      rewrite (nth_map_lt _ _ _ (0%Z, 0%Z, 0)) by (now rewrite trans_ids_length).
      apply trans_ids_data. apply nth_In. now rewrite trans_ids_length. }
    split; apply Hnth; lia.
Qed.

End AdjacencyFacts.

(* --------------------------------------------------------------------- *)
(** ** Labels after the removal of small foci *)
(* --------------------------------------------------------------------- *)

Section LabelFacts.

Import Csgraph.
Local Open Scope nat_scope.

Lemma label_count {A : Type} (matrix : coo A) (min_focus_size : nat) :
  fst (label_connected_pixels_sparse matrix min_focus_size) =
  fst (connected_components (length (coords matrix)) (adjacency (coords matrix))).
Proof. reflexivity. Qed.

Lemma label_entries {A : Type} (matrix : coo A) (min_focus_size : nat) :
  entries (snd (label_connected_pixels_sparse matrix min_focus_size)) =
  let cc := connected_components (length (coords matrix)) (adjacency (coords matrix)) in
  masked_entries (coords matrix)
                 (filter_foci min_focus_size (fst cc) (map S (snd cc))).
Proof. reflexivity. Qed.

Lemma remove_small_bound m k foci x :
  Forall (fun y => y <= k) foci -> Forall (fun y => y <= k) (remove_small m foci x).
Proof.
  intros H. unfold remove_small.
  destruct (count_label x foci <? m); [| assumption].
  apply Forall_map. eapply Forall_impl; [| exact H].
  intros y Hy. simpl in *. destruct (y =? x); lia.
Qed.

Lemma filter_foci_bound m num k foci :
  Forall (fun y => y <= k) foci -> Forall (fun y => y <= k) (filter_foci m num foci).
Proof.
  unfold filter_foci. generalize (seq 1 num). intros xs. revert foci.
  induction xs as [| x xs IH]; intros foci H; simpl; [assumption |].
  apply IH. now apply remove_small_bound.
Qed.

Lemma masked_entries_bound k :
  forall cs foci, Forall (fun y => y <= k) foci ->
                  Forall (fun e => 1 <= data e <= k) (masked_entries cs foci).
Proof.
  induction cs as [| p cs IH]; intros [| f foci] H; simpl; try constructor.
  inversion H as [| ? ? Hf Hrest]; subst.
  apply Forall_app. split; [| now apply IH].
  destruct (Nat.ltb_spec 0 f); constructor; [| constructor].
  unfold data. simpl. lia.
Qed.

Lemma masked_entries_length_le :
  forall cs foci, length (masked_entries cs foci) <= length cs.
Proof.
  induction cs as [| p cs IH]; intros [| f foci]; simpl; try lia.
  rewrite length_app. specialize (IH foci).
  destruct (0 <? f); simpl; lia.
Qed.

(** When the mask drops nothing, the pixels come out as they went in. *)
Lemma masked_entries_all :
  forall cs foci, length (masked_entries cs foci) = length cs ->
                  map coord (masked_entries cs foci) = cs.
Proof.
  induction cs as [| p cs IH]; intros [| f foci] H; simpl in *; try reflexivity;
    try discriminate.
  rewrite length_app in H.
  pose proof (masked_entries_length_le cs foci) as Hle.
  destruct (0 <? f); simpl in *; [| lia].
  f_equal.
  - unfold coord. simpl. now destruct p.
  - apply IH. lia.
Qed.

(** Labels kept in the labelled matrix lie in [1 .. num_foci]. *)
Lemma label_data_bound {A : Type} (matrix : coo A) (min_focus_size : nat) :
  let r := label_connected_pixels_sparse matrix min_focus_size in
  Forall (fun e => 1 <= data e <= fst r) (entries (snd r)).
Proof.
  cbv zeta. rewrite label_entries, label_count. cbv zeta.
  apply masked_entries_bound, filter_foci_bound.
  apply Forall_map.
  eapply Forall_impl; [| apply connected_components_labels, adjacency_in_range].
  intros l Hl. cbv beta in Hl |- *. lia.
Qed.

Lemma insert_nat_In x y l : In y (insert_nat x l) -> y = x \/ In y l.
Proof.
  induction l as [| z t IH]; simpl.
  - intros [<- | []]. now left.
  - destruct (x <? z); [| destruct (x =? z)]; simpl.
    + intros [<- | H]; auto.
    + auto.
    + intros [<- | H]; auto. destruct (IH H); auto.
Qed.

Lemma insert_nat_ascending x l : ascending l -> ascending (insert_nat x l).
Proof.
  induction 1 as [| z t Ht IH Hz]; simpl.
  - constructor; [constructor | intros y []].
  - destruct (Nat.ltb_spec x z) as [Hlt | Hge].
    + constructor; [now constructor |].
      intros y [<- | Hy]; [assumption |]. specialize (Hz y Hy). lia.
    + destruct (Nat.eqb_spec x z) as [-> | Hne]; [now constructor |].
      constructor; [assumption |].
      intros y Hy. apply insert_nat_In in Hy. destruct Hy as [-> | Hy]; [lia | auto].
Qed.

Lemma ascending_NoDup l : ascending l -> NoDup l.
Proof.
  induction 1 as [| x l _ IH Hx]; constructor; [| assumption].
  intros Hin. specialize (Hx x Hin). lia.
Qed.

Lemma unique_ascending l : ascending (unique l).
Proof.
  induction l as [| x t IH]; simpl; [constructor | now apply insert_nat_ascending].
Qed.

Lemma unique_In l y : In y (unique l) -> In y l.
Proof.
  induction l as [| x t IH]; simpl; [trivial |].
  intros H. apply insert_nat_In in H. destruct H as [-> | H]; auto.
Qed.

(** There are at most [k] distinct values among numbers of [1 .. k]. *)
Lemma unique_length_bound k l :
  Forall (fun y => 1 <= y <= k) l -> length (unique l) <= k.
Proof.
  intros H.
  rewrite <- (length_seq k 1).
  apply NoDup_incl_length.
  - apply ascending_NoDup, unique_ascending.
  - intros y Hy. apply unique_In in Hy.
    rewrite Forall_forall in H. specialize (H y Hy).
    apply in_seq. lia.
Qed.

Lemma set_nth_length {A : Type} (x : A) :
  forall l i, length (set_nth i x l) = length l.
Proof.
  induction l as [| y t IH]; intros [| i]; simpl; try reflexivity.
  now rewrite IH.
Qed.

Lemma fold_set_nth_length {A B : Type} (f : B -> A) (g : B -> nat) (xs : list B) :
  forall l, length (fold_left (fun acc b => set_nth (g b) (f b) acc) xs l) = length l.
Proof.
  induction xs as [| b xs IH]; intros l; simpl; [reflexivity |].
  now rewrite IH, set_nth_length.
Qed.

(** The picker returns as many rows as the labeler counted foci. *)
Lemma picker_length (mat_conv matrix : coo Q) (precision : Q) :
  match picker mat_conv matrix precision with
  | Some foci_coords =>
      let values := map data (entries mat_conv) in
      let thres := (median values + precision * mad values)%Q in
      length foci_coords =
      fst (label_connected_pixels_sparse (candidates mat_conv thres) 2)
  | None => True
  end.
Proof.
  unfold picker. cbv zeta.
  destruct (0 <? length (entries (candidates mat_conv _))); [| exact I].
  destruct (label_connected_pixels_sparse _ 2) as [num_foci labelled_mat].
  simpl fst.
  rewrite (fold_set_nth_length
             (fun rf => best_pixel mat_conv labelled_mat (snd rf)) fst).
  apply repeat_length.
Qed.

End LabelFacts.

(* --------------------------------------------------------------------- *)
(** ** The labeler on the example of its docstring *)
(* --------------------------------------------------------------------- *)

Section DocstringExample.

Let labelled : coo nat := snd (label_connected_pixels_sparse example_M 2).
Let label_of (p : Z * Z) : nat := cell labelled (fst p) (snd p).

Lemma example_coords :
  coords example_M = [(0, 0); (1, 0); (1, 2); (2, 0); (2, 2); (2, 3)].
Proof. reflexivity. Qed.

Ltac pick_pixel H :=
  rewrite example_coords in H; simpl in H;
  repeat (destruct H as [<- | H]); try contradiction.

Lemma example_adjacent_same_label p q :
  In p (coords example_M) -> In q (coords example_M) ->
  adjacent8 p q -> label_of p = label_of q.
Proof.
  intros Hp Hq Hadj.
  pick_pixel Hp; pick_pixel Hq;
    first [ reflexivity | exfalso; unfold adjacent8 in Hadj; simpl in Hadj; lia ].
Qed.

Lemma example_chain_same_label p q :
  chain (coords example_M) p q -> label_of p = label_of q.
Proof.
  induction 1 as [p Hp | p q r Hp Hq Hadj _ IH]; [reflexivity |].
  rewrite <- IH. now apply example_adjacent_same_label.
Qed.

Ltac in_example := rewrite example_coords; simpl; tauto.

Ltac adjacent := unfold adjacent8; simpl; lia.

Ltac chain_search n :=
  lazymatch n with
  | O => fail
  | S ?k =>
      first
        [ apply chain_refl; in_example
        | apply chain_step with (q := (0, 0)); [in_example | in_example | adjacent | chain_search k]
        | apply chain_step with (q := (1, 0)); [in_example | in_example | adjacent | chain_search k]
        | apply chain_step with (q := (1, 2)); [in_example | in_example | adjacent | chain_search k]
        | apply chain_step with (q := (2, 0)); [in_example | in_example | adjacent | chain_search k]
        | apply chain_step with (q := (2, 2)); [in_example | in_example | adjacent | chain_search k]
        | apply chain_step with (q := (2, 3)); [in_example | in_example | adjacent | chain_search k] ]
  end.

Lemma example_same_label_chain :
  Forall (fun p => Forall (fun q => label_of p = label_of q ->
                                    chain (coords example_M) p q)
                          (coords example_M))
         (coords example_M).
Proof.
  rewrite Forall_forall. intros p Hp.
  rewrite Forall_forall. intros q Hq.
  pick_pixel Hp; pick_pixel Hq; intros H; vm_compute in H;
    first [ discriminate H | chain_search 3%nat ].
Qed.

(** C6: on the 4x4 matrix of the docstring with [min_focus_size = 2] the
    labeler counts 2 foci and returns the labelled matrix
    [[1,0,0,0],[1,0,2,0],[1,0,2,2],[0,0,0,0]]; on this input two candidate
    pixels carry the same label exactly when a chain of 8-way adjacent
    candidate pixels links them. *)
Theorem label_docstring_example :
  todense example_M = [[1; 0; 0; 0]; [1; 0; 1; 0]; [1; 0; 1; 1]; [0; 0; 0; 0]]%nat
  /\ fst (label_connected_pixels_sparse example_M 2) = 2%nat
  /\ todense (snd (label_connected_pixels_sparse example_M 2))
     = [[1; 0; 0; 0]; [1; 0; 2; 0]; [1; 0; 2; 2]; [0; 0; 0; 0]]%nat
  /\ Forall (fun p =>
       Forall (fun q =>
                 cell (snd (label_connected_pixels_sparse example_M 2)) (fst p) (snd p)
                 = cell (snd (label_connected_pixels_sparse example_M 2)) (fst q) (snd q)
                 <-> chain (coords example_M) p q)
              (coords example_M))
       (coords example_M).
Proof.
  repeat split; try reflexivity.
  pose proof example_same_label_chain as Hto.
  rewrite Forall_forall in *. intros p Hp.
  specialize (Hto p Hp).
  rewrite Forall_forall in *. intros q Hq.
  split.
  - exact (Hto q Hq).
  - apply example_chain_same_label.
Qed.

End DocstringExample.

(* --------------------------------------------------------------------- *)
(** ** Focus count of the labeler and size of the picker's output *)
(* --------------------------------------------------------------------- *)

(** The count returned by the labeler is taken before the removal of the
    small foci: it does not depend on [min_focus_size], it bounds the number
    of distinct labels left in the labelled matrix and can exceed it, and
    the picker returns as many rows as this count. *)
Lemma label_count_before_removal
      (A : Type) (matrix : coo A) (min_focus_size : nat) :
  let r := label_connected_pixels_sparse matrix min_focus_size in
  fst r = fst (label_connected_pixels_sparse matrix 0)
  /\ (length (unique (map data (entries (snd r)))) <= fst r)%nat
  /\ (let r2 := label_connected_pixels_sparse two_foci_pixels 2 in
      (length (unique (map data (entries (snd r2)))) < fst r2)%nat)
  /\ (forall (mat_conv m : coo Q) (precision : Q),
         match picker mat_conv m precision with
         | Some foci_coords =>
             let values := map data (entries mat_conv) in
             let thres := (median values + precision * mad values)%Q in
             length foci_coords
             = fst (label_connected_pixels_sparse (candidates mat_conv thres) 2)
         | None => True
         end).
Proof.
  cbv zeta. repeat split.
  - apply unique_length_bound.
    apply Forall_map.
    exact (label_data_bound matrix min_focus_size).
  - vm_compute. lia.
  - intros mat_conv m precision. apply picker_length.
Qed.

(* --------------------------------------------------------------------- *)
(** ** Rows returned by the picker *)
(* --------------------------------------------------------------------- *)

Section PickerRows.

Local Open Scope nat_scope.

Lemma fold_set_nth_enumerate {A B : Type} (h : B -> A) (d : A) :
  forall (l : list B) (pre : list A) (m : nat),
    length l <= m ->
    fold_left (fun acc rf => set_nth (fst rf) (h (snd rf)) acc)
              (enumerate_from (length pre) l) (pre ++ repeat d m)
    = pre ++ map h l ++ repeat d (m - length l).
Proof.
  induction l as [| x t IH]; intros pre m Hm; simpl.
  - now rewrite Nat.sub_0_r.
  - destruct m as [| m]; [simpl in Hm; lia |]. simpl repeat.
    rewrite set_nth_app by reflexivity.
    replace (pre ++ h x :: repeat d m) with ((pre ++ [h x]) ++ repeat d m)
      by (now rewrite <- app_assoc).
    replace (S (length pre)) with (length (pre ++ [h x]))
      by (rewrite length_app; simpl; lia).
    rewrite IH by (simpl in Hm; lia).
    now rewrite <- app_assoc.
Qed.

(** When there is a candidate, the picker returns the best pixel of every
    label left in the labelled matrix, by increasing label, followed by
    rows [(0, 0)] up to the labeler's count. *)
Lemma picker_rows (mat_conv matrix : coo Q) (precision : Q) :
  let values := map data (entries mat_conv) in
  let thres := (median values + precision * mad values)%Q in
  let candidate_mat := candidates mat_conv thres in
  let num_foci := fst (label_connected_pixels_sparse candidate_mat 2) in
  let labelled_mat := snd (label_connected_pixels_sparse candidate_mat 2) in
  let ids := unique (map data (entries labelled_mat)) in
  0 < length (entries candidate_mat) ->
  picker mat_conv matrix precision
  = Some (map (best_pixel mat_conv labelled_mat) ids
          ++ repeat (0%Z, 0%Z) (num_foci - length ids)).
Proof.
  cbv zeta. intros Hpos. unfold picker. cbv zeta.
  apply Nat.ltb_lt in Hpos. rewrite Hpos.
  pose proof (label_data_bound
                (candidates mat_conv
                   (median (map data (entries mat_conv))
                    + precision * mad (map data (entries mat_conv)))%Q) 2) as Hb.
  cbv zeta in Hb.
  destruct (label_connected_pixels_sparse _ 2) as [num_foci labelled_mat].
  simpl fst in *. simpl snd in *. f_equal.
  apply (fold_set_nth_enumerate (best_pixel mat_conv labelled_mat) (0%Z, 0%Z) _ []).
  apply unique_length_bound. now apply Forall_map.
Qed.

(** [np.argmax] returns the first position holding the maximum. *)
Lemma argmax_from_spec :
  forall (l pre : list Q) (best_i : nat) (best : Q),
    best_i < length pre ->
    nth best_i pre 0%Q = best ->
    (forall j, j < length pre -> (nth j pre 0 <= best)%Q) ->
    (forall j, j < best_i -> (nth j pre 0 < best)%Q) ->
    let r := argmax_from best_i best (length pre) l in
    r < length (pre ++ l)
    /\ (forall j, j < length (pre ++ l) ->
                  (nth j (pre ++ l) 0 <= nth r (pre ++ l) 0)%Q)
    /\ (forall j, j < r -> (nth j (pre ++ l) 0 < nth r (pre ++ l) 0)%Q).
Proof.
  induction l as [| x t IH]; intros pre best_i best Hbi Hb Hle Hlt; cbv zeta.
  - simpl argmax_from. rewrite app_nil_r. rewrite Hb.
    repeat split; assumption.
  - simpl argmax_from.
    replace (pre ++ x :: t) with ((pre ++ [x]) ++ t) by (now rewrite <- app_assoc).
    replace (S (length pre)) with (length (pre ++ [x]))
      by (rewrite length_app; simpl; lia).
    destruct (Qltb best x) eqn:E.
    + apply Qltb_lt in E. apply IH.
      * rewrite length_app. simpl. lia.
      * now rewrite nth_middle.
      * intros j Hj. rewrite length_app in Hj. simpl in Hj.
        destruct (Nat.eq_dec j (length pre)) as [-> | Hne].
        -- rewrite nth_middle. apply Qle_refl.
        -- rewrite app_nth1 by lia. apply Qlt_le_weak.
           apply Qle_lt_trans with (y := best); [apply Hle; lia | assumption].
      * intros j Hj. rewrite app_nth1 by lia.
        apply Qle_lt_trans with (y := best); [apply Hle; lia | assumption].
    + apply Qltb_ge in E. apply IH.
      * rewrite length_app. simpl. lia.
      * now rewrite app_nth1 by lia.
      * intros j Hj. rewrite length_app in Hj. simpl in Hj.
        destruct (Nat.eq_dec j (length pre)) as [-> | Hne].
        -- now rewrite nth_middle.
        -- rewrite app_nth1 by lia. apply Hle. lia.
      * intros j Hj. rewrite app_nth1 by lia. now apply Hlt.
Qed.

Lemma argmax_first_maximum (l : list Q) :
  l <> [] ->
  argmax l < length l
  /\ (forall j, j < length l -> (nth j l 0 <= nth (argmax l) l 0)%Q)
  /\ (forall j, j < argmax l -> (nth j l 0 < nth (argmax l) l 0)%Q).
Proof.
  destruct l as [| x t]; [congruence |]. intros _. unfold argmax.
  apply (argmax_from_spec t [x] 0 x).
  - simpl. lia.
  - reflexivity.
  - intros [| j] Hj; simpl in *; [apply Qle_refl | lia].
  - intros j Hj. lia.
Qed.

End PickerRows.

(* --------------------------------------------------------------------- *)
(** ** Output of the picker when foci were removed *)
(* --------------------------------------------------------------------- *)

(** C3: on a correlation map with one focus of two pixels and one isolated
    pixel, a single focus survives the labelling, and the picker returns two
    rows: the best pixel of that focus and a row [(0, 0)] that is not a
    stored pixel of the map. *)
Theorem picker_pads_removed_foci :
  picker two_foci_map two_foci_map 0 = Some [(1, 1); (0, 0)]
  /\ unique (map data (entries (snd (label_connected_pixels_sparse
                                       (candidates two_foci_map (1 # 2)) 2))))
     = [1%nat]
  /\ ~ In (0, 0) (coords two_foci_map).
Proof.
  repeat split.
  simpl. intros [H | [H | [H | []]]]; discriminate H.
Qed.

(* --------------------------------------------------------------------- *)
(** ** Labelling the labelled matrix again *)
(* --------------------------------------------------------------------- *)

(** C5, as stated, fails: the first run counts the isolated pixel as a
    focus, the second run no longer sees it. *)
Lemma relabel_count_differs :
  fst (label_connected_pixels_sparse
         (snd (label_connected_pixels_sparse two_foci_pixels 2)) 2)
  <> fst (label_connected_pixels_sparse two_foci_pixels 2).
Proof. vm_compute. discriminate. Qed.

(** C5, amended: for a matrix storing each coordinate once, when the first
    run removes no focus (every pixel of the input is kept in the labelled
    matrix), labelling the labelled matrix again yields the same focus
    count. *)
Theorem relabel_count_when_nothing_removed
        (A : Type) (matrix : coo A) (min_focus_size : nat) :
  distinct_coords (coords matrix) = true ->
  length (entries (snd (label_connected_pixels_sparse matrix min_focus_size)))
  = length (entries matrix) ->
  fst (label_connected_pixels_sparse
         (snd (label_connected_pixels_sparse matrix min_focus_size)) min_focus_size)
  = fst (label_connected_pixels_sparse matrix min_focus_size).
Proof.
  intros _ Hkeep.
  rewrite !label_count.
  assert (Hc : coords (snd (label_connected_pixels_sparse matrix min_focus_size))
               = coords matrix).
  { unfold coords at 1. rewrite label_entries in *. cbv zeta in *.
    apply masked_entries_all. rewrite Hkeep. unfold coords. now rewrite length_map. }
  now rewrite Hc.
Qed.

Lemma relabel_count_when_nothing_removed_witness :
  distinct_coords (coords example_M) = true
  /\ length (entries (snd (label_connected_pixels_sparse example_M 2)))
     = length (entries example_M)
  /\ fst (label_connected_pixels_sparse
            (snd (label_connected_pixels_sparse example_M 2)) 2)
     = fst (label_connected_pixels_sparse example_M 2).
Proof.
  split; [reflexivity |]. split; [reflexivity |].
  apply (relabel_count_when_nothing_removed nat example_M 2); reflexivity.
Defined.

(* --------------------------------------------------------------------- *)
(** ** The validation loop computes a filter *)
(* --------------------------------------------------------------------- *)

Section ValidationLoop.

Variables (matrix conv_mat : coo Q) (detectable_bins : list Z * list Z).
Variables (win_h win_w : Z) (max_undetected_perc : Q).

Hypothesis odd_h : Z.odd win_h = true.
Hypothesis odd_w : Z.odd win_w = true.
Hypothesis pos_h : 0 < win_h.
Hypothesis pos_w : 0 < win_w.

Let acc := accepts matrix detectable_bins win_h win_w max_undetected_perc.
Let step := validate_step matrix conv_mat (fst detectable_bins) (snd detectable_bins)
                          win_h win_w max_undetected_perc.

Lemma range_length lo hi : length (range lo hi) = Z.to_nat (hi - lo).
Proof. unfold range. now rewrite length_map, length_seq. Qed.

Lemma odd_window k p :
  Z.odd k = true -> 0 < k ->
  Z.of_nat (length (range (p - half k + 1) (p + half k))) = k.
Proof.
  intros Hodd Hpos. rewrite range_length. unfold half.
  pose proof (Z.div2_odd k) as Hk. rewrite Hodd, Z.div2_div in Hk.
  change (Z.b2z true) with 1 in Hk.
  rewrite Z2Nat.id; lia.
Qed.

Lemma csr_index_valid l :
  valid_index conv_mat l ->
  csr_index conv_mat (fst l) (snd l) = ok (csr_get conv_mat (fst l) (snd l)).
Proof.
  intros [[Hr0 Hr1] [Hc0 Hc1]]. unfold csr_index.
  destruct (shape conv_mat) as [nr nc]. simpl in *.
  destruct (Z.ltb_spec (fst l) 0); [lia |].
  destruct (Z.ltb_spec (snd l) 0); [lia |].
  destruct (Z.leb_spec 0 (fst l)); [| lia].
  destruct (Z.ltb_spec (fst l) nr); [| lia].
  destruct (Z.leb_spec 0 (snd l)); [| lia].
  destruct (Z.ltb_spec (snd l) nc); [| lia].
  reflexivity.
Qed.

(** One turn of the loop, whatever the kernel shape: a rejected candidate
    is blacklisted; for an accepted one the score is read, then the window
    is stored if it has the shape of the kernel. *)
Lemma validate_step_cases st i l :
  step st (i, l) =
  if acc l then
    do s <- csr_index conv_mat (fst l) (snd l);
    if (Z.of_nat (length (window_rows win_h l)) =? win_h)
       && (Z.of_nat (length (window_cols win_w l)) =? win_w)
    then ok (mk_state (set_nth i (mk_pattern (fst l) (snd l) s) (st_coords st))
                      (set_nth i (window_at matrix win_h win_w l) (st_windows st))
                      (st_blacklist st))
    else raise (ValueError "could not broadcast input array")
  else ok (mk_state (st_coords st) (st_windows st) (st_blacklist st ++ [i])).
Proof.
  unfold step, validate_step, acc, accepts, margins_ok, missing_pixels,
    undetected_pixels, total_pixels, window_at, window_rows, window_cols,
    canonical.
  fold (half win_h). fold (half win_w).
  destruct (fst l >? snd l); cbv zeta; simpl fst; simpl snd;
    (match goal with
     | |- context [if ?b && ?c && ?d && ?e then _ else _] =>
         destruct (b && c && d && e); [| reflexivity]
     end);
    simpl andb;
    (match goal with
     | |- context [Qltb ?a ?b] => destruct (Qltb a b); reflexivity
     end).
Qed.

Lemma validate_step_rejects st i l :
  acc l = false ->
  step st (i, l) = ok (mk_state (st_coords st) (st_windows st) (st_blacklist st ++ [i])).
Proof. intros H. now rewrite validate_step_cases, H. Qed.

(** One turn of the loop: an accepted candidate gets its score and its
    window, a rejected one is blacklisted. *)
Lemma validate_step_accepts st i l :
  valid_index conv_mat l ->
  step st (i, l) =
  ok (if acc l
      then mk_state (set_nth i (scored conv_mat l) (st_coords st))
                    (set_nth i (window_at matrix win_h win_w l) (st_windows st))
                    (st_blacklist st)
      else mk_state (st_coords st) (st_windows st) (st_blacklist st ++ [i])).
Proof.
  intros Hidx.
  unfold step, validate_step, acc, accepts, margins_ok, missing_pixels,
    undetected_pixels, total_pixels, window_at, window_rows, window_cols,
    canonical, scored.
  fold (half win_h). fold (half win_w).
  destruct (fst l >? snd l); cbv zeta; simpl fst; simpl snd;
    (match goal with
     | |- context [if ?b && ?c && ?d && ?e then _ else _] =>
         destruct (b && c && d && e); [| reflexivity]
     end);
    simpl andb;
    (match goal with
     | |- context [Qltb ?a ?b] => destruct (Qltb a b); [| reflexivity]
     end);
    rewrite (csr_index_valid l Hidx); unfold bind;
    rewrite !odd_window by assumption;
    rewrite !Z.eqb_refl; reflexivity.
Qed.

Lemma validate_loop :
  forall post pre_c pre_w bl,
    length pre_c = length pre_w ->
    (forall l, In l post -> acc l = true -> valid_index conv_mat l) ->
    for_each step (enumerate_from (length pre_c) post)
             (mk_state (pre_c ++ map init_pattern post)
                       (pre_w ++ repeat (zero_window win_h win_w) (length post)) bl)
    = ok (mk_state (pre_c ++ map (final_pattern acc conv_mat) post)
                   (pre_w ++ map (final_window acc matrix win_h win_w) post)
                   (bl ++ rejected acc (length pre_c) post)).
Proof.
  induction post as [| l post IH]; intros pre_c pre_w bl Hlen Hidx.
  - simpl. unfold rejected. simpl. now rewrite !app_nil_r.
  - simpl enumerate_from. rewrite for_each_cons.
    assert (Hstep : step (mk_state (pre_c ++ map init_pattern (l :: post))
                                   (pre_w ++ repeat (zero_window win_h win_w)
                                                    (length (l :: post))) bl)
                         (length pre_c, l)
                    = ok (if acc l
                          then mk_state
                                 (set_nth (length pre_c) (scored conv_mat l)
                                          (pre_c ++ map init_pattern (l :: post)))
                                 (set_nth (length pre_c) (window_at matrix win_h win_w l)
                                          (pre_w ++ repeat (zero_window win_h win_w)
                                                           (length (l :: post))))
                                 bl
                          else mk_state (pre_c ++ map init_pattern (l :: post))
                                        (pre_w ++ repeat (zero_window win_h win_w)
                                                         (length (l :: post)))
                                        (bl ++ [length pre_c]))).
    { destruct (acc l) eqn:Hacc.
      - rewrite validate_step_accepts by (apply Hidx; [now left | exact Hacc]).
        now rewrite Hacc.
      - now rewrite validate_step_rejects. }
    rewrite Hstep. clear Hstep.
    rewrite bind_ok.
    simpl st_coords. simpl st_windows. simpl st_blacklist.
    simpl map. simpl repeat. simpl length.
    rewrite !set_nth_app by (reflexivity || exact Hlen).
    unfold rejected. simpl enumerate_from. simpl filter.
    unfold final_pattern at 1. unfold final_window at 1.
    assert (Hlen' : forall (x : pattern) (y : window),
               length (pre_c ++ [x]) = length (pre_w ++ [y])).
    { intros x y. rewrite !length_app. simpl. lia. }
    assert (HS : forall x : pattern, S (length pre_c) = length (pre_c ++ [x])).
    { intros x. rewrite length_app. simpl. lia. }
    assert (Hidx' : forall l', In l' post -> acc l' = true -> valid_index conv_mat l').
    { intros l' Hin. apply Hidx. now right. }
    destruct (acc l) eqn:Hacc; simpl negb; cbv iota.
    + rewrite (HS (scored conv_mat l)).
      replace (pre_c ++ scored conv_mat l :: map init_pattern post)
        with ((pre_c ++ [scored conv_mat l]) ++ map init_pattern post)
        by (now rewrite <- app_assoc).
      replace (pre_w ++ window_at matrix win_h win_w l :: repeat (zero_window win_h win_w) (length post))
        with ((pre_w ++ [window_at matrix win_h win_w l])
                ++ repeat (zero_window win_h win_w) (length post))
        by (now rewrite <- app_assoc).
      rewrite (IH _ _ bl (Hlen' _ _) Hidx').
      unfold rejected. now rewrite <- !app_assoc.
    + rewrite (HS (init_pattern l)).
      replace (pre_c ++ init_pattern l :: map init_pattern post)
        with ((pre_c ++ [init_pattern l]) ++ map init_pattern post)
        by (now rewrite <- app_assoc).
      replace (pre_w ++ zero_window win_h win_w :: repeat (zero_window win_h win_w) (length post))
        with ((pre_w ++ [zero_window win_h win_w]) ++ repeat (zero_window win_h win_w) (length post))
        by (now rewrite <- app_assoc).
      rewrite (IH _ _ (bl ++ [length pre_c]) (Hlen' _ _) Hidx').
      unfold rejected. rewrite <- !app_assoc. simpl. now rewrite <- HS.
Qed.

Lemma rejected_ge post : forall k i, In i (rejected acc k post) -> (k <= i)%nat.
Proof.
  unfold rejected. induction post as [| l post IH]; intros k i; simpl; [contradiction |].
  destruct (acc l); simpl.
  - intros H. apply IH in H. lia.
  - intros [<- | H]; [lia | apply IH in H; lia].
Qed.

Lemma rejected_cons k l post :
  rejected acc k (l :: post) = (if acc l then [] else [k]) ++ rejected acc (S k) post.
Proof. unfold rejected. simpl. now destruct (acc l). Qed.

Lemma filter_head {A : Type} (f : A -> bool) (x : A) (t : list A) :
  filter f (x :: t) = if f x then x :: filter f t else filter f t.
Proof. reflexivity. Qed.

Lemma existsb_absent (k : nat) (l : list nat) :
  (forall i, In i l -> i <> k) -> existsb (Nat.eqb k) l = false.
Proof.
  induction l as [| x t IH]; intros H; simpl; [reflexivity |].
  rewrite IH by (intros i Hi; apply H; now right).
  destruct (Nat.eqb_spec k x) as [-> | Hne]; [| reflexivity].
  exfalso. apply (H x); [now left | reflexivity].
Qed.

(** Dropping the blacklisted rows keeps the accepted candidates, in
    order. *)
Lemma drop_rejected {B : Type} (g h : Z * Z -> B) :
  (forall l, acc l = true -> g l = h l) ->
  forall post k bl,
    (forall i, In i bl -> (i < k)%nat) ->
    map snd (filter (fun ix => negb (existsb (Nat.eqb (fst ix)) (bl ++ rejected acc k post)))
                    (enumerate_from k (map g post)))
    = map h (filter acc post).
Proof.
  intros Hgh. induction post as [| l post IH]; intros k bl Hbl; [reflexivity |].
  rewrite rejected_cons.
  change (enumerate_from k (map g (l :: post)))
    with ((k, g l) :: enumerate_from (S k) (map g post)).
  rewrite filter_head. simpl fst at 1.
  rewrite (filter_head acc l post).
  destruct (acc l) eqn:Hacc.
  - simpl app at 2. simpl filter at 2. rewrite existsb_absent.
    + simpl. rewrite Hgh by assumption. f_equal.
      apply IH. intros i Hi. specialize (Hbl i Hi). lia.
    + intros i Hi. apply in_app_or in Hi. destruct Hi as [Hi | Hi].
      * specialize (Hbl i Hi). lia.
      * apply rejected_ge in Hi. lia.
  - simpl filter at 2.
    replace (existsb (Nat.eqb k) (bl ++ [k] ++ rejected acc (S k) post)) with true.
    + simpl negb. cbv iota.
      replace (bl ++ k :: rejected acc (S k) post)
        with ((bl ++ [k]) ++ rejected acc (S k) post) by (now rewrite <- app_assoc).
      apply IH. intros i Hi. apply in_app_or in Hi.
      destruct Hi as [Hi | [<- | []]]; [specialize (Hbl i Hi) |]; lia.
    + symmetry. apply existsb_exists. exists k. split.
      * apply in_or_app. right. now left.
      * apply Nat.eqb_refl.
Qed.

(** The validator returns the accepted candidates with their scores, and
    their windows, both in the order of the input. *)
Lemma validate_patterns_filter_accepted (coords : list (Z * Z)) :
  (forall l, In l coords -> acc l = true -> valid_index conv_mat l) ->
  validate_patterns coords matrix conv_mat detectable_bins (win_h, win_w)
                    max_undetected_perc
  = ok (map (scored conv_mat) (filter acc coords),
        map (window_at matrix win_h win_w) (filter acc coords)).
Proof.
  intros Hidx. unfold validate_patterns. cbv zeta.
  match goal with
  | |- bind ?a _ = _ =>
      change a with
        (for_each step (enumerate_from (length (@nil pattern)) coords)
                  (mk_state ([] ++ map init_pattern coords)
                            ([] ++ repeat (zero_window win_h win_w) (length coords)) []))
  end.
  rewrite (validate_loop coords [] [] [] eq_refl Hidx). rewrite bind_ok.
  simpl app.
  simpl st_coords. simpl st_windows. simpl st_blacklist.
  unfold drop_blacklisted. f_equal. f_equal.
  - apply (drop_rejected (final_pattern acc conv_mat) (scored conv_mat)) with (bl := []).
    + intros l Hl. unfold final_pattern. now rewrite Hl.
    + intros i [].
  - apply (drop_rejected (final_window acc matrix win_h win_w) (window_at matrix win_h win_w)) with (bl := []).
    + intros l Hl. unfold final_window. now rewrite Hl.
    + intros i [].
Qed.

Lemma validate_patterns_filter (coords : list (Z * Z)) :
  (forall l, In l coords -> valid_index conv_mat l) ->
  validate_patterns coords matrix conv_mat detectable_bins (win_h, win_w)
                    max_undetected_perc
  = ok (map (scored conv_mat) (filter acc coords),
        map (window_at matrix win_h win_w) (filter acc coords)).
Proof.
  intros Hidx. apply validate_patterns_filter_accepted.
  intros l Hl _. now apply Hidx.
Qed.

End ValidationLoop.

(* --------------------------------------------------------------------- *)
(** ** What the validator accepts and what it returns *)
(* --------------------------------------------------------------------- *)

Lemma range_In lo hi x : In x (range lo hi) -> lo <= x < hi.
Proof.
  unfold range. intros H. apply in_map_iff in H.
  destruct H as (k & <- & Hk). apply in_seq in Hk. lia.
Qed.

Lemma margins_ok_spec matrix win_h win_w l :
  margins_ok matrix win_h win_w l = true <->
  0 <= fst (canonical l) - half win_h
  /\ fst (canonical l) + half win_h + 1 < fst (shape matrix)
  /\ 0 <= snd (canonical l) - half win_w
  /\ snd (canonical l) + half win_w + 1 < snd (shape matrix).
Proof.
  unfold margins_ok. rewrite !andb_true_iff, !Z.geb_le, !Z.ltb_lt. tauto.
Qed.

Lemma margins_window_in_bounds matrix win_h win_w l :
  0 < win_h -> 0 < win_w ->
  margins_ok matrix win_h win_w l = true -> window_in_bounds matrix win_h win_w l.
Proof.
  intros Hh Hw H. apply margins_ok_spec in H. destruct H as (H1 & H2 & H3 & H4).
  assert (Hhh : 1 <= half win_h)
    by (unfold half; pose proof (Z.div_pos win_h 2); lia).
  assert (Hhw : 1 <= half win_w)
    by (unfold half; pose proof (Z.div_pos win_w 2); lia).
  split; apply Forall_forall; intros x Hx; apply range_In in Hx; lia.
Qed.

(** C7, as stated, fails: the window of the candidate [(1, 5)] lies inside
    the 9x9 map and none of its pixels is missing, yet the candidate is
    rejected, its window starting on the first row. *)
Lemma validate_rejects_window_inside :
  window_in_bounds full_map 3 3 (1, 5)
  /\ (inject_Z (missing_pixels full_map all_bins 3 3 (1, 5)%Z)
       / inject_Z (total_pixels 3 3 (1, 5)%Z) < 50 / 100)%Q
  /\ validate_patterns [(1, 5)] full_map example_scores all_bins (3, 3) 50
     = ok ([], []).
Proof.
  split; [| split].
  - split; vm_compute; repeat constructor; discriminate.
  - vm_compute. reflexivity.
  - vm_compute. reflexivity.
Qed.

(** C7, amended: for a kernel of odd dimensions and candidates that index
    the correlation map, the validator accepts a candidate iff, for the
    canonical pair [(p1, p2)] and the half sizes [h = win_h / 2 + 1] and
    [w = win_w / 2 + 1], [0 <= p1 - h], [p1 + h + 1 < rows], [0 <= p2 - w],
    [p2 + w + 1 < cols], and the missing fraction is strictly below
    [max_undetected_perc / 100]; a candidate whose window leaves the matrix
    is rejected; the table holds the accepted candidates in input order,
    with the window stack aligned on it. *)
Theorem validate_patterns_accepts
        (coords : list (Z * Z)) (matrix conv_mat : coo Q)
        (detectable_bins : list Z * list Z) (win_h win_w : Z)
        (max_undetected_perc : Q) :
  Z.odd win_h = true -> Z.odd win_w = true -> 0 < win_h -> 0 < win_w ->
  (forall l, In l coords -> valid_index conv_mat l) ->
  let acc := accepts matrix detectable_bins win_h win_w max_undetected_perc in
  validate_patterns coords matrix conv_mat detectable_bins (win_h, win_w)
                    max_undetected_perc
  = ok (map (scored conv_mat) (filter acc coords),
        map (window_at matrix win_h win_w) (filter acc coords))
  /\ (forall l,
        acc l = true <->
        (0 <= fst (canonical l) - half win_h
         /\ fst (canonical l) + half win_h + 1 < fst (shape matrix)
         /\ 0 <= snd (canonical l) - half win_w
         /\ snd (canonical l) + half win_w + 1 < snd (shape matrix))
        /\ (inject_Z (missing_pixels matrix detectable_bins win_h win_w l)
             / inject_Z (total_pixels win_h win_w l)
             < max_undetected_perc / 100)%Q)
  /\ (forall l, ~ window_in_bounds matrix win_h win_w l -> acc l = false).
Proof.
  intros Hoh How Hph Hpw Hidx acc. split; [| split].
  - now apply validate_patterns_filter.
  - intros l. unfold acc, accepts.
    now rewrite andb_true_iff, margins_ok_spec, Qltb_lt.
  - intros l Hout. unfold acc, accepts.
    destruct (margins_ok matrix win_h win_w l) eqn:E; [| reflexivity].
    exfalso. apply Hout. now apply margins_window_in_bounds.
Qed.

Lemma validate_patterns_accepts_witness :
  validate_patterns [(1, 5); (5, 2); (4, 4)] full_map example_scores all_bins (3, 3) 50
  = ok (map (scored example_scores)
            (filter (accepts full_map all_bins 3 3 50) [(1, 5); (5, 2); (4, 4)]),
        map (window_at full_map 3 3)
            (filter (accepts full_map all_bins 3 3 50) [(1, 5); (5, 2); (4, 4)])).
Proof.
  apply (validate_patterns_accepts [(1, 5); (5, 2); (4, 4)] full_map example_scores
                                   all_bins 3 3 50);
    try reflexivity.
  intros l [<- | [<- | [<- | []]]]; unfold valid_index; simpl; lia.
Defined.

(** C2, as stated, fails: the candidate [(5, 2)] is accepted and comes out
    of the table with [bin1 = 5] and [bin2 = 2]. *)
Lemma validate_keeps_row_above_col :
  exists windows,
    validate_patterns [(5, 2)] full_map example_scores all_bins (3, 3) 50
    = ok ([mk_pattern 5 2 (7 # 10)], windows)
    /\ bin2 (mk_pattern 5 2 (7 # 10)) < bin1 (mk_pattern 5 2 (7 # 10)).
Proof.
  eexists. split; [vm_compute; reflexivity | simpl; lia].
Qed.

(** C2, amended: every row of the table carries the [(row, col)] pair of an
    input candidate unchanged (the exchange making [row <= col] only serves
    the margin test and the window), so [bin1 <= bin2] holds in the table
    whenever it holds for the input candidates. *)
Theorem validate_patterns_keeps_coords
        (coords : list (Z * Z)) (matrix conv_mat : coo Q)
        (detectable_bins : list Z * list Z) (win_h win_w : Z)
        (max_undetected_perc : Q) :
  Z.odd win_h = true -> Z.odd win_w = true -> 0 < win_h -> 0 < win_w ->
  (forall l, In l coords -> valid_index conv_mat l) ->
  exists table windows,
    validate_patterns coords matrix conv_mat detectable_bins (win_h, win_w)
                      max_undetected_perc = ok (table, windows)
    /\ (forall pat, In pat table -> In (bin1 pat, bin2 pat) coords)
    /\ (Forall (fun l => fst l <= snd l) coords ->
        Forall (fun pat => bin1 pat <= bin2 pat) table).
Proof.
  intros Hoh How Hph Hpw Hidx.
  eexists. eexists. split; [now apply validate_patterns_filter |].
  assert (Hin : forall pat,
             In pat (map (scored conv_mat)
                         (filter (accepts matrix detectable_bins win_h win_w
                                          max_undetected_perc) coords)) ->
             In (bin1 pat, bin2 pat) coords).
  { intros pat Hpat. apply in_map_iff in Hpat.
    destruct Hpat as ([r c] & <- & Hl). apply filter_In in Hl. now destruct Hl. }
  split; [exact Hin |].
  intros Hle. apply Forall_forall. intros pat Hpat.
  rewrite Forall_forall in Hle. exact (Hle _ (Hin pat Hpat)).
Qed.

Lemma validate_patterns_keeps_coords_witness :
  exists table windows,
    validate_patterns [(1, 5); (2, 5); (4, 4)] full_map example_scores all_bins (3, 3) 50
    = ok (table, windows)
    /\ (forall pat, In pat table -> In (bin1 pat, bin2 pat) [(1, 5); (2, 5); (4, 4)])
    /\ (Forall (fun l => fst l <= snd l) [(1, 5); (2, 5); (4, 4)] ->
        Forall (fun pat => bin1 pat <= bin2 pat) table).
Proof.
  apply (validate_patterns_keeps_coords [(1, 5); (2, 5); (4, 4)] full_map example_scores
                                        all_bins 3 3 50);
    try reflexivity.
  intros l [<- | [<- | [<- | []]]]; unfold valid_index; simpl; lia.
Defined.

(* --------------------------------------------------------------------- *)
(** ** The exploration loop when a pass finds nothing *)
(* --------------------------------------------------------------------- *)

Section ExploreNone.

Variable correlation_map : ContactMap -> KernelConfig -> ndarray -> result (coo Q).

(** An empty candidate matrix makes the detector return its sentinel. *)
Lemma pattern_detector_none contact_map kernel_config kernel_matrix mat_conv :
  shape0 kernel_matrix < fst (shape (cm_matrix contact_map)) ->
  correlation_map contact_map kernel_config kernel_matrix = ok mat_conv ->
  picker mat_conv (cm_matrix contact_map) (cfg_precision kernel_config) = None ->
  pattern_detector correlation_map contact_map kernel_config kernel_matrix = ok None.
Proof.
  intros Hsize Hcorr Hpick. unfold pattern_detector.
  destruct (Z.geb_spec (shape0 kernel_matrix) (fst (shape (cm_matrix contact_map))));
    [lia |].
  now rewrite Hcorr, bind_ok, Hpick.
Qed.

(** The first pass iterates over the sentinel of its first kernel. *)
Lemma explore_patterns_none contact_map kernel_config window kernel_matrix rest n :
  cfg_kernels kernel_config = kernel_matrix :: rest ->
  cfg_max_iterations kernel_config = S n ->
  pattern_detector correlation_map contact_map kernel_config kernel_matrix = ok None ->
  explore_patterns correlation_map contact_map kernel_config window
  = raise (TypeError "'NoneType' object is not iterable").
Proof.
  intros Hk Hn Hdet. unfold explore_patterns. rewrite Hn.
  change (seq 1 (S n)) with (1%nat :: seq 2 n).
  rewrite for_each_cons. unfold pass_step at 1.
  simpl negb. cbv iota. simpl Nat.eqb. cbv iota. rewrite Hk.
  rewrite for_each_cons. unfold kernel_step at 1.
  rewrite Hdet, bind_ok. now rewrite !bind_raise.
Qed.

End ExploreNone.

(** C4: on an all-zero contact map the picker returns [None], the detector
    returns its sentinel, and the exploration loop raises a [TypeError]
    instead of counting zero patterns and going on. *)
Theorem explore_patterns_raises_on_empty_pass :
  picker (mk_coo (10, 10) []) (cm_matrix empty_contact_map) (cfg_precision example_config)
  = None
  /\ pattern_detector empty_correlation empty_contact_map example_config flat_kernel
     = ok None
  /\ explore_patterns empty_correlation empty_contact_map example_config 4
     = raise (TypeError "'NoneType' object is not iterable").
Proof.
  assert (Hdet : pattern_detector empty_correlation empty_contact_map example_config
                                  flat_kernel = ok None).
  { apply pattern_detector_none with (mat_conv := mk_coo (10, 10) []); reflexivity. }
  split; [reflexivity |]. split; [exact Hdet |].
  apply explore_patterns_none with (kernel_matrix := flat_kernel) (rest := []) (n := 2%nat);
    [reflexivity | reflexivity | exact Hdet].
Qed.

(* --------------------------------------------------------------------- *)
(** ** Sums over index ranges *)
(* --------------------------------------------------------------------- *)

Section RangeSums.

Local Open Scope Q_scope.

Lemma sum_upto_list n f : sum_upto n f = sum_list (zrange n) f.
Proof. reflexivity. Qed.

Lemma sum_list_ext {A : Type} (l : list A) f g :
  (forall k, In k l -> f k == g k) -> sum_list l f == sum_list l g.
Proof.
  induction l as [| x t IH]; intros H; simpl; [reflexivity |].
  rewrite (H x) by now left. rewrite IH; [reflexivity |].
  intros k Hk. apply H. now right.
Qed.

Lemma sum_list_app {A : Type} (l1 l2 : list A) f :
  sum_list (l1 ++ l2) f == sum_list l1 f + sum_list l2 f.
Proof.
  induction l1 as [| x t IH]; simpl; [ring |]. rewrite IH. ring.
Qed.

Lemma sum_list_map {A B : Type} (g : B -> A) (l : list B) f :
  sum_list (map g l) f = sum_list l (fun k => f (g k)).
Proof. induction l as [| x t IH]; simpl; [reflexivity | now rewrite IH]. Qed.

Lemma sum_list_zero {A : Type} (l : list A) f :
  (forall k, In k l -> f k == 0) -> sum_list l f == 0.
Proof.
  induction l as [| x t IH]; intros H; simpl; [reflexivity |].
  rewrite (H x) by now left. rewrite IH; [ring |].
  intros k Hk. apply H. now right.
Qed.

Lemma sum_list_scale {A : Type} (l : list A) f c :
  sum_list l (fun k => c * f k) == c * sum_list l f.
Proof. induction l as [| x t IH]; simpl; [ring |]. rewrite IH. ring. Qed.

Lemma sum_list_plus {A : Type} (l : list A) f g :
  sum_list l (fun k => f k + g k) == sum_list l f + sum_list l g.
Proof. induction l as [| x t IH]; simpl; [ring |]. rewrite IH. ring. Qed.

Lemma sum_list_swap {A B : Type} (l1 : list A) (l2 : list B) (f : A -> B -> Q) :
  sum_list l1 (fun a => sum_list l2 (fun b => f a b))
  == sum_list l2 (fun b => sum_list l1 (fun a => f a b)).
Proof.
  induction l1 as [| x t IH]; simpl.
  - symmetry. apply sum_list_zero. intros; reflexivity.
  - rewrite IH. symmetry. apply sum_list_plus.
Qed.

Lemma sum_list_nonneg {A : Type} (l : list A) f :
  (forall k, In k l -> 0 <= f k) -> 0 <= sum_list l f.
Proof.
  induction l as [| x t IH]; intros H; simpl; [apply Qle_refl |].
  assert (Hx : 0 <= f x) by (apply H; now left).
  assert (Ht : 0 <= sum_list t f) by (apply IH; intros k Hk; apply H; now right).
  lra.
Qed.

(** A sum over a product of two ranges is a single sum over the pairs. *)
Lemma sum_list_pairs {A B : Type} (l1 : list A) (l2 : list B) (f : A -> B -> Q) :
  sum_list l1 (fun a => sum_list l2 (fun b => f a b))
  == sum_list (list_prod l1 l2) (fun p => f (fst p) (snd p)).
Proof.
  induction l1 as [| x t IH]; simpl; [reflexivity |].
  rewrite sum_list_app, sum_list_map, IH. reflexivity.
Qed.

(** The Cauchy-Schwarz inequality, without square roots. *)
Lemma sum_list_square_identity {A : Type} (l : list A) (f g : A -> Q) (a s : Q) :
  sum_list l (fun x => (a * g x - s * f x) * (a * g x - s * f x))
  == a * a * sum_list l (fun x => g x * g x)
     - 2 * a * s * sum_list l (fun x => f x * g x)
     + s * s * sum_list l (fun x => f x * f x).
Proof. induction l as [| x t IH]; simpl; [ring |]. rewrite IH. ring. Qed.

Lemma square_nonneg (x : Q) : 0 <= x * x.
Proof.
  destruct (Qlt_le_dec x 0) as [H | H].
  - setoid_replace (x * x) with ((- x) * (- x)) by ring.
    apply Qmult_le_0_compat; lra.
  - now apply Qmult_le_0_compat.
Qed.

Lemma sum_squares_zero {A : Type} (l : list A) (f g : A -> Q) :
  sum_list l (fun x => f x * f x) == 0 -> sum_list l (fun x => f x * g x) == 0.
Proof.
  induction l as [| x t IH]; simpl; intros H; [reflexivity |].
  assert (Ht : 0 <= sum_list t (fun x => f x * f x)).
  { apply sum_list_nonneg. intros k _. apply square_nonneg. }
  pose proof (square_nonneg (f x)) as Hx.
  assert (Hfx : f x * f x == 0) by lra.
  assert (Hrest : sum_list t (fun x => f x * f x) == 0) by lra.
  rewrite (IH Hrest).
  assert (Hf0 : f x == 0).
  { destruct (Qeq_dec (f x) 0) as [E | E]; [exact E |].
    exfalso. apply Qmult_integral in Hfx. tauto. }
  rewrite Hf0. ring.
Qed.

Lemma cauchy_schwarz {A : Type} (l : list A) (f g : A -> Q) :
  sum_list l (fun x => f x * g x) * sum_list l (fun x => f x * g x)
  <= sum_list l (fun x => f x * f x) * sum_list l (fun x => g x * g x).
Proof.
  set (S := sum_list l (fun x => f x * g x)).
  set (F := sum_list l (fun x => f x * f x)).
  set (G := sum_list l (fun x => g x * g x)).
  assert (HF : 0 <= F) by (apply sum_list_nonneg; intros; apply square_nonneg).
  assert (HG : 0 <= G) by (apply sum_list_nonneg; intros; apply square_nonneg).
  destruct (Qeq_dec F 0) as [HF0 | HF0].
  - assert (HS : S == 0) by (now apply sum_squares_zero).
    rewrite HS, HF0. lra.
  - assert (Hpos : 0 < F) by (destruct (Qlt_le_dec 0 F); [assumption | exfalso; apply HF0; lra]).
    assert (Hid : 0 <= F * F * G - 2 * F * S * S + S * S * F).
    { pose proof (sum_list_square_identity l f g F S) as Hid0.
      fold S F G in Hid0. rewrite <- Hid0.
      apply sum_list_nonneg. intros; apply square_nonneg. }
    assert (Hprod : 0 <= F * (F * G - S * S)).
    { setoid_replace (F * (F * G - S * S))
        with (F * F * G - 2 * F * S * S + S * S * F) by ring. exact Hid. }
    destruct (Qlt_le_dec (F * G - S * S) 0) as [Hneg | Hge]; [| lra].
    exfalso.
    assert (Hlt : F * (F * G - S * S) < 0).
    { setoid_replace 0 with (F * 0) by ring.
      apply Qmult_lt_l; assumption. }
    lra.
Qed.

Lemma zrange_In n k : In k (zrange n) <-> (0 <= k < n)%Z.
Proof.
  unfold zrange. rewrite in_map_iff. split.
  - intros (i & <- & Hi). apply in_seq in Hi. lia.
  - intros Hk. exists (Z.to_nat k). split; [lia |]. apply in_seq. lia.
Qed.

Lemma seq_shift_map start len :
  seq start len = map (fun k => (start + k)%nat) (seq 0 len).
Proof.
  revert start. induction len as [| len IH]; intros start; simpl; [reflexivity |].
  f_equal; [lia |].
  rewrite (IH (S start)), (IH 1%nat), map_map.
  apply map_ext. intros k. lia.
Qed.

Lemma zrange_split a b :
  (0 <= a)%Z -> (0 <= b)%Z ->
  zrange (a + b) = zrange a ++ map (fun k => (a + k)%Z) (zrange b).
Proof.
  intros Ha Hb. unfold zrange.
  rewrite Z2Nat.inj_add by assumption.
  rewrite seq_app, map_app. f_equal.
  rewrite (seq_shift_map (0 + Z.to_nat a)), !map_map.
  apply map_ext. intros k. lia.
Qed.

(** Summing [f] against the indicator of the window [j .. j + w - 1]. *)
Lemma sum_window n j w f :
  (0 <= j)%Z -> (0 <= w)%Z -> (j + w <= n)%Z ->
  sum_upto n (fun b => f b * (if (0 <=? b - j)%Z && (b - j <? w)%Z then 1 else 0))
  == sum_upto w (fun k => f (j + k)%Z).
Proof.
  intros Hj Hw Hn. rewrite !sum_upto_list.
  set (F := fun b => f b * (if (0 <=? b - j)%Z && (b - j <? w)%Z then 1 else 0)).
  replace n with (j + (w + (n - j - w)))%Z by lia.
  rewrite zrange_split by lia. rewrite zrange_split by lia.
  rewrite sum_list_app, sum_list_map, sum_list_app, sum_list_map. cbv beta.
  assert (H1 : sum_list (zrange j) F == 0).
  { apply sum_list_zero. intros k Hk. apply zrange_In in Hk. unfold F.
    destruct (Z.leb_spec 0 (k - j)); [lia |]. simpl. ring. }
  assert (H2 : sum_list (zrange w) (fun k => F (j + k)%Z)
               == sum_list (zrange w) (fun k => f (j + k)%Z)).
  { apply sum_list_ext. intros k Hk. apply zrange_In in Hk. unfold F.
    destruct (Z.leb_spec 0 (j + k - j)); [| lia].
    destruct (Z.ltb_spec (j + k - j) w); [| lia].
    simpl. ring. }
  assert (H3 : sum_list (zrange (n - j - w)) (fun k => F (j + (w + k))%Z) == 0).
  { apply sum_list_zero. intros k Hk. apply zrange_In in Hk. unfold F.
    destruct (Z.ltb_spec (j + (w + k) - j) w); [lia |].
    rewrite andb_false_r. ring. }
  rewrite H1, H2, H3. ring.
Qed.

End RangeSums.

(* --------------------------------------------------------------------- *)
(** ** The two branches of [xcorr2] on a square signal *)
(* --------------------------------------------------------------------- *)

Section Branches.

Local Open Scope Q_scope.

Lemma diag_cell_absent (h : Z -> Q) (g : Z -> Z) (l : list Z) (d : Z) :
  ~ In d (map g l) -> diag_cell (map h l) (map g l) d = 0.
Proof.
  unfold diag_cell. induction l as [| x t IH]; intros Hd; simpl; [reflexivity |].
  destruct (Z.eqb_spec d (g x)) as [-> | Hne].
  - exfalso. apply Hd. now left.
  - apply IH. intros Hin. apply Hd. now right.
Qed.

Lemma diag_cell_present (h : Z -> Q) (g : Z -> Z) (l : list Z) (k : Z) :
  NoDup (map g l) -> In k l -> diag_cell (map h l) (map g l) (g k) == h k.
Proof.
  unfold diag_cell. induction l as [| x t IH]; intros Hnd Hin; [contradiction |].
  inversion Hnd as [| ? ? Hx Ht]; subst. simpl.
  destruct Hin as [-> | Hin].
  - rewrite Z.eqb_refl.
    pose proof (diag_cell_absent h g t (g k) Hx) as H0. unfold diag_cell in H0.
    rewrite H0. ring.
  - destruct (Z.eqb_spec (g k) (g x)) as [He | Hne].
    + exfalso. apply Hx. rewrite <- He. now apply in_map.
    + now apply IH.
Qed.

Lemma zrange_NoDup n : NoDup (zrange n).
Proof.
  unfold zrange. apply Injective_map_NoDup; [| apply seq_NoDup].
  intros x y H. lia.
Qed.

Lemma zrange_opp_NoDup n : NoDup (map Z.opp (zrange n)).
Proof.
  apply Injective_map_NoDup; [| apply zrange_NoDup].
  intros x y H. lia.
Qed.

(** Diagonals [0 .. n-1] above the main one. *)
Lemma diag_cell_upper (h : Z -> Q) (n d : Z) :
  diag_cell (map h (zrange n)) (zrange n) d
  == if (0 <=? d)%Z && (d <? n)%Z then h d else 0.
Proof.
  rewrite <- (map_id (zrange n)) at 2.
  destruct (Z.leb_spec 0 d); destruct (Z.ltb_spec d n); simpl;
    try (rewrite diag_cell_absent; [reflexivity |];
         rewrite map_id, zrange_In; lia).
  apply (diag_cell_present h (fun k => k)).
  - rewrite map_id. apply zrange_NoDup.
  - apply zrange_In. lia.
Qed.

(** Diagonals [0 .. n-1] below the main one, all holding [v]. *)
Lemma diag_cell_lower (v : Q) (n d : Z) :
  diag_cell (map (fun _ => v) (zrange n)) (map Z.opp (zrange n)) d
  == if (0 <=? - d)%Z && (- d <? n)%Z then v else 0.
Proof.
  destruct (Z.leb_spec 0 (- d)); destruct (Z.ltb_spec (- d) n); simpl;
    try (rewrite diag_cell_absent; [reflexivity |];
         rewrite in_map_iff; intros (k & Hk & Hin); apply zrange_In in Hin; lia).
  replace d with (- (- d))%Z at 1 by lia.
  apply (diag_cell_present (fun _ => v) Z.opp).
  - apply zrange_opp_NoDup.
  - apply zrange_In. lia.
Qed.

Lemma diags_ok (diagonals : list Q) (offsets : list Z) (m n : Z) :
  (forall off, In off offsets ->
               (0 <= Z.min (Z.min (m + off) (n - off)) (Z.min m n))%Z) ->
  diags diagonals offsets m n
  = ok (mk_mat m n (fun i j => diag_cell diagonals offsets (j - i)%Z)).
Proof.
  intros H. unfold diags.
  replace (existsb _ offsets) with false; [reflexivity |].
  symmetry. apply not_true_is_false. intros He.
  apply existsb_exists in He. destruct He as (off & Hin & Hlt).
  apply Z.ltb_lt in Hlt. specialize (H off Hin). lia.
Qed.

Variables (signal kernel : mat) (N : Z).

Hypothesis rows_N : nrows signal = N.
Hypothesis cols_N : ncols signal = N.
Hypothesis kernel_rows : (1 <= nrows kernel <= N)%Z.
Hypothesis kernel_cols : (1 <= ncols kernel <= N)%Z.

Let km := nrows kernel.
Let kn := ncols kernel.

Lemma indicator_product (b : bool) (x y : Q) :
  (if b then x else 0) * y == (x * y) * (if b then 1 else 0).
Proof. destruct b; ring. Qed.

Lemma general_step_spec (out : mat) (kj : Z) :
  nrows out = (N - km + 1)%Z -> ncols out = (N - kn + 1)%Z ->
  (0 <= kj < kn)%Z ->
  exists out',
    general_step signal kernel out kj = ok out'
    /\ nrows out' = (N - km + 1)%Z /\ ncols out' = (N - kn + 1)%Z
    /\ forall i j, (0 <= i < N - km + 1)%Z -> (0 <= j < N - kn + 1)%Z ->
                   val out' i j == val out i j + column_term signal kernel kj i j.
Proof.
  intros Hr Hc Hkj. unfold general_step.
  rewrite rows_N, cols_N. fold km. fold kn.
  rewrite diags_ok.
  2:{ intros off Hoff. apply zrange_In in Hoff. lia. }
  rewrite bind_ok. unfold matmul, slice_cols. simpl nrows. simpl ncols.
  rewrite rows_N, cols_N, Z.eqb_refl, bind_ok.
  unfold add. simpl nrows. simpl ncols. rewrite Hr, Hc.
  replace (Z.max 0 (Z.min (N - kn + 1 + kj) N - Z.min kj N)) with (N - kn + 1)%Z by lia.
  rewrite !Z.eqb_refl. simpl andb. cbv iota.
  eexists. split; [reflexivity |]. simpl nrows. simpl ncols.
  split; [reflexivity |]. split; [reflexivity |].
  intros i j Hi Hj. simpl val.
  apply Qplus_comp; [reflexivity |].
  unfold column, arange. fold km.
  rewrite Z.min_l by lia.
  transitivity (sum_upto N (fun a => (val kernel (a - i) kj * val signal a (j + kj))
                                    * (if (0 <=? a - i)%Z && (a - i <? km)%Z
                                       then 1 else 0))).
  - rewrite !sum_upto_list. apply sum_list_ext. intros a Ha.
    rewrite (diag_cell_upper (fun k => val kernel k kj) km (a - i)).
    apply indicator_product.
  - rewrite (sum_window N i km (fun a => val kernel (a - i) kj * val signal a (j + kj)))
      by lia.
    unfold column_term. rewrite !sum_upto_list. apply sum_list_ext. intros k Hk.
    now replace (i + k - i)%Z with k by lia.
Qed.

Lemma general_loop_spec (l : list Z) :
  forall out,
    nrows out = (N - km + 1)%Z -> ncols out = (N - kn + 1)%Z ->
    (forall kj, In kj l -> (0 <= kj < kn)%Z) ->
    exists out',
      for_each (general_step signal kernel) l out = ok out'
      /\ nrows out' = (N - km + 1)%Z /\ ncols out' = (N - kn + 1)%Z
      /\ forall i j, (0 <= i < N - km + 1)%Z -> (0 <= j < N - kn + 1)%Z ->
                     val out' i j
                     == val out i j + sum_list l (fun kj => column_term signal kernel kj i j).
Proof.
  induction l as [| kj l IH]; intros out Hr Hc Hl.
  - exists out. repeat split; try assumption.
    intros i j _ _. simpl. ring.
  - destruct (general_step_spec out kj Hr Hc (Hl kj (or_introl eq_refl)))
      as (out1 & Hstep & Hr1 & Hc1 & Hv1).
    destruct (IH out1 Hr1 Hc1 (fun k Hk => Hl k (or_intror Hk)))
      as (out2 & Hloop & Hr2 & Hc2 & Hv2).
    exists out2. rewrite for_each_cons, Hstep, bind_ok.
    repeat split; try assumption.
    intros i j Hi Hj. rewrite (Hv2 i j Hi Hj), (Hv1 i j Hi Hj). simpl. ring.
Qed.

(** The general branch computes the cross-correlation of the signal with
    the kernel. *)
Lemma general_path_spec :
  exists out,
    (do out0 <- zeros (N - km + 1) (N - kn + 1); general_path signal kernel out0) = ok out
    /\ nrows out = (N - km + 1)%Z /\ ncols out = (N - kn + 1)%Z
    /\ forall i j, (0 <= i < N - km + 1)%Z -> (0 <= j < N - kn + 1)%Z ->
                   val out i j == sum_upto kn (fun kj => column_term signal kernel kj i j).
Proof.
  unfold zeros.
  destruct (Z.ltb_spec (N - km + 1) 0); [lia |].
  destruct (Z.ltb_spec (N - kn + 1) 0); [lia |].
  simpl orb. cbv iota. rewrite bind_ok. unfold general_path. fold kn.
  destruct (general_loop_spec (zrange kn)
              (mk_mat (N - km + 1) (N - kn + 1) (fun _ _ => 0)) eq_refl eq_refl)
    as (out & Hloop & Hr & Hc & Hv).
  { intros kj Hkj. now apply zrange_In in Hkj. }
  exists out. repeat split; try assumption.
  intros i j Hi Hj. rewrite (Hv i j Hi Hj). simpl val. rewrite sum_upto_list. ring.
Qed.

(** The constant branch computes the sum of the signal over the window,
    times the constant. *)
Lemma constant_path_spec (c : Q) :
  exists out,
    constant_path signal km kn c = ok out
    /\ nrows out = (N - km + 1)%Z /\ ncols out = (N - kn + 1)%Z
    /\ forall i j, (0 <= i < N - km + 1)%Z -> (0 <= j < N - kn + 1)%Z ->
                   val out i j
                   == sum_upto kn (fun kj =>
                        sum_upto km (fun k => val signal (i + k) (j + kj))) * c.
Proof.
  unfold constant_path. rewrite rows_N, cols_N.
  rewrite diags_ok.
  2:{ intros off Hoff. apply zrange_In in Hoff. lia. }
  rewrite bind_ok. rewrite diags_ok.
  2:{ intros off Hoff. apply in_map_iff in Hoff. destruct Hoff as (k & <- & Hk).
      apply zrange_In in Hk. lia. }
  rewrite bind_ok. unfold matmul. simpl nrows. simpl ncols.
  rewrite rows_N, Z.eqb_refl, bind_ok. simpl nrows. simpl ncols.
  rewrite cols_N, Z.eqb_refl, bind_ok.
  eexists. split; [reflexivity |]. simpl nrows. simpl ncols.
  split; [reflexivity |]. split; [reflexivity |].
  intros i j Hi Hj. simpl val. apply Qmult_comp; [| reflexivity].
  unfold arange.
  transitivity (sum_upto N (fun b =>
                  sum_upto km (fun k => val signal (i + k) b)
                  * (if (0 <=? b - j)%Z && (b - j <? kn)%Z then 1 else 0))).
  - rewrite !sum_upto_list. apply sum_list_ext. intros b Hb.
    apply Qmult_comp.
    + transitivity (sum_upto N (fun a => val signal a b
                                         * (if (0 <=? a - i)%Z && (a - i <? km)%Z
                                            then 1 else 0))).
      * rewrite !sum_upto_list. apply sum_list_ext. intros a Ha.
        rewrite (diag_cell_upper (fun _ => 1) km (a - i)).
        destruct ((0 <=? a - i)%Z && (a - i <? km)%Z); ring.
      * apply (sum_window N i km (fun a => val signal a b)); lia.
    + rewrite (diag_cell_lower 1 kn (j - b)).
      replace (- (j - b))%Z with (b - j)%Z by lia. reflexivity.
  - apply (sum_window N j kn (fun b => sum_upto km (fun k => val signal (i + k) b))); lia.
Qed.

End Branches.

(** X13: on a square signal and a constant kernel that fits in it, the two
    branches of [xcorr2] succeed and return the same matrix. *)
Lemma paths_agree_on_square (signal : mat) (N km kn : Z) (c : Q) :
  nrows signal = N -> ncols signal = N -> 1 <= km <= N -> 1 <= kn <= N ->
  let kernel := mk_mat km kn (fun _ _ => c) in
  exists out_c out_g,
    constant_path signal km kn c = ok out_c
    /\ (do out0 <- zeros (N - km + 1) (N - kn + 1); general_path signal kernel out0)
       = ok out_g
    /\ nrows out_c = nrows out_g /\ ncols out_c = ncols out_g
    /\ forall i j, 0 <= i < nrows out_c -> 0 <= j < ncols out_c ->
                   (val out_c i j == val out_g i j)%Q.
Proof.
  intros Hr Hc Hkm Hkn kernel.
  destruct (constant_path_spec signal kernel N Hr Hc Hkm Hkn c)
    as (out_c & Hcp & Hrc & Hcc & Hvc).
  destruct (general_path_spec signal kernel N Hr Hc Hkm Hkn)
    as (out_g & Hgp & Hrg & Hcg & Hvg).
  exists out_c, out_g. simpl in *.
  repeat split; try assumption; try congruence.
  intros i j Hi Hj. rewrite Hrc in Hi. rewrite Hcc in Hj.
  rewrite (Hvc i j Hi Hj), (Hvg i j Hi Hj).
  rewrite !sum_upto_list.
  transitivity (sum_list (zrange kn)
                  (fun kj => c * sum_upto km (fun k => val signal (i + k) (j + kj))))%Q.
  - rewrite sum_list_scale. ring.
  - apply sum_list_ext. intros kj _. unfold column_term. simpl.
    rewrite !sum_upto_list. symmetry. apply sum_list_scale.
Qed.

(* --------------------------------------------------------------------- *)
(** ** Sanity checks of the correlator *)
(* --------------------------------------------------------------------- *)

(** The three checks of [xcorr2] that do reject their input. *)
Lemma xcorr2_sanity_checks (signal kernel : array_like) (threshold : Q) :
  issparse signal = false \/ issparse kernel = true
  \/ nrows (values kernel) > nrows (values signal) ->
  exists msg, xcorr2 signal kernel threshold = raise (ValueError msg).
Proof.
  intros H. unfold xcorr2.
  destruct (issparse signal) eqn:Es; simpl negb; cbv iota; [| eauto].
  destruct (issparse kernel) eqn:Ek; [eauto |].
  destruct H as [H | [H | H]]; try discriminate.
  destruct (Z.gtb_spec (nrows (values kernel)) (nrows (values signal))); [| lia].
  simpl orb. cbv iota. eauto.
Qed.

(** C1: a kernel wider than the signal passes the checks of [xcorr2], which
    returns an all-zero matrix; and [corrcoef2d] on a dense signal with
    [sym_upper] raises an [AttributeError], its own check building a
    [ValueError] without raising it. *)
Theorem xcorr2_accepts_wide_kernel :
  ncols kernel_1x4 > ncols signal_3x3
  /\ match xcorr2 (SparseMatrix signal_3x3) (DenseArray kernel_1x4) default_threshold with
     | inr out => cells out = [[0; 0; 0]; [0; 0; 0]; [0; 0; 0]]%Q
     | inl _ => False
     end
  /\ corrcoef2d (DenseArray signal_3x3) (DenseArray kernel_3x3) None true
     = raise (AttributeError "'numpy.ndarray' object has no attribute 'tolil'").
Proof.
  split; [reflexivity |]. split; [vm_compute; reflexivity | reflexivity].
Qed.

(* --------------------------------------------------------------------- *)
(** ** The two branches of the correlator *)
(* --------------------------------------------------------------------- *)

(** C8: on a 2x3 signal and the constant kernel [[1]], the constant branch
    returns a 3x2 matrix that has lost the last column of the signal, where
    the general branch raises on inconsistent shapes. *)
Theorem constant_path_differs_on_rectangular :
  match constant_path signal_2x3 1 1 1 with
  | inr out => (nrows out, ncols out) = (3, 2)
               /\ cells out = [[1; 2]; [4; 5]; [0; 0]]%Q
  | inl _ => False
  end
  /\ (do out <- zeros 2 3; general_path signal_2x3 kernel_1x1 out)
     = raise (ValueError "inconsistent shapes")
  /\ match xcorr2 (SparseMatrix signal_2x3) (DenseArray kernel_1x1) default_threshold with
     | inr out => cells out = [[1; 2; 0]; [4; 5; 0]]%Q
     | inl _ => False
     end.
Proof.
  split; [| split].
  - vm_compute. split; reflexivity.
  - vm_compute. reflexivity.
  - vm_compute. reflexivity.
Qed.

(* --------------------------------------------------------------------- *)
(** ** [xcorr2] on a square signal *)
(* --------------------------------------------------------------------- *)

Section SquareSignal.

Local Open Scope Q_scope.

Lemma all_cells_true (a : mat) (p : Z -> Z -> bool) :
  (forall i j, (0 <= i < nrows a)%Z -> (0 <= j < ncols a)%Z -> p i j = true) ->
  all_cells a p = true.
Proof.
  intros H. unfold all_cells. apply forallb_forall. intros i Hi.
  apply forallb_forall. intros j Hj.
  apply zrange_In in Hi. apply zrange_In in Hj. now apply H.
Qed.

Lemma zeros_ok (m n : Z) :
  (0 <= m)%Z -> (0 <= n)%Z -> zeros m n = ok (mk_mat m n (fun _ _ => 0)).
Proof.
  intros Hm Hn. unfold zeros.
  destruct (Z.ltb_spec m 0); [lia |]. destruct (Z.ltb_spec n 0); [lia |].
  reflexivity.
Qed.

Variables (signal kernel : mat) (N : Z) (threshold : Q).

Hypothesis rows_N : nrows signal = N.
Hypothesis cols_N : ncols signal = N.
Hypothesis kernel_rows : (1 <= nrows kernel <= N)%Z.
Hypothesis kernel_cols : (1 <= ncols kernel <= N)%Z.

Let km := nrows kernel.
Let kn := ncols kernel.
Let kh := ((km - 1) / 2)%Z.
Let kw := ((kn - 1) / 2)%Z.

Lemma add_margins_ok (out : mat) :
  nrows out = (N - km + 1)%Z -> ncols out = (N - kn + 1)%Z ->
  add_margins (apply_threshold threshold out) kh kw N N = ok (with_margins kernel N threshold out).
Proof.
  intros Hr Hc. unfold add_margins.
  assert (Hkh : (0 <= kh <= km - 1)%Z).
  { unfold kh. split; [apply Z.div_pos; lia |].
    apply Z.div_le_upper_bound; lia. }
  assert (Hkw : (0 <= kw <= kn - 1)%Z).
  { unfold kw. split; [apply Z.div_pos; lia |].
    apply Z.div_le_upper_bound; lia. }
  rewrite all_cells_true; [reflexivity |].
  simpl nrows. simpl ncols. rewrite Hr, Hc. intros i j Hi Hj.
  destruct (Z.ltb_spec (i + kh) N); [| lia].
  destruct (Z.ltb_spec (j + kw) N); [| lia].
  apply orb_true_r.
Qed.

(** On a square signal [xcorr2] succeeds; its raw output is the
    cross-correlation with the kernel, or, through the constant branch, the
    window sum times the first kernel value. *)
Lemma xcorr2_square :
  exists out,
    xcorr2 (SparseMatrix signal) (DenseArray kernel) threshold = ok (with_margins kernel N threshold out)
    /\ nrows out = (N - km + 1)%Z /\ ncols out = (N - kn + 1)%Z
    /\ forall i j, (0 <= i < N - km + 1)%Z -> (0 <= j < N - kn + 1)%Z ->
                   val out i j == cross_correlation signal kernel i j
                   \/ val out i j == window_sum signal kernel i j * val kernel 0 0.
Proof.
  unfold xcorr2. simpl issparse. simpl negb. cbv iota. simpl values.
  rewrite rows_N, cols_N. fold km. fold kn. fold kh. fold kw.
  destruct (Z.gtb_spec km N); [lia |].
  destruct (Z.gtb_spec N N); [lia |]. simpl orb. cbv iota.
  destruct (Z.leb_spec km 0); [lia |].
  destruct (Z.leb_spec kn 0); [lia |]. simpl orb. cbv iota.
  rewrite zeros_ok by lia. rewrite bind_ok.
  destruct (allclose_const kernel (val kernel 0 0)).
  - destruct (constant_path_spec signal kernel N rows_N cols_N kernel_rows kernel_cols
                                 (val kernel 0 0))
      as (out & Hp & Hr & Hc & Hv).
    fold km in Hp, Hr, Hv. fold kn in Hp, Hc, Hv.
    exists out. rewrite Hp, bind_ok, add_margins_ok by assumption.
    repeat split; try assumption.
    intros i j Hi Hj. right. exact (Hv i j Hi Hj).
  - destruct (general_path_spec signal kernel N rows_N cols_N kernel_rows kernel_cols)
      as (out & Hp & Hr & Hc & Hv).
    fold km in Hp, Hr, Hv. fold kn in Hp, Hc, Hv.
    rewrite zeros_ok, bind_ok in Hp by lia.
    exists out. rewrite Hp, bind_ok, add_margins_ok by assumption.
    repeat split; try assumption.
    intros i j Hi Hj. left. exact (Hv i j Hi Hj).
Qed.

End SquareSignal.

(* --------------------------------------------------------------------- *)
(** ** Range of the coefficients when the denominator is not zero *)
(* --------------------------------------------------------------------- *)

Section CoefficientBound.

Local Open Scope Q_scope.

Lemma mult_le_left (z x y : Q) : 0 <= z -> x <= y -> z * x <= z * y.
Proof.
  intros Hz Hxy. rewrite (Qmult_comm z x), (Qmult_comm z y).
  now apply Qmult_le_compat_r.
Qed.

Lemma scaled_square_le (isz S B : Q) :
  0 <= isz -> isz <= 1 -> S * S <= B -> (isz * S) * (isz * S) <= B.
Proof.
  intros H0 H1 HS.
  assert (Hsq : 0 <= S * S) by apply square_nonneg.
  assert (Hi : isz * isz <= 1).
  { setoid_replace 1 with (1 * 1) by ring.
    apply Qmult_le_compat_nonneg; split; assumption. }
  assert (Hm : (isz * isz) * (S * S) <= 1 * (S * S)).
  { apply Qmult_le_compat_r; assumption. }
  setoid_replace (isz * S * (isz * S)) with ((isz * isz) * (S * S)) by ring.
  lra.
Qed.

Lemma constant_square_le (isz size W k F G : Q) :
  0 <= isz -> isz <= 1 -> size * isz == 1 -> 0 <= G ->
  W * W <= size * G -> k * k <= F ->
  (W * (k * isz)) * (W * (k * isz)) <= G * F.
Proof.
  intros H0 H1 Hinv HG HW Hk.
  assert (Hkk : 0 <= k * k) by apply square_nonneg.
  assert (Hii : 0 <= isz * isz) by apply square_nonneg.
  assert (Hi1 : isz * isz <= isz).
  { setoid_replace isz with (isz * 1) at 3 by ring.
    apply mult_le_left; assumption. }
(* W^2 k^2 isz^2 <= size G k^2 isz^2 *)
  assert (Hc : 0 <= (k * k) * (isz * isz)) by (apply Qmult_le_0_compat; assumption).
  assert (H1' : (W * W) * ((k * k) * (isz * isz)) <= (size * G) * ((k * k) * (isz * isz))).
  { apply Qmult_le_compat_r; assumption. }
(* size isz^2 = isz *)
  assert (H2 : (size * G) * ((k * k) * (isz * isz)) == G * (k * k) * isz).
  { setoid_replace ((size * G) * ((k * k) * (isz * isz)))
      with (G * (k * k) * isz * (size * isz)) by ring.
    rewrite Hinv. ring. }
  assert (Hgk : 0 <= G * (k * k)) by (apply Qmult_le_0_compat; assumption).
  assert (H3 : G * (k * k) * isz <= G * (k * k) * 1).
  { apply mult_le_left; assumption. }
  assert (H4 : G * (k * k) <= G * F).
  { apply mult_le_left; assumption. }
  setoid_replace (W * (k * isz) * (W * (k * isz)))
    with ((W * W) * ((k * k) * (isz * isz))) by ring.
  lra.
Qed.

Lemma sum_list_term_le {A : Type} (l : list A) (h : A -> Q) (a : A) :
  In a l -> (forall x, 0 <= h x) -> h a <= sum_list l h.
Proof.
  induction l as [| y t IH]; intros Hin Hpos; [contradiction |]. simpl.
  assert (Ht : 0 <= sum_list t h) by (apply sum_list_nonneg; intros; apply Hpos).
  destruct Hin as [-> | Hin]; [lra |].
  specialize (IH Hin Hpos). specialize (Hpos y). lra.
Qed.

Lemma sum_list_ones {A : Type} (l : list A) :
  sum_list l (fun _ => 1 * 1) == inject_Z (Z.of_nat (length l)).
Proof.
  induction l as [| x t IH]; [reflexivity |].
  simpl sum_list. simpl length. rewrite IH, Nat2Z.inj_succ.
  unfold Z.succ. rewrite inject_Z_plus. ring.
Qed.

Lemma zrange_length n : length (zrange n) = Z.to_nat n.
Proof. unfold zrange. now rewrite length_map, length_seq. Qed.

End CoefficientBound.

Section CorrelationRange.

Local Open Scope Q_scope.

Variables (signal kernel : mat) (N : Z).

Hypothesis rows_N : nrows signal = N.
Hypothesis cols_N : ncols signal = N.
Hypothesis kernel_rows : (1 <= nrows kernel <= N)%Z.
Hypothesis kernel_cols : (1 <= ncols kernel <= N)%Z.

Let km := nrows kernel.
Let kn := ncols kernel.
Let size := inject_Z (km * kn).
Let isz := / size.
Let pairs := list_prod (zrange kn) (zrange km).
Let weight (p : Z * Z) : Q := val kernel (snd p) (fst p).
Let pixel (i j : Z) (p : Z * Z) : Q := val signal (i + snd p) (j + fst p).

Lemma size_inverse : 0 <= isz /\ isz <= 1 /\ size * isz == 1.
Proof.
  assert (Hz : (1 <= km * kn)%Z) by (unfold km, kn; nia).
  assert (Hs : 1 <= size).
  { unfold size. change 1 with (inject_Z 1). rewrite <- Zle_Qle. exact Hz. }
  assert (Hinv : size * isz == 1).
  { unfold isz. apply Qmult_inv_r. lra. }
  assert (Hpos : 0 < isz).
  { unfold isz. apply Qinv_lt_0_compat. lra. }
  repeat split; try lra.
  setoid_replace isz with (isz * 1) by ring.
  rewrite <- Hinv at 2. rewrite (Qmult_comm size isz).
  apply mult_le_left; lra.
Qed.

Lemma kernel2_pairs :
  sum_cells (power2 kernel) == sum_list pairs (fun p => weight p * weight p).
Proof.
  unfold sum_cells. simpl nrows. simpl ncols. rewrite sum_upto_list.
  transitivity (sum_list (zrange km)
                  (fun i => sum_list (zrange kn)
                              (fun j => val kernel i j * val kernel i j))).
  { apply sum_list_ext. intros i _. now rewrite sum_upto_list. }
  rewrite sum_list_swap.
  unfold pairs. now rewrite (sum_list_pairs (zrange kn) (zrange km)
                               (fun a b => val kernel b a * val kernel b a)).
Qed.

Lemma cross_pairs (i j : Z) :
  cross_correlation signal (scale isz kernel) i j
  == isz * sum_list pairs (fun p => weight p * pixel i j p).
Proof.
  unfold cross_correlation, column_term. simpl nrows. simpl ncols. simpl val.
  rewrite sum_upto_list.
  transitivity (sum_list (zrange kn)
                  (fun kj => isz * sum_list (zrange km)
                                     (fun k => val kernel k kj * val signal (i + k) (j + kj)))).
  { apply sum_list_ext. intros kj _. rewrite sum_upto_list.
    rewrite <- sum_list_scale. apply sum_list_ext. intros k _. ring. }
  rewrite sum_list_scale. apply Qmult_comp; [reflexivity |].
  unfold pairs.
  now rewrite (sum_list_pairs (zrange kn) (zrange km)
                 (fun a b => val kernel b a * val signal (i + b) (j + a))).
Qed.

Lemma window_pairs (i j : Z) :
  window_sum signal kernel i j == sum_list pairs (fun p => 1 * pixel i j p).
Proof.
  unfold window_sum. rewrite sum_upto_list.
  transitivity (sum_list (zrange kn)
                  (fun kj => sum_list (zrange km)
                               (fun k => 1 * val signal (i + k) (j + kj)))).
  { apply sum_list_ext. intros kj _. rewrite sum_upto_list.
    apply sum_list_ext. intros k _. ring. }
  unfold pairs.
  now rewrite (sum_list_pairs (zrange kn) (zrange km)
                 (fun a b => 1 * val signal (i + b) (j + a))).
Qed.

Lemma squares_cross_pairs (i j : Z) :
  cross_correlation (power2 signal) (ones_like kernel) i j
  == sum_list pairs (fun p => pixel i j p * pixel i j p).
Proof.
  unfold cross_correlation, column_term. simpl nrows. simpl ncols. simpl val.
  rewrite sum_upto_list.
  transitivity (sum_list (zrange kn)
                  (fun kj => sum_list (zrange km)
                               (fun k => val signal (i + k) (j + kj)
                                         * val signal (i + k) (j + kj)))).
  { apply sum_list_ext. intros kj _. rewrite sum_upto_list.
    apply sum_list_ext. intros k _. ring. }
  unfold pairs.
  now rewrite (sum_list_pairs (zrange kn) (zrange km)
                 (fun a b => val signal (i + b) (j + a) * val signal (i + b) (j + a))).
Qed.

Lemma squares_window_pairs (i j : Z) :
  window_sum (power2 signal) (ones_like kernel) i j * val (ones_like kernel) 0 0
  == sum_list pairs (fun p => pixel i j p * pixel i j p).
Proof.
  unfold window_sum. simpl nrows. simpl ncols. simpl val.
  rewrite sum_upto_list.
  transitivity (sum_list (zrange kn)
                  (fun kj => sum_list (zrange km)
                               (fun k => val signal (i + k) (j + kj)
                                         * val signal (i + k) (j + kj)))).
  { rewrite Qmult_1_r. apply sum_list_ext. intros kj _. now rewrite sum_upto_list. }
  unfold pairs.
  now rewrite (sum_list_pairs (zrange kn) (zrange km)
                 (fun a b => val signal (i + b) (j + a) * val signal (i + b) (j + a))).
Qed.

Lemma pairs_count : sum_list pairs (fun _ => 1 * 1) == size.
Proof.
  rewrite sum_list_ones. unfold pairs, size.
  rewrite length_prod, !zrange_length.
  rewrite Nat2Z.inj_mul, !Z2Nat.id by (unfold km, kn; lia).
  now rewrite Z.mul_comm.
Qed.

(** The square of the numerator is bounded by the product under the square
    root of the denominator. *)
Lemma numerator_bound (i j : Z) (x y : Q) :
  x == cross_correlation signal (scale isz kernel) i j
  \/ x == window_sum signal (scale isz kernel) i j * val (scale isz kernel) 0 0 ->
  y == cross_correlation (power2 signal) (ones_like kernel) i j
  \/ y == window_sum (power2 signal) (ones_like kernel) i j * val (ones_like kernel) 0 0 ->
  x * x <= y * sum_cells (power2 kernel).
Proof.
  intros Hx Hy.
  destruct size_inverse as (Hi0 & Hi1 & Hinv).
  set (G := sum_list pairs (fun p => pixel i j p * pixel i j p)).
  set (F := sum_list pairs (fun p => weight p * weight p)).
  assert (HyG : y == G).
  { destruct Hy as [Hy | Hy]; rewrite Hy;
      [apply squares_cross_pairs | apply squares_window_pairs]. }
  assert (HG : 0 <= G) by (apply sum_list_nonneg; intros; apply square_nonneg).
  rewrite HyG, kernel2_pairs. fold F.
  destruct Hx as [Hx | Hx]; rewrite Hx.
  - rewrite cross_pairs.
    apply scaled_square_le; try assumption.
    rewrite (Qmult_comm G F). apply cauchy_schwarz.
  - change (window_sum signal (scale isz kernel) i j) with (window_sum signal kernel i j).
    rewrite window_pairs. simpl val.
    apply (constant_square_le isz size); try assumption.
    + rewrite <- pairs_count. apply cauchy_schwarz.
    + apply (sum_list_term_le pairs (fun p => weight p * weight p) (0, 0)%Z).
      * unfold pairs. apply in_prod; apply zrange_In; unfold km, kn; lia.
      * intros p. apply square_nonneg.
Qed.

End CorrelationRange.

Section CorrcoefRange.

Local Open Scope Q_scope.

(** The stored coefficient, from a numerator [n] that is zero or positive
    and a squared denominator [s2 * k2]. *)
Lemma clip_divide_range (n s2 k2 : Q) :
  0 <= k2 ->
  n == 0 \/ (0 < n /\ (s2 == 0 \/ (0 < s2 /\ n * n <= s2 * k2))) ->
  clip (divide n (s2 * k2)) = PosInf
  \/ in_unit_interval (clip (divide n (s2 * k2))).
Proof.
  intros Hk H. unfold divide.
  destruct (Qeq_bool n 0) eqn:En; [right; exact I |].
  apply Qeq_bool_neq in En.
  destruct H as [H | (Hn & H)]; [contradiction |].
  destruct (Qltb 0 (s2 * k2)) eqn:Ed.
  - apply Qltb_lt in Ed. simpl clip.
    destruct (Qltb n 0) eqn:En0; [apply Qltb_lt in En0; lra |].
    right. simpl. split; [lra |].
    destruct H as [H | (Hs & H)]; [| exact H].
    rewrite H in Ed. lra.
  - apply Qltb_ge in Ed.
    destruct (Qeq_bool (s2 * k2) 0) eqn:E0.
    + assert (Hpos : Qltb 0 n = true) by (now apply Qltb_lt).
      rewrite Hpos. left. reflexivity.
    + exfalso. apply Qeq_bool_neq in E0. apply E0.
      destruct H as [H | (Hs & _)]; [rewrite H; ring |].
      assert (Hd : 0 <= s2 * k2) by (apply Qmult_le_0_compat; lra).
      lra.
Qed.

Lemma kernel2_nonneg (kernel : mat) : 0 <= sum_cells (power2 kernel).
Proof.
  unfold sum_cells. rewrite sum_upto_list. apply sum_list_nonneg. intros i _.
  rewrite sum_upto_list. apply sum_list_nonneg. intros j _. apply square_nonneg.
Qed.

(** On a square sparse signal and a dense kernel that fits in it,
    [corrcoef2d] returns a map whose every coefficient is either within
    [[0, 1]] or the infinity left by a zeroed denominator. *)
Lemma corrcoef2d_range (signal kernel : mat) (N : Z) (max_dist : option Z) :
  nrows signal = N -> ncols signal = N ->
  (1 <= nrows kernel <= N)%Z -> (1 <= ncols kernel <= N)%Z ->
  exists conv,
    corrcoef2d (SparseMatrix signal) (DenseArray kernel) max_dist false = ok conv
    /\ forall i j, c_at conv i j = PosInf \/ in_unit_interval (c_at conv i j).
Proof.
  intros Hr Hc Hkr Hkc. unfold corrcoef2d. cbv beta iota. rewrite bind_ok.
  destruct (xcorr2_square signal kernel N default_threshold Hr Hc Hkr Hkc)
    as (o1 & H1 & _).
  rewrite H1, bind_ok. simpl with_values. simpl values.
  destruct (xcorr2_square (power2 signal) (ones_like kernel) N default_threshold
                          Hr Hc Hkr Hkc)
    as (o2 & H2 & Hr2 & Hc2 & Hv2).
  rewrite H2, bind_ok.
  destruct (xcorr2_square signal
              (scale (/ inject_Z (nrows kernel * ncols kernel)) kernel)
              N default_threshold Hr Hc Hkr Hkc)
    as (o3 & H3 & Hr3 & Hc3 & Hv3).
  rewrite H3, bind_ok.
  eexists. split; [reflexivity |].
  intros i j.
  assert (Hcore :
    clip (divide (val (with_margins
                         (scale (/ inject_Z (nrows kernel * ncols kernel)) kernel)
                         N default_threshold o3) i j)
                 (val (with_margins (ones_like kernel) N default_threshold o2) i j
                  * sum_cells (power2 kernel))) = PosInf
    \/ in_unit_interval
         (clip (divide (val (with_margins
                               (scale (/ inject_Z (nrows kernel * ncols kernel)) kernel)
                               N default_threshold o3) i j)
                       (val (with_margins (ones_like kernel) N default_threshold o2) i j
                        * sum_cells (power2 kernel))))).
  { apply clip_divide_range; [apply kernel2_nonneg |].
    unfold with_margins. simpl val. simpl nrows in *. simpl ncols in *.
    rewrite Hr2, Hc2, Hr3, Hc3.
    match goal with
    | |- context [if ?b then _ else 0] => destruct b eqn:Ewin
    end; [| left; reflexivity].
    apply andb_prop in Ewin. destruct Ewin as [Ewin Ewj].
    apply andb_prop in Ewin. destruct Ewin as [Ewin Ekw].
    apply andb_prop in Ewin. destruct Ewin as [Ekh Ewi].
    apply Z.leb_le in Ekh, Ekw. apply Z.ltb_lt in Ewi, Ewj.
    match goal with
    | |- context [Qltb ?x default_threshold] =>
        destruct (Qltb x default_threshold) eqn:Ex
    end; [left; reflexivity |].
    apply Qltb_ge in Ex. unfold default_threshold in Ex.
    right. split; [lra |].
    match goal with
    | |- context [Qltb ?y default_threshold] =>
        destruct (Qltb y default_threshold) eqn:Ey
    end; [left; reflexivity |].
    apply Qltb_ge in Ey. unfold default_threshold in Ey.
    right. split; [lra |].
    apply (numerator_bound signal kernel N Hkr Hkc
                           (i - (nrows kernel - 1) / 2)%Z (j - (ncols kernel - 1) / 2)%Z).
    - apply Hv3; lia.
    - apply Hv2; lia. }
  destruct max_dist as [d |]; simpl c_at.
  - destruct (j >=? i)%Z; [| right; exact I].
    destruct (Z.abs (j - i) >? d)%Z; [right; exact I | exact Hcore].
  - destruct (j >=? i)%Z; [exact Hcore | right; exact I].
Qed.

End CorrcoefRange.

(** With [sym_upper], the correlation is that of the symmetrized signal. *)
Lemma corrcoef2d_sym_upper (signal kernel : mat) (max_dist : option Z) :
  corrcoef2d (SparseMatrix signal) (DenseArray kernel) max_dist true
  = corrcoef2d (SparseMatrix (symmetrize signal (nrows kernel))) (DenseArray kernel)
               max_dist false.
Proof. reflexivity. Qed.

Lemma corrcoef2d_range_sym (signal kernel : mat) (N : Z) (max_dist : option Z)
        (sym_upper : bool) :
  nrows signal = N -> ncols signal = N ->
  1 <= nrows kernel <= N -> 1 <= ncols kernel <= N ->
  exists conv,
    corrcoef2d (SparseMatrix signal) (DenseArray kernel) max_dist sym_upper = ok conv
    /\ forall i j, c_at conv i j = PosInf \/ in_unit_interval (c_at conv i j).
Proof.
  intros Hr Hc Hkr Hkc. destruct sym_upper.
  - rewrite corrcoef2d_sym_upper. now apply corrcoef2d_range with (N := N).
  - now apply corrcoef2d_range with (N := N).
Qed.

(* --------------------------------------------------------------------- *)
(** ** Range of the correlation coefficients *)
(* --------------------------------------------------------------------- *)

(** C9: for a signal whose only stored value is 0.005 and the kernel [[1]],
    the convolution of the squared signal falls below the threshold and is
    zeroed, the numerator is kept, and the coefficient stored at [(0, 1)] is
    an infinity, outside [[0, 1]]. *)
Theorem corrcoef2d_infinite_coefficient :
  match corrcoef2d (SparseMatrix faint_signal) (DenseArray kernel_1x1) None false with
  | inr conv => c_at conv 0 1 = PosInf /\ ~ in_unit_interval (c_at conv 0 1)
  | inl _ => False
  end.
Proof.
  vm_compute. split; [reflexivity | intros H; exact H].
Qed.

(* --------------------------------------------------------------------- *)
(** ** Foci and chains of adjacent candidates *)
(* --------------------------------------------------------------------- *)

Section ComponentLabels.

Import Csgraph.
Local Open Scope nat_scope.

Lemma filter_length_mono {A : Type} (f g : A -> bool) (l : list A) :
  (forall x, In x l -> f x = true -> g x = true) ->
  length (filter f l) <= length (filter g l).
Proof.
  induction l as [| y t IH]; intros H; simpl; [lia |].
  assert (IH' : length (filter f t) <= length (filter g t)).
  { apply IH. intros x Hx. apply H. now right. }
  destruct (f y) eqn:Ef.
  - rewrite (H y (or_introl eq_refl) Ef). simpl. lia.
  - destruct (g y); simpl; lia.
Qed.

Lemma filter_length_strict {A : Type} (f g : A -> bool) (l : list A) (x : A) :
  (forall y, In y l -> f y = true -> g y = true) ->
  In x l -> f x = false -> g x = true ->
  length (filter f l) < length (filter g l).
Proof.
  induction l as [| y t IH]; intros H Hin Hf Hg; simpl in *; [contradiction |].
  assert (Hmono : length (filter f t) <= length (filter g t)).
  { apply filter_length_mono. intros z Hz. apply H. now right. }
  destruct Hin as [-> | Hin].
  - rewrite Hf, Hg. simpl. lia.
  - assert (IH' : length (filter f t) < length (filter g t)).
    { apply IH; try assumption. intros z Hz. apply H. now right. }
    destruct (f y) eqn:Ef.
    + rewrite (H y (or_introl eq_refl) Ef). simpl. lia.
    + destruct (g y); simpl; lia.
Qed.

Lemma rank_mono hs r r' : In r hs -> r < r' -> rank hs r < rank hs r'.
Proof.
  intros Hin Hlt. unfold rank.
  apply filter_length_strict with (x := r); try assumption.
  - intros y _ Hy. apply Nat.ltb_lt in Hy. apply Nat.ltb_lt. lia.
  - apply Nat.ltb_irrefl.
  - now apply Nat.ltb_lt.
Qed.

Lemma rank_inj hs r r' : In r hs -> In r' hs -> rank hs r = rank hs r' -> r = r'.
Proof.
  intros Hr Hr' Heq.
  destruct (Nat.lt_trichotomy r r') as [H | [H | H]]; [| assumption |].
  - pose proof (rank_mono hs r r' Hr H). lia.
  - pose proof (rank_mono hs r' r Hr' H). lia.
Qed.

(** Two nodes get the same component label exactly when the edges link
    them. *)
Lemma components_same_label n edges i j :
  Forall (in_range n) edges -> i < n -> j < n ->
  (nth i (snd (connected_components n edges)) 0
   = nth j (snd (connected_components n edges)) 0
   <-> connected edges i j).
Proof.
  intros Hr Hi Hj.
  destruct (merged_roots n edges Hr) as [Hlen Hle Hidem Hsound Hcompl].
  unfold connected_components. simpl.
  set (root := component_roots n edges) in *.
  rewrite (nth_map_lt _ _ _ 0) by lia.
  rewrite (nth_map_lt _ _ _ 0) by lia.
  assert (Hhead : forall k, k < n -> In (nth k root 0) (heads n root)).
  { intros k Hk. apply heads_spec. split.
    - specialize (Hle k Hk). lia.
    - now apply Hidem. }
  split.
  - intros Heq. apply Hcompl; try assumption.
    apply (rank_inj (heads n root)); auto.
  - intros Hc. now rewrite (Hsound i j Hc).
Qed.

End ComponentLabels.

Section AdjacencyEdges.

Local Open Scope nat_scope.

Lemma fill_adjacency_Forall (P : nat * nat -> Prop) ids :
  forall flags adj k,
    Forall P adj ->
    (forall p, nth p flags false = true -> P (edge_at ids (k + p))) ->
    Forall P (fill_adjacency_1d adj k flags ids).
Proof.
  induction flags as [| b rest IH]; intros adj k Hadj Hflags; simpl; [assumption |].
  apply IH.
  - destruct b; [| assumption].
    specialize (Hflags 0 eq_refl). rewrite Nat.add_0_r in Hflags.
    unfold edge_at in Hflags.
    destruct ids; apply Forall_app; split; try assumption;
      (constructor; [exact Hflags | constructor]).
  - intros p Hp. replace (S k + p) with (k + S p) by lia. now apply Hflags.
Qed.

Lemma fill_adjacency_incl ids :
  forall flags adj k, incl adj (fill_adjacency_1d adj k flags ids).
Proof.
  induction flags as [| b rest IH]; intros adj k; simpl; [apply incl_refl |].
  eapply incl_tran; [| apply IH].
  destruct b; [| apply incl_refl].
  destruct ids; apply incl_appl, incl_refl.
Qed.

Lemma fill_adjacency_complete ids :
  forall flags adj k p,
    nth p flags false = true ->
    In (edge_at ids (k + p)) (fill_adjacency_1d adj k flags ids).
Proof.
  induction flags as [| b rest IH]; intros adj k p Hp; simpl.
  - destruct p; discriminate.
  - destruct p as [| p]; simpl in Hp.
    + subst b. rewrite Nat.add_0_r.
      apply (fill_adjacency_incl ids rest). unfold edge_at.
      destruct ids; apply in_or_app; right; now left.
    + replace (k + S p) with (S k + p) by lia. now apply IH.
Qed.

Lemma diff_stay_nth (d : Z * Z) :
  forall l p, S p < length l ->
              nth p (diff_stay l) false = stay (nth p l d) (nth (S p) l d).
Proof.
  induction l as [| x [| y t] IH]; intros p Hp; simpl in Hp; try lia.
  destruct p as [| p].
  - reflexivity.
  - change (diff_stay (x :: y :: t)) with (stay x y :: diff_stay (y :: t)).
    change (nth (S p) (stay x y :: diff_stay (y :: t)) false)
      with (nth p (diff_stay (y :: t)) false).
    rewrite IH by (simpl; lia). reflexivity.
Qed.

Lemma transition_nth (d : Z * Z) l p :
  nth p (get_1d_foci_transition l) false = true ->
  S p < length l /\ stay (nth p l d) (nth (S p) l d) = true.
Proof.
  intros H. pose proof (transition_true l p H) as Hp.
  split; [assumption |].
  unfold get_1d_foci_transition in H.
  rewrite <- (diff_stay_nth d l p Hp).
  rewrite app_nth1 in H; [assumption |].
  rewrite diff_stay_length. lia.
Qed.

Lemma transition_nth_true (d : Z * Z) l p :
  S p < length l -> stay (nth p l d) (nth (S p) l d) = true ->
  nth p (get_1d_foci_transition l) false = true.
Proof.
  intros Hp H. unfold get_1d_foci_transition.
  rewrite app_nth1 by (rewrite diff_stay_length; lia).
  now rewrite (diff_stay_nth d l p Hp).
Qed.

Lemma combine_seq_nth {A : Type} (d : A) :
  forall (cs : list A) s c i,
    In (c, i) (combine cs (seq s (length cs))) -> s <= i /\ nth (i - s) cs d = c.
Proof.
  induction cs as [| x t IH]; intros s c i H; simpl in H; [contradiction |].
  destruct H as [H | H].
  - inversion H; subst. rewrite Nat.sub_diag. split; [lia | reflexivity].
  - apply IH in H. destruct H as [Hle Hn]. split; [lia |].
    replace (i - s) with (S (i - S s)) by lia. exact Hn.
Qed.

(** An entry of [trans_ids] holds the transposed coordinates of the
    candidate its data names. *)
Lemma trans_ids_coord cs e :
  In e (trans_ids cs) ->
  coord e = (snd (nth (data e) cs (0%Z, 0%Z)), fst (nth (data e) cs (0%Z, 0%Z))).
Proof.
  unfold trans_ids, transpose_entries. intros H.
  apply tocsr_tocoo_In in H. apply in_map_iff in H.
  destruct H as ([c i] & <- & Hin). unfold ori_ids in Hin.
  apply (combine_seq_nth (0%Z, 0%Z)) in Hin. destruct Hin as [_ Hn].
  rewrite Nat.sub_0_r in Hn. unfold coord, data. simpl. now rewrite Hn.
Qed.

Lemma stay_adjacent8 p q : stay p q = true -> adjacent8 p q.
Proof.
  unfold stay, adjacent8. rewrite andb_true_iff, !Z.ltb_lt. lia.
Qed.

Lemma stay_swap p q :
  stay (snd p, fst p) (snd q, fst q) = stay p q.
Proof. unfold stay. simpl. apply andb_comm. Qed.

(** Every edge of the adjacency joins two candidates that are 8-way
    adjacent. *)
Lemma adjacency_adjacent8 cs :
  Forall (fun e => adjacent8 (nth (fst e) cs (0%Z, 0%Z)) (nth (snd e) cs (0%Z, 0%Z)))
         (adjacency cs).
Proof.
  unfold adjacency. cbv zeta.
  apply fill_adjacency_Forall.
  - apply fill_adjacency_Forall; [constructor |].
    intros p Hp. apply (transition_nth (0%Z, 0%Z)) in Hp.
    destruct Hp as [_ Hs]. simpl. now apply stay_adjacent8.
  - intros p Hp. apply (transition_nth (0%Z, 0%Z)) in Hp.
    destruct Hp as [Hlt Hs]. rewrite length_map in Hlt.
    simpl.
    rewrite !(nth_map_lt data _ 0 (0%Z, 0%Z, 0)) by lia.
    rewrite !(nth_map_lt coord _ (0%Z, 0%Z) (0%Z, 0%Z, 0)) in Hs by lia.
    assert (H1 : In (nth p (trans_ids cs) (0%Z, 0%Z, 0)) (trans_ids cs))
      by (apply nth_In; lia).
    assert (H2 : In (nth (S p) (trans_ids cs) (0%Z, 0%Z, 0)) (trans_ids cs))
      by (apply nth_In; lia).
    rewrite (trans_ids_coord cs _ H1), (trans_ids_coord cs _ H2) in Hs.
    rewrite stay_swap in Hs. now apply stay_adjacent8.
Qed.

End AdjacencyEdges.

Section Chains.

Import Csgraph.
Local Open Scope nat_scope.

Lemma adjacent8_sym p q : adjacent8 p q -> adjacent8 q p.
Proof. unfold adjacent8. lia. Qed.

Lemma chain_trans cs p q r : chain cs p q -> chain cs q r -> chain cs p r.
Proof.
  induction 1 as [p Hp | p q' r' Hp Hq Ha Hc IH]; intros H2; [assumption |].
  apply chain_step with (q := q'); auto.
Qed.

Lemma chain_sym cs p q : chain cs p q -> chain cs q p.
Proof.
  induction 1 as [p Hp | p q' r' Hp Hq Ha Hc IH].
  - now apply chain_refl.
  - apply (chain_trans cs r' q' p IH).
    apply chain_step with (q := p); auto using adjacent8_sym.
    now apply chain_refl.
Qed.

(** Nodes linked by edges that join 8-way adjacent candidates are candidates
    linked by a chain. *)
Lemma edges_chain cs (E : list (nat * nat)) i j :
  Forall (in_range (length cs)) E ->
  Forall (fun e => adjacent8 (nth (fst e) cs (0%Z, 0%Z)) (nth (snd e) cs (0%Z, 0%Z))) E ->
  connected E i j ->
  i < length cs \/ j < length cs ->
  i < length cs /\ j < length cs
  /\ chain cs (nth i cs (0%Z, 0%Z)) (nth j cs (0%Z, 0%Z)).
Proof.
  intros Hr Ha. rewrite Forall_forall in Hr, Ha.
  induction 1 as [i | a b Hin | i j Hc IH | i j k Hc1 IH1 Hc2 IH2]; intros Hlt.
  - assert (Hi : i < length cs) by tauto.
    repeat split; try assumption. apply chain_refl. now apply nth_In.
  - destruct (Hr _ Hin) as [Hra Hrb]. simpl in Hra, Hrb.
    repeat split; try assumption.
    apply chain_step with (q := nth b cs (0%Z, 0%Z)).
    + now apply nth_In.
    + now apply nth_In.
    + exact (Ha _ Hin).
    + apply chain_refl. now apply nth_In.
  - destruct IH as (Hi & Hj & Hch); [tauto |].
    repeat split; try assumption. now apply chain_sym.
  - destruct Hlt as [Hi | Hk].
    + destruct IH1 as (_ & Hj & Hch1); [tauto |].
      destruct IH2 as (_ & Hk & Hch2); [tauto |].
      repeat split; try assumption. eapply chain_trans; eassumption.
    + destruct IH2 as (Hj & _ & Hch2); [tauto |].
      destruct IH1 as (Hi & _ & Hch1); [tauto |].
      repeat split; try assumption. eapply chain_trans; eassumption.
Qed.

(** Nodes linked by edges of the adjacency are candidates linked by a chain
    of 8-way adjacent candidates. *)
Lemma connected_chain cs i j :
  connected (adjacency cs) i j ->
  i < length cs \/ j < length cs ->
  i < length cs /\ j < length cs
  /\ chain cs (nth i cs (0%Z, 0%Z)) (nth j cs (0%Z, 0%Z)).
Proof.
  apply edges_chain; [apply adjacency_in_range | apply adjacency_adjacent8].
Qed.

End Chains.

Section FocusFilter.

Import Csgraph.
Local Open Scope nat_scope.

(** The removal loop applies one function to every label: a label is kept
    or set to 0. *)
Lemma filter_foci_map m :
  forall ids foci,
    exists G : nat -> nat,
      fold_left (remove_small m) ids foci = map G foci
      /\ forall y, G y = 0 \/ G y = y.
Proof.
  induction ids as [| x ids IH]; intros foci; simpl.
  - exists (fun y => y). split; [now rewrite map_id | auto].
  - destruct (IH (remove_small m foci x)) as (G & HG & Hcase).
    unfold remove_small in *.
    destruct (count_label x foci <? m).
    + exists (fun y => G (if y =? x then 0 else y)). split.
      * rewrite HG. now rewrite map_map.
      * intros y. destruct (y =? x).
        -- destruct (Hcase 0) as [H | H]; rewrite H; auto.
        -- apply Hcase.
    + exists G. split; assumption.
Qed.

Lemma masked_entries_In :
  forall cs foci e,
    In e (masked_entries cs foci) ->
    exists i, i < length cs /\ i < length foci
              /\ coord e = nth i cs (0%Z, 0%Z) /\ data e = nth i foci 0
              /\ 0 < data e.
Proof.
  induction cs as [| p cs IH]; intros [| f foci] e H; simpl in H; try contradiction.
  apply in_app_or in H. destruct H as [H | H].
  - destruct (0 <? f) eqn:E; [| contradiction].
    destruct H as [<- | []]. exists 0. simpl. unfold coord, data. simpl.
    apply Nat.ltb_lt in E. destruct p. repeat split; try lia; try reflexivity.
  - destruct (IH foci e H) as (i & Hi & Hf & Hc & Hd & Hpos).
    exists (S i). simpl. repeat split; try lia; assumption.
Qed.

End FocusFilter.

Section LabelSoundness.

Import Csgraph.
Local Open Scope nat_scope.

(** A stored pixel of the labelled matrix is a candidate; its label is one
    more than the rank of its component. *)
Lemma label_entry_index {A : Type} (matrix : coo A) (min_focus_size : nat) e :
  In e (entries (snd (label_connected_pixels_sparse matrix min_focus_size))) ->
  exists i, i < length (coords matrix)
            /\ coord e = nth i (coords matrix) (0%Z, 0%Z)
            /\ data e = S (nth i (snd (connected_components (length (coords matrix))
                                                            (adjacency (coords matrix)))) 0).
Proof.
  rewrite label_entries. cbv zeta. intros H.
  apply masked_entries_In in H. destruct H as (i & Hi & Hf & Hc & Hd & Hpos).
  exists i. split; [assumption |]. split; [assumption |].
  unfold filter_foci in *.
  destruct (filter_foci_map min_focus_size
              (seq 1 (fst (connected_components (length (coords matrix))
                                                (adjacency (coords matrix)))))
              (map S (snd (connected_components (length (coords matrix))
                                                (adjacency (coords matrix))))))
    as (G & HG & Hcase).
  rewrite HG in Hd, Hf. rewrite !length_map in Hf.
  rewrite (nth_map_lt G _ 0 0) in Hd by (rewrite length_map; lia).
  rewrite (nth_map_lt S _ 0 0) in Hd by lia.
  destruct (Hcase (S (nth i (snd (connected_components (length (coords matrix))
                                                       (adjacency (coords matrix)))) 0)))
    as [H0 | Hsame]; lia.
Qed.

End LabelSoundness.

(** X1: in the matrix returned by [label_connected_pixels_sparse], two
    stored pixels carrying the same label are linked by a chain of 8-way
    adjacent candidate pixels of the input. *)
Theorem same_label_chain (A : Type) (matrix : coo A) (min_focus_size : nat)
        (e1 e2 : Z * Z * nat) :
  distinct_coords (coords matrix) = true ->
  let labelled_mat := snd (label_connected_pixels_sparse matrix min_focus_size) in
  In e1 (entries labelled_mat) -> In e2 (entries labelled_mat) ->
  data e1 = data e2 ->
  chain (coords matrix) (coord e1) (coord e2).
Proof.
  intros _ labelled_mat H1 H2 Heq.
  apply label_entry_index in H1. destruct H1 as (i & Hi & Hc1 & Hd1).
  apply label_entry_index in H2. destruct H2 as (j & Hj & Hc2 & Hd2).
  rewrite Hc1, Hc2.
  apply connected_chain; [| now left].
  apply (components_same_label (length (coords matrix))); try assumption.
  - apply adjacency_in_range.
  - lia.
Qed.

Lemma same_label_chain_witness :
  distinct_coords (coords example_M) = true
  /\ chain (coords example_M) (1, 2) (2, 3).
Proof.
  split; [reflexivity |].
  apply (same_label_chain nat example_M 2 (1, 2, 2%nat) (2, 3, 2%nat));
    [reflexivity | vm_compute; tauto | vm_compute; tauto | reflexivity].
Defined.

Section FocusSizes.

Import Csgraph.
Local Open Scope nat_scope.

Lemma sublist_nil {A : Type} (l : list A) : sublist [] l.
Proof. induction l; constructor; assumption. Qed.

Lemma masked_entries_sublist :
  forall cs foci, sublist (map coord (masked_entries cs foci)) cs.
Proof.
  induction cs as [| p cs IH]; intros [| f foci]; simpl; try apply sublist_nil.
  rewrite map_app. destruct (0 <? f); simpl.
  - unfold coord at 1. simpl. destruct p. simpl. apply sub_keep, IH.
  - apply sub_skip, IH.
Qed.

Lemma masked_entries_data :
  forall cs foci, length foci = length cs ->
                  map data (masked_entries cs foci) = filter (fun f => 0 <? f) foci.
Proof.
  induction cs as [| p cs IH]; intros [| f foci] H; simpl in *; try discriminate;
    try reflexivity.
  rewrite map_app, IH by lia. destruct (0 <? f); reflexivity.
Qed.

Lemma count_label_positive x l :
  0 < x -> count_label x (filter (fun f => 0 <? f) l) = count_label x l.
Proof.
  intros Hx. unfold count_label. induction l as [| y t IH]; simpl; [reflexivity |].
  destruct (Nat.ltb_spec 0 y) as [Hy | Hy]; simpl.
  - destruct (y =? x); simpl; now rewrite IH.
  - destruct (Nat.eqb_spec y x) as [-> | Hne]; [lia | assumption].
Qed.

Lemma count_label_zeroed x y l :
  0 < x ->
  count_label x (map (fun z => if z =? y then 0 else z) l)
  = if x =? y then 0 else count_label x l.
Proof.
  intros Hx. unfold count_label. induction l as [| z t IH]; simpl.
  - now destruct (x =? y).
  - destruct (Nat.eqb_spec z y) as [Hzy | Hzy];
      destruct (Nat.eqb_spec x y) as [Hxy | Hxy];
      destruct (Nat.eqb_spec z x) as [Hzx | Hzx];
      destruct (Nat.eqb_spec 0 x) as [H0 | H0];
      subst; simpl; try lia; try (rewrite Nat.eqb_refl in IH); try contradiction;
      try (destruct (Nat.eqb_spec x y); [contradiction |]);
      rewrite ?IH; try reflexivity; try lia.
Qed.

Lemma remove_small_settles m x foci :
  0 < x -> settled m x (remove_small m foci x).
Proof.
  intros Hx. unfold settled, remove_small.
  destruct (Nat.ltb_spec (count_label x foci) m) as [Hlt | Hge].
  - left. rewrite count_label_zeroed by assumption. now rewrite Nat.eqb_refl.
  - now right.
Qed.

Lemma remove_small_keeps_settled m x y foci :
  0 < x -> settled m x foci -> settled m x (remove_small m foci y).
Proof.
  intros Hx H. destruct (Nat.eq_dec x y) as [-> | Hne].
  - now apply remove_small_settles.
  - unfold settled, remove_small in *.
    destruct (count_label y foci <? m); [| assumption].
    rewrite count_label_zeroed by assumption.
    destruct (Nat.eqb_spec x y); [contradiction | assumption].
Qed.

Lemma fold_remove_small_keeps m x :
  forall ids foci, 0 < x -> settled m x foci ->
                   settled m x (fold_left (remove_small m) ids foci).
Proof.
  induction ids as [| y ids IH]; intros foci Hx H; simpl; [assumption |].
  apply IH; [assumption |]. now apply remove_small_keeps_settled.
Qed.

Lemma fold_remove_small_settles m x :
  forall ids foci, 0 < x -> In x ids ->
                   settled m x (fold_left (remove_small m) ids foci).
Proof.
  induction ids as [| y ids IH]; intros foci Hx Hin; simpl; [contradiction |].
  destruct Hin as [-> | Hin].
  - apply fold_remove_small_keeps; [assumption |]. now apply remove_small_settles.
  - now apply IH.
Qed.

Lemma filter_foci_length m num foci :
  length (filter_foci m num foci) = length foci.
Proof.
  unfold filter_foci.
  destruct (filter_foci_map m (seq 1 num) foci) as (G & -> & _).
  apply length_map.
Qed.

Lemma count_label_In x l : In x l -> 0 < count_label x l.
Proof.
  unfold count_label. induction l as [| y t IH]; simpl; [contradiction |].
  intros [-> | H].
  - rewrite Nat.eqb_refl. simpl. lia.
  - specialize (IH H). destruct (y =? x); simpl; lia.
Qed.

(** With a minimum size of at most one pixel the loop removes nothing. *)
Lemma fold_remove_small_id m :
  m <= 1 ->
  forall ids foci, fold_left (remove_small m) ids foci = foci.
Proof.
  intros Hm. induction ids as [| y ids IH]; intros foci; simpl; [reflexivity |].
  assert (Hstep : remove_small m foci y = foci).
  { unfold remove_small.
    destruct (Nat.ltb_spec (count_label y foci) m) as [Hlt | Hge]; [| reflexivity].
    assert (Hnot : ~ In y foci).
    { intros Hin. apply count_label_In in Hin. lia. }
    rewrite <- (map_id foci) at 2. apply map_ext_in.
    intros z Hz. destruct (Nat.eqb_spec z y) as [-> | _]; [contradiction | reflexivity]. }
  rewrite Hstep. apply IH.
Qed.

Lemma masked_entries_positive :
  forall cs foci, length foci = length cs ->
                  Forall (fun f => 0 < f) foci ->
                  map coord (masked_entries cs foci) = cs.
Proof.
  induction cs as [| p cs IH]; intros [| f foci] Hlen Hpos; simpl in *;
    try discriminate; try reflexivity.
  inversion Hpos as [| ? ? Hf Hrest]; subst.
  apply Nat.ltb_lt in Hf. rewrite Hf. simpl. f_equal.
  - unfold coord. simpl. now destruct p.
  - apply IH; [lia | assumption].
Qed.

End FocusSizes.

(** X2: every label left in the matrix returned by
    [label_connected_pixels_sparse] is carried by at least [min_focus_size]
    stored pixels. *)
Theorem kept_foci_min_size (A : Type) (matrix : coo A) (min_focus_size : nat)
        (e : Z * Z * nat) :
  distinct_coords (coords matrix) = true ->
  let labelled_mat := snd (label_connected_pixels_sparse matrix min_focus_size) in
  In e (entries labelled_mat) ->
  (min_focus_size <= count_label (data e) (map data (entries labelled_mat)))%nat.
Proof.
  intros _ labelled_mat Hin.
  pose proof (label_data_bound matrix min_focus_size) as Hb. cbv zeta in Hb.
  rewrite Forall_forall in Hb. specialize (Hb e Hin).
  assert (Hcount : (0 < count_label (data e) (map data (entries labelled_mat)))%nat).
  { apply count_label_In. now apply in_map. }
  unfold labelled_mat in *. rewrite label_entries in *. cbv zeta in *.
  rewrite label_count in Hb.
  set (cc := Csgraph.connected_components (length (coords matrix))
                                          (adjacency (coords matrix))) in *.
  rewrite masked_entries_data in *
    by (rewrite filter_foci_length, length_map; apply connected_components_length).
  rewrite count_label_positive in * by lia.
  destruct (fold_remove_small_settles min_focus_size (data e) (seq 1 (fst cc))
              (map S (snd cc))) as [H0 | Hge].
  - lia.
  - apply in_seq. lia.
  - unfold filter_foci in Hcount. lia.
  - exact Hge.
Qed.

Lemma kept_foci_min_size_witness :
  distinct_coords (coords two_foci_pixels) = true
  /\ (2 <= count_label 1
             (map data (entries (snd (label_connected_pixels_sparse two_foci_pixels 2)))))%nat.
Proof.
  split; [reflexivity |].
  apply (kept_foci_min_size nat two_foci_pixels 2 (1, 1, 1%nat));
    [reflexivity | vm_compute; tauto].
Defined.

(** X3: the labelled matrix has the shape of the input, its stored pixels
    are pixels of the input in the same order, its labels lie in
    [1 .. num_foci]; with a minimum focus size of at most 1, no pixel is
    left out. *)
Theorem labelled_matrix_pixels (A : Type) (matrix : coo A) (min_focus_size : nat) :
  distinct_coords (coords matrix) = true ->
  let r := label_connected_pixels_sparse matrix min_focus_size in
  shape (snd r) = shape matrix
  /\ sublist (coords (snd r)) (coords matrix)
  /\ Forall (fun e => (1 <= data e <= fst r)%nat) (entries (snd r))
  /\ ((min_focus_size <= 1)%nat -> coords (snd r) = coords matrix).
Proof.
  intros _ r. split; [| split; [| split]].
  - unfold r, label_connected_pixels_sparse. cbv zeta.
    destruct (Csgraph.connected_components _ _). reflexivity.
  - unfold r, coords at 1. rewrite label_entries. cbv zeta.
    apply masked_entries_sublist.
  - apply label_data_bound.
  - intros Hm. unfold r, coords at 1. rewrite label_entries. cbv zeta.
    unfold filter_foci. rewrite fold_remove_small_id by assumption.
    apply masked_entries_positive.
    + rewrite length_map. apply connected_components_length.
    + apply Forall_map, Forall_forall. intros x _. lia.
Qed.

Lemma labelled_matrix_pixels_witness :
  distinct_coords (coords two_foci_pixels) = true
  /\ sublist (coords (snd (label_connected_pixels_sparse two_foci_pixels 2)))
             (coords two_foci_pixels).
Proof.
  split; [reflexivity |].
  apply (labelled_matrix_pixels nat two_foci_pixels 2). reflexivity.
Defined.

(* --------------------------------------------------------------------- *)
(** ** Focus count and 8-way connected components *)
(* --------------------------------------------------------------------- *)

Section EightWay.

Import Csgraph.
Local Open Scope nat_scope.

Lemma adjacent8b_spec p q : adjacent8b p q = true <-> adjacent8 p q.
Proof.
  unfold adjacent8b, adjacent8. now rewrite andb_true_iff, !Z.leb_le.
Qed.

Lemma edges8_In cs a b :
  In (a, b) (edges8 cs) <->
  a < length cs /\ b < length cs
  /\ adjacent8 (nth a cs (0%Z, 0%Z)) (nth b cs (0%Z, 0%Z)).
Proof.
  unfold edges8. rewrite filter_In, in_prod_iff, !in_seq, adjacent8b_spec. simpl.
  intuition lia.
Qed.

Lemma edges8_in_range cs : Forall (in_range (length cs)) (edges8 cs).
Proof.
  apply Forall_forall. intros [a b] H. apply edges8_In in H.
  unfold in_range. simpl. tauto.
Qed.

Lemma chain_edges8 cs p q :
  chain cs p q ->
  forall i j, i < length cs -> j < length cs ->
              nth i cs (0%Z, 0%Z) = p -> nth j cs (0%Z, 0%Z) = q ->
              connected (edges8 cs) i j.
Proof.
  induction 1 as [p Hp | p q' r Hp Hq Ha Hc IH]; intros i j Hi Hj Hpi Hqj.
  - apply conn_edge. apply edges8_In. split; [assumption | split; [assumption |]].
    rewrite Hpi, Hqj. unfold adjacent8. lia.
  - apply (In_nth _ _ (0%Z, 0%Z)) in Hq. destruct Hq as (k & Hk & Hqk).
    apply conn_trans with (j := k).
    + apply conn_edge. apply edges8_In. split; [assumption | split; [assumption |]].
      now rewrite Hpi, Hqk.
    + now apply IH.
Qed.

(** The classes counted by [components8] are the classes of the chains of
    8-way adjacent candidates. *)
Lemma edges8_chain cs i j :
  i < length cs -> j < length cs ->
  (connected (edges8 cs) i j
   <-> chain cs (nth i cs (0%Z, 0%Z)) (nth j cs (0%Z, 0%Z))).
Proof.
  intros Hi Hj. split.
  - intros Hc.
    apply (edges_chain cs (edges8 cs)); try assumption; [| | now left].
    + apply edges8_in_range.
    + apply Forall_forall. intros [a b] H. apply edges8_In in H. simpl. tauto.
  - intros Hc. now apply (chain_edges8 cs _ _ Hc).
Qed.

Lemma components8_representatives cs :
  exists reps,
    representatives (length cs) (edges8 cs) reps /\ length reps = components8 cs.
Proof.
  exists (heads (length cs) (component_roots (length cs) (edges8 cs))).
  split; [| reflexivity].
  apply heads_representatives, edges8_in_range.
Qed.

Lemma adjacency_incl_edges8 cs : incl (adjacency cs) (edges8 cs).
Proof.
  intros [a b] H.
  pose proof (adjacency_in_range cs) as Hr.
  pose proof (adjacency_adjacent8 cs) as Ha.
  rewrite Forall_forall in Hr, Ha.
  apply edges8_In. destruct (Hr _ H) as [H1 H2]. simpl in H1, H2.
  split; [assumption | split; [assumption |]]. exact (Ha _ H).
Qed.

Lemma NoDup_map_on {A B : Type} (f : A -> B) (l : list A) :
  NoDup l -> (forall x y, In x l -> In y l -> f x = f y -> x = y) -> NoDup (map f l).
Proof.
  induction 1 as [| x l Hx Hnd IH]; intros Hinj; simpl; constructor.
  - intros Hin. apply in_map_iff in Hin. destruct Hin as (y & Hy & Hyl).
    assert (y = x) by (apply Hinj; [now right | now left | assumption]).
    subst. contradiction.
  - apply IH. intros a b Ha Hb. apply Hinj; now right.
Qed.

(** Every link of the labeler joins 8-way adjacent candidates, so its
    classes are at least as many as the 8-way components. *)
Lemma components8_le_count cs :
  components8 cs <= fst (connected_components (length cs) (adjacency cs)).
Proof.
  unfold components8, connected_components. simpl.
  set (n := length cs).
  set (root := component_roots n (adjacency cs)).
  set (root8 := component_roots n (edges8 cs)).
  destruct (merged_roots n (adjacency cs) (adjacency_in_range cs))
    as [Hlen Hle Hidem Hsound Hcompl].
  pose proof (heads_representatives n (edges8 cs) (edges8_in_range cs))
    as (Hnd8 & Hlt8 & _ & Huniq8).
  fold root in Hlen, Hle, Hidem, Hsound, Hcompl. fold root8 in Hnd8, Hlt8, Huniq8.
  rewrite <- (length_map (fun h => nth h root 0) (heads n root8)).
  apply NoDup_incl_length.
  - apply NoDup_map_on; [assumption |].
    intros x y Hx Hy Heq. apply Huniq8; try assumption.
    apply (connected_mono (adjacency cs)); [apply adjacency_incl_edges8 |].
    apply Hcompl; auto.
  - intros r Hr. apply in_map_iff in Hr. destruct Hr as (h & <- & Hh).
    apply heads_spec. specialize (Hlt8 h Hh). split.
    + specialize (Hle h Hlt8). lia.
    + now apply Hidem.
Qed.

End EightWay.

Lemma components8_le_label_count {A : Type} (matrix : coo A) (min_focus_size : nat) :
  (components8 (coords matrix)
   <= fst (label_connected_pixels_sparse matrix min_focus_size))%nat.
Proof. rewrite label_count. apply components8_le_count. Qed.

(** C10: on four candidates of which [(0, 1)] and [(1, 0)] touch by a
    corner, the labeler counts four foci, whatever the minimum size, where
    the candidates form three 8-way connected components; the two adjacent
    candidates are given different labels. *)
Theorem label_count_splits_adjacent_pixels :
  distinct_coords (coords split_diagonal) = true
  /\ (forall min_focus_size,
         fst (label_connected_pixels_sparse split_diagonal min_focus_size) = 4%nat)
  /\ components8 (coords split_diagonal) = 3%nat
  /\ chain (coords split_diagonal) (0, 1) (1, 0)
  /\ cell (snd (label_connected_pixels_sparse split_diagonal 1)) 0 1
     <> cell (snd (label_connected_pixels_sparse split_diagonal 1)) 1 0.
Proof.
  split; [reflexivity |]. split; [| split; [| split]].
  - intros min_focus_size. rewrite label_count. reflexivity.
  - reflexivity.
  - apply chain_step with (q := (1, 0)); simpl; try tauto.
    + unfold adjacent8. simpl. lia.
    + apply chain_refl. simpl. tauto.
  - vm_compute. discriminate.
Qed.

(* --------------------------------------------------------------------- *)
(** ** Candidates next to each other *)
(* --------------------------------------------------------------------- *)

Section SortedPixels.

Local Open Scope nat_scope.

Lemma lex_leb_spec p q :
  lex_leb p q = true <-> (fst p < fst q \/ (fst p = fst q /\ snd p <= snd q))%Z.
Proof.
  unfold lex_leb. rewrite orb_true_iff, andb_true_iff, Z.ltb_lt, Z.eqb_eq, Z.leb_le.
  tauto.
Qed.

Lemma lex_leb_false p q :
  lex_leb p q = false -> lex_leb q p = true.
Proof.
  intros H. apply lex_leb_spec.
  destruct (lex_leb q p) eqn:E; [now apply lex_leb_spec in E |].
  assert (H1 : ~ (fst p < fst q \/ (fst p = fst q /\ snd p <= snd q))%Z).
  { intros Hc. apply lex_leb_spec in Hc. congruence. }
  lia.
Qed.

Lemma distinct_coords_NoDup cs : distinct_coords cs = true -> NoDup cs.
Proof.
  induction cs as [| p cs IH]; simpl; intros H; constructor.
  - apply andb_true_iff in H. destruct H as [H _].
    apply negb_true_iff in H. intros Hin.
    assert (Hex : existsb (coord_eqb p) cs = true).
    { apply existsb_exists. exists p. split; [assumption |].
      unfold coord_eqb. now rewrite !Z.eqb_refl. }
    congruence.
  - apply IH. apply andb_true_iff in H. tauto.
Qed.

Lemma insert_entry_perm {A : Type} (x : Z * Z * A) l :
  Permutation (x :: l) (insert_entry x l).
Proof.
  induction l as [| y t IH]; simpl; [apply Permutation_refl |].
  destruct (lex_leb (coord x) (coord y)); [apply Permutation_refl |].
  eapply Permutation_trans; [apply perm_swap |]. now apply perm_skip.
Qed.

Lemma tocsr_tocoo_perm {A : Type} (l : list (Z * Z * A)) :
  Permutation l (tocsr_tocoo l).
Proof.
  induction l as [| x t IH]; simpl; [constructor |].
  eapply Permutation_trans; [| apply insert_entry_perm]. now apply perm_skip.
Qed.

Lemma insert_entry_sorted {A : Type} (x : Z * Z * A) l :
  StronglySorted (fun a b => lex_leb (coord a) (coord b) = true) l ->
  StronglySorted (fun a b => lex_leb (coord a) (coord b) = true) (insert_entry x l).
Proof.
  induction 1 as [| y t Ht IH Hy]; simpl.
  - constructor; constructor.
  - destruct (lex_leb (coord x) (coord y)) eqn:E.
    + constructor; [now constructor |].
      constructor; [assumption |].
      eapply Forall_impl; [| exact Hy]. intros a Ha. cbv beta in *.
      apply lex_leb_spec in E, Ha. apply lex_leb_spec. lia.
    + constructor; [assumption |].
      apply lex_leb_false in E.
      rewrite Forall_forall in *. intros a Ha.
      apply (Permutation_in _ (Permutation_sym (insert_entry_perm x t))) in Ha.
      destruct Ha as [<- | Ha]; auto.
Qed.

Lemma tocsr_tocoo_sorted {A : Type} (l : list (Z * Z * A)) :
  StronglySorted (fun a b => lex_leb (coord a) (coord b) = true) (tocsr_tocoo l).
Proof.
  induction l as [| x t IH]; simpl; [constructor |]. now apply insert_entry_sorted.
Qed.

Lemma sorted_map_coord {A : Type} (l : list (Z * Z * A)) :
  StronglySorted (fun a b => lex_leb (coord a) (coord b) = true) l ->
  row_major (map coord l).
Proof.
  unfold row_major. induction 1 as [| y t Ht IH Hy]; simpl; constructor.
  - assumption.
  - now apply Forall_map.
Qed.

(** In pixels stored row by row without repetition, a pixel and its right
    neighbour are stored one after the other. *)
Lemma row_major_consecutive (d : Z * Z) :
  forall cs r c,
    row_major cs -> NoDup cs ->
    In (r, c) cs -> In (r, (c + 1)%Z) cs ->
    exists k, S k < length cs /\ nth k cs d = (r, c) /\ nth (S k) cs d = (r, (c + 1)%Z).
Proof.
  unfold row_major.
  induction cs as [| a t IH]; intros r c Hs Hnd Hp Hq; [contradiction |].
  inversion Hs as [| ? ? Hst Hall]; subst.
  inversion Hnd as [| ? ? Hnotin Hndt]; subst.
  rewrite Forall_forall in Hall.
  destruct Hp as [-> | Hp].
  - destruct Hq as [Hq | Hq]; [inversion Hq; lia |].
    destruct t as [| b t']; [contradiction |].
    exists 0. simpl. split; [lia |]. split; [reflexivity |].
    assert (Hab : lex_leb (r, c) b = true) by (apply Hall; now left).
    assert (Hbq : b = (r, (c + 1)%Z) \/ lex_leb b (r, (c + 1)%Z) = true).
    { destruct Hq as [-> | Hq]; [now left |]. right.
      inversion Hst as [| ? ? _ Hall']; subst.
      rewrite Forall_forall in Hall'. now apply Hall'. }
    destruct Hbq as [-> | Hbq]; [reflexivity |].
    apply lex_leb_spec in Hab, Hbq. simpl in Hab, Hbq.
    destruct b as [br bc]. simpl in *.
    assert (Hne : (br, bc) <> (r, c)).
    { intros He. apply Hnotin. rewrite <- He. now left. }
    assert (br = r) by lia. subst br.
    assert (bc <> c) by congruence.
    f_equal. lia.
  - destruct Hq as [-> | Hq].
    + exfalso. specialize (Hall _ Hp). apply lex_leb_spec in Hall. simpl in Hall. lia.
    + destruct (IH r c Hst Hndt Hp Hq) as (k & Hk & H1 & H2).
      exists (S k). simpl. split; [lia |]. split; assumption.
Qed.

End SortedPixels.

Section NeighbourCells.

Import Csgraph.
Local Open Scope nat_scope.

Lemma coord_eqb_eq p q : coord_eqb p q = true <-> p = q.
Proof.
  unfold coord_eqb. rewrite andb_true_iff, !Z.eqb_eq.
  destruct p, q; simpl. split; [intros [-> ->]; reflexivity | intros H; inversion H; auto].
Qed.

Lemma cell_absent sh :
  forall cs foci r c,
    ~ In (r, c) cs -> cell (mk_coo sh (masked_entries cs foci)) r c = 0.
Proof.
  unfold cell. simpl.
  induction cs as [| p cs IH]; intros [| f foci] r c Hnot; simpl; try reflexivity.
  rewrite fold_right_app.
  assert (Hrest : fold_right
                    (fun e acc => if coord_eqb (coord e) (r, c) then data e + acc else acc)
                    0 (masked_entries cs foci) = 0).
  { apply IH. intros H. apply Hnot. now right. }
  rewrite Hrest.
  destruct (0 <? f); simpl; [| reflexivity].
  unfold coord, data. simpl.
  destruct (coord_eqb (fst p, snd p) (r, c)) eqn:E; [| reflexivity].
  apply coord_eqb_eq in E. exfalso. apply Hnot. left. destruct p. exact E.
Qed.

(** The cell of the labelled matrix at a candidate pixel holds the label
    the loop left to this pixel. *)
Lemma cell_masked sh (d : Z * Z) :
  forall cs foci i,
    NoDup cs -> length foci = length cs -> i < length cs ->
    cell (mk_coo sh (masked_entries cs foci)) (fst (nth i cs d)) (snd (nth i cs d))
    = nth i foci 0.
Proof.
  induction cs as [| p cs IH]; intros [| f foci] i Hnd Hlen Hi; simpl in *;
    try lia; try discriminate.
  inversion Hnd as [| ? ? Hnotin Hndt]; subst.
  destruct i as [| i].
  - unfold cell. simpl. rewrite fold_right_app.
    pose proof (cell_absent sh cs foci (fst p) (snd p)) as Habs.
    unfold cell in Habs. simpl in Habs. rewrite Habs
      by (destruct p; exact Hnotin).
    destruct (Nat.ltb_spec 0 f) as [Hf | Hf]; simpl.
    + unfold coord_eqb, coord, data. simpl. rewrite !Z.eqb_refl. simpl. lia.
    + lia.
  - specialize (IH foci i Hndt ltac:(lia) ltac:(lia)).
    unfold cell in *. simpl in *. rewrite fold_right_app. rewrite IH.
    destruct (0 <? f); simpl; [| reflexivity].
    unfold coord, data. simpl.
    destruct (coord_eqb (fst p, snd p)
                        (fst (nth i cs d), snd (nth i cs d))) eqn:E; [| reflexivity].
    apply coord_eqb_eq in E.
    exfalso. apply Hnotin.
    assert (Hin : In (nth i cs d) cs) by (apply nth_In; lia).
    destruct p, (nth i cs d). simpl in E. now rewrite E.
Qed.

(** Two candidates joined by an edge of the adjacency come out of the
    labeler with the same label, or are both removed. *)
Lemma edge_same_cell {A : Type} (matrix : coo A) (min_focus_size : nat) i j :
  NoDup (coords matrix) ->
  In (i, j) (adjacency (coords matrix)) ->
  let labelled_mat := snd (label_connected_pixels_sparse matrix min_focus_size) in
  let p := nth i (coords matrix) (0%Z, 0%Z) in
  let q := nth j (coords matrix) (0%Z, 0%Z) in
  cell labelled_mat (fst p) (snd p) = cell labelled_mat (fst q) (snd q).
Proof.
  intros Hnd Hedge labelled_mat p q.
  pose proof (adjacency_in_range (coords matrix)) as Hr.
  assert (Hij : i < length (coords matrix) /\ j < length (coords matrix)).
  { rewrite Forall_forall in Hr. exact (Hr _ Hedge). }
  destruct Hij as [Hi Hj].
  assert (Hlab : nth i (snd (connected_components (length (coords matrix))
                                                  (adjacency (coords matrix)))) 0
                 = nth j (snd (connected_components (length (coords matrix))
                                                    (adjacency (coords matrix)))) 0).
  { apply components_same_label; try assumption. now apply conn_edge. }
  unfold labelled_mat, p, q.
  assert (Hm : snd (label_connected_pixels_sparse matrix min_focus_size)
               = mk_coo (shape matrix)
                        (entries (snd (label_connected_pixels_sparse matrix
                                                                     min_focus_size)))).
  { unfold label_connected_pixels_sparse. cbv zeta.
    destruct (connected_components _ _). reflexivity. }
  rewrite Hm, label_entries. cbv zeta.
  set (cc := connected_components (length (coords matrix))
                                  (adjacency (coords matrix))) in *.
  assert (Hlen : length (filter_foci min_focus_size (fst cc) (map S (snd cc)))
                 = length (coords matrix)).
  { rewrite filter_foci_length, length_map. apply connected_components_length. }
  rewrite !cell_masked by assumption.
  unfold filter_foci.
  destruct (filter_foci_map min_focus_size (seq 1 (fst cc)) (map S (snd cc)))
    as (G & -> & _).
  assert (Hl : length (snd cc) = length (coords matrix))
    by apply connected_components_length.
  rewrite !(nth_map_lt G _ 0 0) by (rewrite length_map; lia).
  rewrite !(nth_map_lt S _ 0 0) by lia.
  now rewrite Hlab.
Qed.

Lemma map_fst_combine_seq {A : Type} :
  forall (cs : list A) s, map fst (combine cs (seq s (length cs))) = cs.
Proof.
  induction cs as [| x t IH]; intros s; simpl; [reflexivity |]. now rewrite IH.
Qed.

Lemma trans_ids_coords cs :
  Permutation (map (fun p : Z * Z => (snd p, fst p)) cs) (map coord (trans_ids cs)).
Proof.
  unfold trans_ids. eapply Permutation_trans;
    [| apply Permutation_map, tocsr_tocoo_perm].
  unfold transpose_entries, ori_ids. rewrite map_map.
  rewrite <- (map_fst_combine_seq cs 0) at 1. rewrite map_map.
  apply Permutation_refl.
Qed.

End NeighbourCells.

Section Neighbours.

Local Open Scope nat_scope.

Lemma stay_right r c : stay (r, c) (r, (c + 1)%Z) = true.
Proof.
  unfold stay. simpl. apply andb_true_iff. rewrite !Z.ltb_lt. lia.
Qed.

(** A candidate and the candidate right of it, stored one after the other,
    are joined by an edge. *)
Lemma horizontal_edge cs r c :
  row_major cs -> NoDup cs -> In (r, c) cs -> In (r, (c + 1)%Z) cs ->
  exists i j, In (i, j) (adjacency cs)
              /\ nth i cs (0%Z, 0%Z) = (r, c) /\ nth j cs (0%Z, 0%Z) = (r, (c + 1)%Z).
Proof.
  intros Hs Hnd Hp Hq.
  destruct (row_major_consecutive (0%Z, 0%Z) cs r c Hs Hnd Hp Hq) as (k & Hk & H1 & H2).
  exists k, (S k). split; [| split; assumption].
  unfold adjacency. cbv zeta. apply fill_adjacency_incl.
  apply (fill_adjacency_complete None _ [] 0 k).
  apply (transition_nth_true (0%Z, 0%Z)); [assumption |].
  rewrite H1, H2. apply stay_right.
Qed.

(** A candidate and the candidate below it follow each other once the
    candidates are sorted by column, and are joined by an edge. *)
Lemma vertical_edge cs r c :
  NoDup cs -> In (r, c) cs -> In ((r + 1)%Z, c) cs ->
  exists i j, In (i, j) (adjacency cs)
              /\ nth i cs (0%Z, 0%Z) = (r, c) /\ nth j cs (0%Z, 0%Z) = ((r + 1)%Z, c).
Proof.
  intros Hnd Hp Hq.
  set (tr := trans_ids cs).
  assert (Hperm : Permutation (map (fun p : Z * Z => (snd p, fst p)) cs) (map coord tr))
    by apply trans_ids_coords.
  assert (Hsorted : row_major (map coord tr)).
  { apply sorted_map_coord. apply tocsr_tocoo_sorted. }
  assert (Hnd' : NoDup (map coord tr)).
  { eapply Permutation_NoDup; [exact Hperm |].
    apply Injective_map_NoDup; [| assumption].
    intros [a b] [a' b'] H. simpl in H. inversion H. reflexivity. }
  assert (Hp' : In (c, r) (map coord tr)).
  { eapply Permutation_in; [exact Hperm |].
    apply in_map_iff. exists (r, c). split; [reflexivity | assumption]. }
  assert (Hq' : In (c, (r + 1)%Z) (map coord tr)).
  { eapply Permutation_in; [exact Hperm |].
    apply in_map_iff. exists ((r + 1)%Z, c). split; [reflexivity | assumption]. }
  destruct (row_major_consecutive (0%Z, 0%Z) (map coord tr) c r Hsorted Hnd' Hp' Hq')
    as (k & Hk & H1 & H2).
  rewrite length_map in Hk.
  set (x := nth k tr (0%Z, 0%Z, 0)).
  set (y := nth (S k) tr (0%Z, 0%Z, 0)).
  assert (Hx : In x tr) by (apply nth_In; lia).
  assert (Hy : In y tr) by (apply nth_In; lia).
  rewrite (nth_map_lt coord _ (0%Z, 0%Z) (0%Z, 0%Z, 0)) in H1, H2 by lia.
  fold x in H1. fold y in H2.
  pose proof (trans_ids_coord cs x Hx) as Hcx.
  pose proof (trans_ids_coord cs y Hy) as Hcy.
  exists (data x), (data y). split; [| split].
  - unfold adjacency. cbv zeta. fold tr.
    replace (data x, data y) with (edge_at (Some (map data tr)) (0 + k)).
    + apply fill_adjacency_complete.
      apply (transition_nth_true (0%Z, 0%Z)); [rewrite length_map; lia |].
      rewrite !(nth_map_lt coord _ (0%Z, 0%Z) (0%Z, 0%Z, 0)) by lia.
      fold x y. rewrite H1, H2. apply stay_right.
    + simpl. rewrite !(nth_map_lt data _ 0 (0%Z, 0%Z, 0)) by lia. reflexivity.
  - rewrite H1 in Hcx. destruct (nth (data x) cs (0%Z, 0%Z)) as [a b].
    simpl in Hcx. inversion Hcx. reflexivity.
  - rewrite H2 in Hcy. destruct (nth (data y) cs (0%Z, 0%Z)) as [a b].
    simpl in Hcy. inversion Hcy. reflexivity.
Qed.

End Neighbours.

(** X4: two candidate pixels one above the other always come out of
    [label_connected_pixels_sparse] with the same label, or are both
    removed; so do two candidate pixels side by side when the input stores
    its pixels row by row. *)
Theorem four_way_neighbours_same_focus (A : Type) (matrix : coo A)
        (min_focus_size : nat) :
  distinct_coords (coords matrix) = true ->
  let labelled_mat := snd (label_connected_pixels_sparse matrix min_focus_size) in
  (forall r c,
      In (r, c) (coords matrix) -> In (r + 1, c) (coords matrix) ->
      cell labelled_mat r c = cell labelled_mat (r + 1) c)
  /\ (row_major (coords matrix) ->
      forall r c,
        In (r, c) (coords matrix) -> In (r, c + 1) (coords matrix) ->
        cell labelled_mat r c = cell labelled_mat r (c + 1)).
Proof.
  intros Hd labelled_mat. apply distinct_coords_NoDup in Hd. split.
  - intros r c Hp Hq.
    destruct (vertical_edge (coords matrix) r c Hd Hp Hq) as (i & j & He & Hi & Hj).
    pose proof (edge_same_cell matrix min_focus_size i j Hd He) as H.
    cbv zeta in H. rewrite Hi, Hj in H. exact H.
  - intros Hs r c Hp Hq.
    destruct (horizontal_edge (coords matrix) r c Hs Hd Hp Hq) as (i & j & He & Hi & Hj).
    pose proof (edge_same_cell matrix min_focus_size i j Hd He) as H.
    cbv zeta in H. rewrite Hi, Hj in H. exact H.
Qed.

Lemma four_way_neighbours_same_focus_witness :
  distinct_coords (coords example_M) = true
  /\ cell (snd (label_connected_pixels_sparse example_M 2)) 1 2
     = cell (snd (label_connected_pixels_sparse example_M 2)) (1 + 1) 2
  /\ cell (snd (label_connected_pixels_sparse example_M 2)) 2 2
     = cell (snd (label_connected_pixels_sparse example_M 2)) 2 (2 + 1).
Proof.
  split; [reflexivity |].
  destruct (four_way_neighbours_same_focus nat example_M 2 eq_refl) as [Hv Hh].
  split.
  - apply Hv; vm_compute; tauto.
  - apply Hh; [unfold row_major; vm_compute; repeat constructor | |];
      vm_compute; tauto.
Defined.

(* --------------------------------------------------------------------- *)
(** ** Pixels picked for the foci *)
(* --------------------------------------------------------------------- *)

Section PickerNone.

Local Open Scope nat_scope.

Lemma filter_nil_iff {A : Type} (f : A -> bool) (l : list A) :
  filter f l = [] <-> Forall (fun x => f x = false) l.
Proof.
  induction l as [| x t IH]; simpl.
  - split; [constructor | reflexivity].
  - destruct (f x) eqn:E.
    + split; [discriminate |]. intros H. inversion H; congruence.
    + rewrite IH. split; [now constructor | intros H; now inversion H].
Qed.

End PickerNone.

Section BestPixel.

Local Open Scope nat_scope.

Lemma where_eq_In x :
  forall l s j,
    In j (where_eq x s l) <-> s <= j /\ j - s < length l /\ nth (j - s) l 0 = x.
Proof.
  induction l as [| y t IH]; intros s j; simpl.
  - split; [contradiction | lia].
  - rewrite in_app_iff, IH. split.
    + intros [H | (H1 & H2 & H3)].
      * destruct (Nat.eqb_spec y x) as [-> | _]; [| contradiction].
        destruct H as [<- | []]. rewrite Nat.sub_diag. split; [lia |]. split; [lia | reflexivity].
      * split; [lia |]. split; [lia |].
        replace (j - s) with (S (j - S s)) by lia. exact H3.
    + intros (H1 & H2 & H3).
      destruct (Nat.eq_dec j s) as [-> | Hne].
      * left. rewrite Nat.sub_diag in H3. subst y. rewrite Nat.eqb_refl. now left.
      * right. split; [lia |]. split; [lia |].
        replace (j - s) with (S (j - S s)) in H3 by lia. exact H3.
Qed.

Lemma where_eq_sorted x :
  forall l s, StronglySorted lt (where_eq x s l).
Proof.
  induction l as [| y t IH]; intros s; simpl; [constructor |].
  destruct (y =? x); simpl; [| apply IH].
  constructor; [apply IH |].
  apply Forall_forall. intros j Hj. apply where_eq_In in Hj. lia.
Qed.

Lemma sorted_nth_lt :
  forall l a b, StronglySorted lt l -> a < b -> b < length l ->
                nth a l 0 < nth b l 0.
Proof.
  induction l as [| x t IH]; intros a b Hs Hab Hb; simpl in Hb; [lia |].
  inversion Hs as [| ? ? Hst Hall]; subst.
  destruct b as [| b]; [lia |]. destruct a as [| a]; simpl.
  - rewrite Forall_forall in Hall. apply Hall. apply nth_In. lia.
  - apply IH; try assumption; lia.
Qed.

(** The pixel chosen for a focus: a stored pixel of the focus whose
    correlation is the largest of the focus, the first such pixel in
    storage order. *)
Lemma best_pixel_spec (mat_conv : coo Q) (labelled_mat : coo nat) (id : nat) :
  In id (map data (entries labelled_mat)) ->
  let p := best_pixel mat_conv labelled_mat id in
  let value := fun k =>
    csr_get mat_conv (fst (coord (nth k (entries labelled_mat) (0%Z, 0%Z, 0))))
                     (snd (coord (nth k (entries labelled_mat) (0%Z, 0%Z, 0)))) in
  exists i,
    i < length (entries labelled_mat)
    /\ nth i (entries labelled_mat) (0%Z, 0%Z, 0) = (fst p, snd p, id)
    /\ (forall i', i' < length (entries labelled_mat) ->
                   data (nth i' (entries labelled_mat) (0%Z, 0%Z, 0)) = id ->
                   (value i' <= value i)%Q)
    /\ (forall i', i' < i ->
                   data (nth i' (entries labelled_mat) (0%Z, 0%Z, 0)) = id ->
                   (value i' < value i)%Q).
Proof.
  intros Hid p value.
  set (es := entries labelled_mat) in *.
  set (labels := map data es) in *.
  set (focus_idx := where_eq id 0 labels).
  set (vals := map (fun q : Z * Z => csr_get mat_conv (fst q) (snd q))
                   (map (fun i => nth i (coords labelled_mat) (0%Z, 0%Z)) focus_idx)).
  assert (Hlab : forall k, nth k labels 0 = data (nth k es (0%Z, 0%Z, 0))).
  { intros k. unfold labels. apply (map_nth data es (0%Z, 0%Z, 0)). }
  assert (Hco : forall k, nth k (coords labelled_mat) (0%Z, 0%Z)
                          = coord (nth k es (0%Z, 0%Z, 0))).
  { intros k. unfold coords. apply (map_nth coord es (0%Z, 0%Z, 0)). }
  assert (Hlen : length labels = length es) by (unfold labels; apply length_map).
  assert (Hmem : forall k, In k focus_idx <-> k < length es /\ data (nth k es (0%Z, 0%Z, 0)) = id).
  { intros k. unfold focus_idx. rewrite where_eq_In, Nat.sub_0_r, Hlab, Hlen. lia. }
  assert (Hvals : forall t, t < length focus_idx ->
                            nth t vals 0%Q = value (nth t focus_idx 0)).
  { intros t Ht. unfold vals. rewrite map_map.
    rewrite (nth_map_lt _ focus_idx 0%Q 0) by assumption.
    unfold value. now rewrite Hco. }
  assert (Hvlen : length vals = length focus_idx).
  { unfold vals. now rewrite !length_map. }
  assert (Hne : vals <> []).
  { apply (In_nth _ _ 0) in Hid. destruct Hid as (k & Hk & Hk').
    fold labels in Hk, Hk'. rewrite Hlab in Hk'.
    assert (Hin : In k focus_idx) by (apply Hmem; split; [lia | assumption]).
    intros Hnil. rewrite Hnil in Hvlen. simpl in Hvlen.
    destruct focus_idx; [contradiction | discriminate]. }
  destruct (argmax_first_maximum vals Hne) as (Ham & Hmax & Hfirst).
  rewrite Hvlen in Ham, Hmax.
  set (am := argmax vals) in *.
  set (i := nth am focus_idx 0).
  assert (Hi : In i focus_idx) by (apply nth_In; lia).
  apply Hmem in Hi. destruct Hi as [Hilt Hidata].
  assert (Hp : p = coord (nth i es (0%Z, 0%Z, 0))).
  { unfold p, best_pixel. cbv zeta. fold es labels focus_idx vals am i. apply Hco. }
  exists i. split; [assumption |]. split; [| split].
  - rewrite Hp. destruct (nth i es (0%Z, 0%Z, 0)) as [[r c] d] eqn:E.
    unfold coord, data in *. simpl in *. now subst d.
  - intros i' Hi' Hd'.
    assert (Hin : In i' focus_idx) by (apply Hmem; tauto).
    apply (In_nth _ _ 0) in Hin. destruct Hin as (t & Ht & <-).
    rewrite <- (Hvals t Ht). unfold i. rewrite <- (Hvals am Ham). now apply Hmax.
  - intros i' Hi' Hd'.
    assert (Hin : In i' focus_idx) by (apply Hmem; split; [lia | assumption]).
    apply (In_nth _ _ 0) in Hin. destruct Hin as (t & Ht & Hti).
    assert (Htam : t < am).
    { destruct (Nat.lt_trichotomy t am) as [H | [H | H]]; [assumption | |].
      - subst t. unfold i in Hi'. lia.
      - pose proof (sorted_nth_lt focus_idx am t (where_eq_sorted id labels 0) H Ht).
        unfold i in Hi'. lia. }
    rewrite <- Hti. rewrite <- (Hvals t Ht). unfold i. rewrite <- (Hvals am Ham).
    now apply Hfirst.
Qed.

End BestPixel.

(** X6: when the correlation map has a candidate, [picker] returns
    [num_foci] rows.  Row [k], for the [k]-th label left in the labelled
    matrix, is a stored pixel of this focus whose correlation is the largest
    of the focus, and the first such pixel in storage order; the rows after
    the last label are [(0, 0)]. *)
Theorem picker_best_pixels (mat_conv matrix : coo Q) (precision : Q) :
  distinct_coords (coords mat_conv) = true ->
  let values := map data (entries mat_conv) in
  let thres := (median values + precision * mad values)%Q in
  let candidate_mat := candidates mat_conv thres in
  let num_foci := fst (label_connected_pixels_sparse candidate_mat 2) in
  let labelled_mat := snd (label_connected_pixels_sparse candidate_mat 2) in
  let ids := unique (map data (entries labelled_mat)) in
  let value := fun k =>
    csr_get mat_conv (fst (coord (nth k (entries labelled_mat) (0, 0, 0%nat))))
                     (snd (coord (nth k (entries labelled_mat) (0, 0, 0%nat)))) in
  (0 < length (entries candidate_mat))%nat ->
  exists rows,
    picker mat_conv matrix precision = Some rows
    /\ length rows = num_foci
    /\ (forall k, (k < length ids)%nat ->
          let p := nth k rows (0, 0) in
          exists i,
            (i < length (entries labelled_mat))%nat
            /\ nth i (entries labelled_mat) (0, 0, 0%nat) = (fst p, snd p, nth k ids 0%nat)
            /\ (forall i', (i' < length (entries labelled_mat))%nat ->
                  data (nth i' (entries labelled_mat) (0, 0, 0%nat)) = nth k ids 0%nat ->
                  (value i' <= value i)%Q)
            /\ (forall i', (i' < i)%nat ->
                  data (nth i' (entries labelled_mat) (0, 0, 0%nat)) = nth k ids 0%nat ->
                  (value i' < value i)%Q))
    /\ (forall k, (length ids <= k)%nat -> nth k rows (0, 0) = (0, 0)).
Proof.
  intros _ values thres candidate_mat num_foci labelled_mat ids value Hpos.
  pose proof (picker_rows mat_conv matrix precision) as Hrows. cbv zeta in Hrows.
  specialize (Hrows Hpos).
  fold values thres candidate_mat num_foci labelled_mat ids in Hrows.
  pose proof (picker_length mat_conv matrix precision) as Hlen.
  rewrite Hrows in Hlen. cbv zeta in Hlen.
  fold values thres candidate_mat num_foci in Hlen.
  eexists. split; [exact Hrows |]. split; [exact Hlen |]. split.
  - intros k Hk p.
    assert (Hp : p = best_pixel mat_conv labelled_mat (nth k ids 0%nat)).
    { unfold p. rewrite app_nth1 by (rewrite length_map; exact Hk).
      apply (nth_map_lt (best_pixel mat_conv labelled_mat) ids (0, 0) 0%nat k Hk). }
    rewrite Hp.
    apply (best_pixel_spec mat_conv labelled_mat (nth k ids 0%nat)).
    apply unique_In. apply nth_In. exact Hk.
  - intros k Hk.
    rewrite app_nth2 by (rewrite length_map; exact Hk).
    destruct (Nat.lt_ge_cases (k - length (map (best_pixel mat_conv labelled_mat) ids))
                              (num_foci - length ids)) as [Hin | Hout].
    + apply nth_repeat_lt. exact Hin.
    + apply nth_overflow. rewrite repeat_length. exact Hout.
Qed.

Lemma picker_best_pixels_witness :
  distinct_coords (coords two_foci_map) = true
  /\ exists rows, picker two_foci_map two_foci_map 0 = Some rows /\ length rows = 2%nat.
Proof.
  split; [reflexivity |].
  destruct (picker_best_pixels two_foci_map two_foci_map 0 eq_refl)
    as (rows & Hp & Hl & _).
  - vm_compute. lia.
  - exists rows. split; [exact Hp | exact Hl].
Defined.

Section PickedValues.

Local Open Scope nat_scope.

Lemma sublist_In {A : Type} (l1 l2 : list A) x : sublist l1 l2 -> In x l1 -> In x l2.
Proof.
  induction 1 as [| y l1 l2 _ IH | y l1 l2 _ IH]; simpl; auto.
  intros [<- | H]; auto.
Qed.

Lemma label_coords_sublist {A : Type} (matrix : coo A) (min_focus_size : nat) :
  sublist (coords (snd (label_connected_pixels_sparse matrix min_focus_size)))
          (coords matrix).
Proof.
  unfold coords at 1. rewrite label_entries. cbv zeta. apply masked_entries_sublist.
Qed.

Lemma candidates_In (mat_conv : coo Q) (thres : Q) p :
  In p (coords (candidates mat_conv thres)) ->
  exists e, In e (entries mat_conv) /\ coord e = p
            /\ ~ (data e < thres)%Q /\ ~ (data e == 0)%Q.
Proof.
  unfold coords, candidates. simpl. rewrite map_map. intros H.
  apply in_map_iff in H. destruct H as (e & He & Hin).
  apply filter_In in Hin. destruct Hin as [Hin Hf].
  apply andb_true_iff in Hf. destruct Hf as [H1 H2].
  apply negb_true_iff in H1, H2.
  exists e. split; [assumption |]. split.
  - unfold coord in *. simpl in He. destruct e as [[r c] v]. exact He.
  - split.
    + intros Hlt. apply Qltb_lt in Hlt. congruence.
    + intros Heq. apply Qeq_bool_iff in Heq. congruence.
Qed.

(** In a matrix that stores each coordinate once, reading a stored
    coordinate gives the value stored there. *)
Lemma csr_get_stored (m : coo Q) e :
  NoDup (coords m) -> In e (entries m) ->
  (csr_get m (fst (coord e)) (snd (coord e)) == data e)%Q.
Proof.
  unfold csr_get, coords. destruct m as [sh es]. simpl.
  induction es as [| x t IH]; intros Hnd Hin; simpl in *; [contradiction |].
  inversion Hnd as [| ? ? Hnot Hndt]; subst.
  assert (Habsent : forall p, ~ In p (map coord t) ->
             fold_right (fun e0 acc => if coord_eqb (coord e0) p
                                       then (data e0 + acc)%Q else acc) 0%Q t = 0%Q).
  { clear. induction t as [| y t IH]; intros p Hp; simpl; [reflexivity |].
    destruct (coord_eqb (coord y) p) eqn:E.
    - apply coord_eqb_eq in E. exfalso. apply Hp. left. exact E.
    - apply IH. intros H. apply Hp. now right. }
  destruct Hin as [-> | Hin].
  - replace (fst (coord e), snd (coord e)) with (coord e) by (now destruct (coord e)).
    assert (E : coord_eqb (coord e) (coord e) = true) by now apply coord_eqb_eq.
    rewrite E. rewrite Habsent by assumption. ring.
  - destruct (coord_eqb (coord x) (fst (coord e), snd (coord e))) eqn:E.
    + apply coord_eqb_eq in E. exfalso. apply Hnot.
      rewrite E. replace (fst (coord e), snd (coord e)) with (coord e)
        by (now destruct (coord e)).
      now apply in_map.
    + now apply IH.
Qed.

End PickedValues.

(** X7: when the correlation map stores each coordinate once and has a
    candidate, every row [picker] returns for a label left in the labelled
    matrix is a pixel whose correlation is at least the threshold and is
    not 0. *)
Theorem picker_rows_pass_threshold (mat_conv matrix : coo Q) (precision : Q) :
  distinct_coords (coords mat_conv) = true ->
  let values := map data (entries mat_conv) in
  let thres := (median values + precision * mad values)%Q in
  let candidate_mat := candidates mat_conv thres in
  let labelled_mat := snd (label_connected_pixels_sparse candidate_mat 2) in
  let ids := unique (map data (entries labelled_mat)) in
  (0 < length (entries candidate_mat))%nat ->
  exists rows,
    picker mat_conv matrix precision = Some rows
    /\ forall k, (k < length ids)%nat ->
         let p := nth k rows (0, 0) in
         In p (coords mat_conv)
         /\ ~ (csr_get mat_conv (fst p) (snd p) < thres)%Q
         /\ ~ (csr_get mat_conv (fst p) (snd p) == 0)%Q.
Proof.
  intros Hd values thres candidate_mat labelled_mat ids Hpos.
  apply distinct_coords_NoDup in Hd.
  pose proof (picker_rows mat_conv matrix precision) as Hrows. cbv zeta in Hrows.
  specialize (Hrows Hpos).
  fold values thres candidate_mat labelled_mat ids in Hrows.
  eexists. split; [exact Hrows |].
  intros k Hk p.
  assert (Hp : p = best_pixel mat_conv labelled_mat (nth k ids 0%nat)).
  { unfold p. rewrite app_nth1 by (rewrite length_map; exact Hk).
    apply (nth_map_lt (best_pixel mat_conv labelled_mat) ids (0, 0) 0%nat k Hk). }
  destruct (best_pixel_spec mat_conv labelled_mat (nth k ids 0%nat))
    as (i & Hi & Hentry & _).
  { apply unique_In. apply nth_In. exact Hk. }
  rewrite <- Hp in Hentry.
  assert (Hin : In p (coords labelled_mat)).
  { unfold coords. apply in_map_iff.
    exists (nth i (entries labelled_mat) (0, 0, 0%nat)). split.
    - rewrite Hentry. unfold coord. simpl. now destruct p.
    - now apply nth_In. }
  apply (sublist_In _ _ _ (label_coords_sublist candidate_mat 2)) in Hin.
  apply candidates_In in Hin. destruct Hin as (e & He & Hc & Hthres & Hzero).
  pose proof (csr_get_stored mat_conv e Hd He) as Hget. rewrite Hc in Hget.
  split; [| split].
  - rewrite <- Hc. unfold coords. now apply in_map.
  - rewrite Hget. exact Hthres.
  - rewrite Hget. exact Hzero.
Qed.

Lemma picker_rows_pass_threshold_witness :
  distinct_coords (coords two_foci_map) = true
  /\ exists rows, picker two_foci_map two_foci_map 0 = Some rows.
Proof.
  split; [reflexivity |].
  destruct (picker_rows_pass_threshold two_foci_map two_foci_map 0 eq_refl)
    as (rows & Hp & _).
  - vm_compute. lia.
  - exists rows. exact Hp.
Defined.

(* --------------------------------------------------------------------- *)
(** ** Rejections and kernel shapes in the validator *)
(* --------------------------------------------------------------------- *)

Section Rejections.

Variables (matrix conv_mat : coo Q) (detectable_bins : list Z * list Z).
Variables (win_h win_w : Z) (max_undetected_perc : Q).

Let acc := accepts matrix detectable_bins win_h win_w max_undetected_perc.
Let step := validate_step matrix conv_mat (fst detectable_bins) (snd detectable_bins)
                          win_h win_w max_undetected_perc.

(** A pass in which every candidate is rejected blacklists every index. *)
Lemma loop_all_rejected :
  forall post k st,
    (forall l, In l post -> acc l = false) ->
    for_each step (enumerate_from k post) st
    = ok (mk_state (st_coords st) (st_windows st)
                   (st_blacklist st ++ seq k (length post))).
Proof.
  induction post as [| l post IH]; intros k st Hrej.
  - simpl. rewrite app_nil_r. now destruct st.
  - simpl enumerate_from. rewrite for_each_cons.
    unfold step at 1.
    rewrite validate_step_rejects by (apply Hrej; now left).
    rewrite bind_ok. fold step. rewrite IH by (intros l' Hl'; apply Hrej; now right).
    simpl. now rewrite <- app_assoc.
Qed.

Lemma enumerate_from_fst {A : Type} :
  forall (l : list A) k ix, In ix (enumerate_from k l) ->
                            (k <= fst ix < k + length l)%nat.
Proof.
  induction l as [| x t IH]; intros k ix H; simpl in H; [contradiction |].
  destruct H as [<- | H]; simpl; [lia |]. apply IH in H. lia.
Qed.

Lemma drop_all_blacklisted {A : Type} (l : list A) :
  drop_blacklisted (seq 0 (length l)) l = [].
Proof.
  unfold drop_blacklisted.
  assert (H : filter (fun ix : nat * A =>
                        negb (existsb (Nat.eqb (fst ix)) (seq 0 (length l))))
                     (enumerate_from 0 l) = []).
  { apply filter_nil_iff. apply Forall_forall. intros ix Hix.
    apply enumerate_from_fst in Hix. apply negb_false_iff.
    apply existsb_exists. exists (fst ix). split.
    - apply in_seq. lia.
    - apply Nat.eqb_refl. }
  now rewrite H.
Qed.

Lemma validate_patterns_all_rejected (coords : list (Z * Z)) :
  (forall l, In l coords -> acc l = false) ->
  validate_patterns coords matrix conv_mat detectable_bins (win_h, win_w)
                    max_undetected_perc
  = ok ([], []).
Proof.
  intros Hrej. unfold validate_patterns. cbv zeta. fold step.
  rewrite loop_all_rejected by assumption. rewrite bind_ok.
  simpl st_coords. simpl st_windows. simpl st_blacklist.
  f_equal. f_equal.
  - rewrite <- (length_map (fun l => mk_pattern (fst l) (snd l) 0) coords).
    apply drop_all_blacklisted.
  - rewrite <- (repeat_length (repeat (repeat 0%Q (Z.to_nat win_w)) (Z.to_nat win_h))
                              (length coords)) at 1.
    apply drop_all_blacklisted.
Qed.

Lemma missing_fraction_nonneg l :
  (0 <= inject_Z (missing_pixels matrix detectable_bins win_h win_w l)
        / inject_Z (total_pixels win_h win_w l))%Q.
Proof.
  assert (Hm : 0 <= missing_pixels matrix detectable_bins win_h win_w l).
  { unfold missing_pixels, count_zero. lia. }
  assert (Ht : 0 <= total_pixels win_h win_w l).
  { unfold total_pixels. lia. }
  unfold Qdiv. apply Qmult_le_0_compat.
  - change 0%Q with (inject_Z 0). now rewrite <- Zle_Qle.
  - apply Qinv_le_0_compat. change 0%Q with (inject_Z 0). now rewrite <- Zle_Qle.
Qed.

Lemma zero_tolerance_rejects l :
  (max_undetected_perc <= 0)%Q -> acc l = false.
Proof.
  intros Hp. unfold acc, accepts.
  destruct (Qltb _ _) eqn:E; [| apply andb_false_r].
  apply Qltb_lt in E. pose proof (missing_fraction_nonneg l) as Hn.
  set (x := (inject_Z (missing_pixels matrix detectable_bins win_h win_w l)
             / inject_Z (total_pixels win_h win_w l))%Q) in *.
  clearbody x.
  assert (H : (max_undetected_perc / 100 == max_undetected_perc * (1 # 100))%Q)
    by (unfold Qdiv; reflexivity).
  rewrite H in E. exfalso. lra.
Qed.

End Rejections.

(** X8: with a tolerance of 0 percent or less, [validate_patterns] rejects
    every candidate: the comparison with the missing fraction is strict. *)
Theorem validate_patterns_zero_tolerance
        (coords : list (Z * Z)) (matrix conv_mat : coo Q)
        (detectable_bins : list Z * list Z) (kernel_shape : Z * Z)
        (max_undetected_perc : Q) :
  (max_undetected_perc <= 0)%Q ->
  validate_patterns coords matrix conv_mat detectable_bins kernel_shape
                    max_undetected_perc
  = ok ([], []).
Proof.
  intros Hp. destruct kernel_shape as [win_h win_w].
  apply validate_patterns_all_rejected.
  intros l _. now apply zero_tolerance_rejects.
Qed.

Lemma validate_patterns_zero_tolerance_witness :
  validate_patterns [(1, 5); (4, 4)] full_map example_scores all_bins (3, 3) 0
  = ok ([], []).
Proof.
  apply (validate_patterns_zero_tolerance [(1, 5); (4, 4)] full_map example_scores
                                          all_bins (3, 3) 0).
  vm_compute. discriminate.
Defined.

Section EvenKernel.

Variables (matrix conv_mat : coo Q) (detectable_bins : list Z * list Z).
Variables (win_h win_w : Z) (max_undetected_perc : Q).

Hypothesis pos_h : 0 < win_h.
Hypothesis pos_w : 0 < win_w.
Hypothesis even_dim : Z.even win_h = true \/ Z.even win_w = true.

Let acc := accepts matrix detectable_bins win_h win_w max_undetected_perc.
Let step := validate_step matrix conv_mat (fst detectable_bins) (snd detectable_bins)
                          win_h win_w max_undetected_perc.

Lemma even_window k p :
  Z.even k = true -> 0 < k ->
  Z.of_nat (length (range (p - half k + 1) (p + half k))) = k + 1.
Proof.
  intros Heven Hpos. rewrite range_length. unfold half.
  pose proof (Zmod_even k) as Hm. rewrite Heven in Hm.
  pose proof (Z.div_mod k 2 ltac:(lia)) as Hd.
  rewrite Z2Nat.id; lia.
Qed.

Lemma even_window_shape l :
  (Z.of_nat (length (window_rows win_h l)) =? win_h)
  && (Z.of_nat (length (window_cols win_w l)) =? win_w) = false.
Proof.
  unfold window_rows, window_cols.
  destruct even_dim as [H | H].
  - rewrite (even_window win_h _ H pos_h).
    destruct (Z.eqb_spec (win_h + 1) win_h); [lia | reflexivity].
  - rewrite (even_window win_w _ H pos_w).
    destruct (Z.eqb_spec (win_w + 1) win_w); [lia | apply andb_false_r].
Qed.

Lemma loop_accepted_raises :
  forall post k st,
    (forall l, In l post -> valid_index conv_mat l) ->
    existsb acc post = true ->
    for_each step (enumerate_from k post) st
    = raise (ValueError "could not broadcast input array").
Proof.
  induction post as [| l post IH]; intros k st Hidx Hex; [discriminate |].
  simpl enumerate_from. rewrite for_each_cons.
  unfold step at 1. rewrite validate_step_cases. fold acc.
  simpl in Hex. destruct (acc l) eqn:Hacc.
  - rewrite (csr_index_valid conv_mat l) by (apply Hidx; now left).
    rewrite bind_ok. rewrite even_window_shape. reflexivity.
  - rewrite bind_ok. fold step. apply IH; [| exact Hex].
    intros l' Hl'. apply Hidx. now right.
Qed.

Lemma existsb_false_all (l : list (Z * Z)) :
  existsb acc l = false -> forall x, In x l -> acc x = false.
Proof.
  induction l as [| y t IH]; simpl; intros H x Hx; [contradiction |].
  apply orb_false_iff in H. destruct H as [Hy Ht].
  destruct Hx as [<- | Hx]; auto.
Qed.

End EvenKernel.

(** X9: for a kernel with an even number of rows or columns,
    [validate_patterns] raises a [ValueError] as soon as it accepts a
    candidate, the window being one row or column larger than the kernel;
    it returns an empty table when it accepts none. *)
Theorem validate_patterns_even_kernel
        (coords : list (Z * Z)) (matrix conv_mat : coo Q)
        (detectable_bins : list Z * list Z) (win_h win_w : Z)
        (max_undetected_perc : Q) :
  0 < win_h -> 0 < win_w ->
  Z.even win_h = true \/ Z.even win_w = true ->
  (forall l, In l coords -> valid_index conv_mat l) ->
  validate_patterns coords matrix conv_mat detectable_bins (win_h, win_w)
                    max_undetected_perc
  = if existsb (accepts matrix detectable_bins win_h win_w max_undetected_perc) coords
    then raise (ValueError "could not broadcast input array")
    else ok ([], []).
Proof.
  intros Hh Hw Heven Hidx.
  destruct (existsb _ coords) eqn:E.
  - unfold validate_patterns. cbv zeta.
    rewrite (loop_accepted_raises matrix conv_mat detectable_bins win_h win_w
                                  max_undetected_perc Hh Hw Heven coords 0 _ Hidx E).
    reflexivity.
  - apply validate_patterns_all_rejected.
    now apply existsb_false_all.
Qed.

Lemma validate_patterns_even_kernel_witness :
  validate_patterns [(1, 5); (4, 4)] full_map example_scores all_bins (2, 3) 50
  = raise (ValueError "could not broadcast input array").
Proof.
  apply (validate_patterns_even_kernel [(1, 5); (4, 4)] full_map example_scores
                                       all_bins 2 3 50);
    [reflexivity | reflexivity | left; reflexivity |].
  intros l [<- | [<- | []]]; unfold valid_index; simpl; lia.
Defined.

Section UpperTriangle.

Variables (matrix conv_mat : coo Q) (detectable_bins : list Z * list Z).
Variables (win_h win_w : Z) (max_undetected_perc : Q).

Hypothesis pos_h : 0 < win_h.
Hypothesis pos_w : 0 < win_w.
Hypothesis same_shape : shape conv_mat = shape matrix.

Let acc := accepts matrix detectable_bins win_h win_w max_undetected_perc.

Lemma half_pos k : 0 < k -> 1 <= half k.
Proof. intros H. unfold half. pose proof (Z.div_pos k 2). lia. Qed.

Lemma accepted_margins l :
  fst l <= snd l -> acc l = true ->
  half win_h <= fst l /\ fst l + half win_h + 1 < fst (shape matrix)
  /\ half win_w <= snd l /\ snd l + half win_w + 1 < snd (shape matrix).
Proof.
  intros Hle Hacc. unfold acc, accepts in Hacc.
  apply andb_true_iff in Hacc. destruct Hacc as [Hm _].
  apply margins_ok_spec in Hm. unfold canonical in Hm.
  destruct (Z.gtb_spec (fst l) (snd l)); [lia |]. simpl in Hm. lia.
Qed.

Lemma accepted_valid_index l :
  fst l <= snd l -> acc l = true -> valid_index conv_mat l.
Proof.
  intros Hle Hacc. destruct (accepted_margins l Hle Hacc) as (H1 & H2 & H3 & H4).
  pose proof (half_pos win_h pos_h). pose proof (half_pos win_w pos_w).
  unfold valid_index. rewrite same_shape. lia.
Qed.

End UpperTriangle.

(** X10: for a kernel of odd dimensions, a correlation map of the shape of
    the contact map and candidates with [row <= col], [validate_patterns]
    does not raise, whatever the candidates; the table and the stack of
    windows have the same length, every row of the table keeps the margins
    of the loop, and every window has the shape of the kernel. *)
Theorem validate_patterns_upper_triangle
        (coords : list (Z * Z)) (matrix conv_mat : coo Q)
        (detectable_bins : list Z * list Z) (win_h win_w : Z)
        (max_undetected_perc : Q) :
  Z.odd win_h = true -> Z.odd win_w = true -> 0 < win_h -> 0 < win_w ->
  shape conv_mat = shape matrix ->
  Forall (fun l => fst l <= snd l) coords ->
  exists table windows,
    validate_patterns coords matrix conv_mat detectable_bins (win_h, win_w)
                      max_undetected_perc = ok (table, windows)
    /\ length table = length windows
    /\ Forall (fun pat =>
                 half win_h <= bin1 pat
                 /\ bin1 pat + half win_h + 1 < fst (shape matrix)
                 /\ half win_w <= bin2 pat
                 /\ bin2 pat + half win_w + 1 < snd (shape matrix)) table
    /\ Forall (fun w : window =>
                 length w = Z.to_nat win_h
                 /\ Forall (fun row => length row = Z.to_nat win_w) w) windows.
Proof.
  intros Hoh How Hph Hpw Hshape Hup.
  rewrite Forall_forall in Hup.
  eexists. eexists. split; [| split; [| split]].
  - apply validate_patterns_filter_accepted; try assumption.
    intros l Hl Hacc.
    apply (accepted_valid_index matrix conv_mat detectable_bins win_h win_w
                                max_undetected_perc Hph Hpw Hshape l (Hup l Hl) Hacc).
  - now rewrite !length_map.
  - apply Forall_map, Forall_forall. intros l Hl.
    apply filter_In in Hl. destruct Hl as [Hl Hacc]. simpl.
    exact (accepted_margins matrix detectable_bins win_h win_w max_undetected_perc
                            l (Hup l Hl) Hacc).
  - apply Forall_map, Forall_forall. intros l _.
    unfold window_at. rewrite length_map. split.
    + unfold window_rows. apply Nat2Z.inj. rewrite Z2Nat.id by lia.
      now apply odd_window.
    + apply Forall_map, Forall_forall. intros r _. rewrite length_map.
      unfold window_cols. apply Nat2Z.inj. rewrite Z2Nat.id by lia.
      now apply odd_window.
Qed.

Lemma validate_patterns_upper_triangle_witness :
  exists table windows,
    validate_patterns [(-1, 5); (2, 5); (4, 40)] full_map example_scores all_bins (3, 3) 50
    = ok (table, windows)
    /\ length table = length windows.
Proof.
  destruct (validate_patterns_upper_triangle [(-1, 5); (2, 5); (4, 40)] full_map
              example_scores all_bins 3 3 50)
    as (table & windows & Hv & Hl & _);
    try reflexivity.
  - repeat constructor; simpl; lia.
  - exists table, windows. split; assumption.
Defined.

(* --------------------------------------------------------------------- *)
(** ** Output of the correlator *)
(* --------------------------------------------------------------------- *)

Section SquareBranches.

Local Open Scope Q_scope.

Variables (signal kernel : mat) (N : Z) (threshold : Q).

Hypothesis rows_N : nrows signal = N.
Hypothesis cols_N : ncols signal = N.
Hypothesis kernel_rows : (1 <= nrows kernel <= N)%Z.
Hypothesis kernel_cols : (1 <= ncols kernel <= N)%Z.

Let km := nrows kernel.
Let kn := ncols kernel.

Lemma Qltb_comp (a b t : Q) : a == b -> Qltb a t = Qltb b t.
Proof.
  intros H. destruct (Qltb a t) eqn:Ea; destruct (Qltb b t) eqn:Eb; try reflexivity.
  - apply Qltb_lt in Ea. apply Qltb_ge in Eb. rewrite H in Ea. exfalso. lra.
  - apply Qltb_lt in Eb. apply Qltb_ge in Ea. rewrite H in Ea. exfalso. lra.
Qed.

(** For a kernel whose cells all equal its first cell, the window sum times
    this cell is the cross-correlation. *)
Lemma constant_cross_correlation (i j : Z) :
  (forall k kj, (0 <= k < km)%Z -> (0 <= kj < kn)%Z -> val kernel k kj == val kernel 0 0) ->
  window_sum signal kernel i j * val kernel 0 0 == cross_correlation signal kernel i j.
Proof.
  intros Hc. unfold window_sum, cross_correlation, column_term.
  fold km kn. rewrite !sum_upto_list.
  rewrite Qmult_comm, <- sum_list_scale.
  apply sum_list_ext. intros kj Hkj. apply zrange_In in Hkj.
  rewrite !sum_upto_list. rewrite <- sum_list_scale.
  apply sum_list_ext. intros k Hk. apply zrange_In in Hk.
  rewrite (Hc k kj Hk Hkj). reflexivity.
Qed.

(** On a square signal, the raw output of [xcorr2] by the branch taken. *)
Lemma xcorr2_square_branch :
  exists out,
    xcorr2 (SparseMatrix signal) (DenseArray kernel) threshold
    = ok (with_margins kernel N threshold out)
    /\ nrows out = (N - km + 1)%Z /\ ncols out = (N - kn + 1)%Z
    /\ forall i j, (0 <= i < N - km + 1)%Z -> (0 <= j < N - kn + 1)%Z ->
                   val out i j
                   == if allclose_const kernel (val kernel 0 0)
                      then window_sum signal kernel i j * val kernel 0 0
                      else cross_correlation signal kernel i j.
Proof.
  unfold xcorr2. simpl issparse. simpl negb. cbv iota. simpl values.
  rewrite rows_N, cols_N. fold km. fold kn.
  destruct (Z.gtb_spec km N); [unfold km in *; lia |].
  destruct (Z.gtb_spec N N); [lia |]. simpl orb. cbv iota.
  destruct (Z.leb_spec km 0); [unfold km in *; lia |].
  destruct (Z.leb_spec kn 0); [unfold kn in *; lia |]. simpl orb. cbv iota.
  rewrite zeros_ok by (unfold km, kn in *; lia). rewrite bind_ok.
  destruct (allclose_const kernel (val kernel 0 0)).
  - destruct (constant_path_spec signal kernel N rows_N cols_N kernel_rows kernel_cols
                                 (val kernel 0 0))
      as (out & Hp & Hr & Hc & Hv).
    fold km in Hp, Hr, Hv. fold kn in Hp, Hc, Hv.
    exists out. rewrite Hp, bind_ok.
    rewrite (add_margins_ok kernel N threshold kernel_rows kernel_cols) by assumption.
    repeat split; try assumption.
  - destruct (general_path_spec signal kernel N rows_N cols_N kernel_rows kernel_cols)
      as (out & Hp & Hr & Hc & Hv).
    fold km in Hp, Hr, Hv. fold kn in Hp, Hc, Hv.
    rewrite zeros_ok, bind_ok in Hp by (unfold km, kn in *; lia).
    exists out. rewrite Hp, bind_ok.
    rewrite (add_margins_ok kernel N threshold kernel_rows kernel_cols) by assumption.
    repeat split; try assumption.
Qed.

End SquareBranches.

(** X11: on a square sparse signal and a dense kernel no larger than it,
    whose cells are all equal or not all close to the first one, [xcorr2]
    returns a matrix of the shape of the signal: inside the frame left by
    the kernel, a cell holds the cross-correlation of the signal with the
    kernel, or 0 when this value is below the threshold; in the margins it
    holds 0. *)
Theorem xcorr2_cross_correlation (signal kernel : mat) (N : Z) (threshold : Q) :
  nrows signal = N -> ncols signal = N ->
  1 <= nrows kernel <= N -> 1 <= ncols kernel <= N ->
  allclose_const kernel (val kernel 0 0) = false
  \/ (forall k kj, 0 <= k < nrows kernel -> 0 <= kj < ncols kernel ->
                   (val kernel k kj == val kernel 0 0)%Q) ->
  exists out,
    xcorr2 (SparseMatrix signal) (DenseArray kernel) threshold = ok out
    /\ nrows out = N /\ ncols out = N
    /\ forall r c,
         let kh := (nrows kernel - 1) / 2 in
         let kw := (ncols kernel - 1) / 2 in
         let x := cross_correlation signal kernel (r - kh) (c - kw) in
         (val out r c
          == if (kh <=? r) && (r - kh <? N - nrows kernel + 1)
                && (kw <=? c) && (c - kw <? N - ncols kernel + 1)
             then (if Qltb x threshold then 0 else x)
             else 0)%Q.
Proof.
  intros Hr Hc Hkr Hkc Hkernel.
  destruct (xcorr2_square_branch signal kernel N threshold Hr Hc Hkr Hkc)
    as (out & Hx & Hro & Hco & Hv).
  eexists. split; [exact Hx |]. split; [reflexivity |]. split; [reflexivity |].
  intros r c kh kw x. unfold with_margins. simpl val. fold kh kw.
  rewrite Hro, Hco.
  destruct ((kh <=? r) && (r - kh <? N - nrows kernel + 1)
            && (kw <=? c) && (c - kw <? N - ncols kernel + 1)) eqn:E;
    [| reflexivity].
  apply andb_true_iff in E. destruct E as [E E4].
  apply andb_true_iff in E. destruct E as [E E3].
  apply andb_true_iff in E. destruct E as [E1 E2].
  apply Z.leb_le in E1, E3. apply Z.ltb_lt in E2, E4.
  assert (Hval : (val out (r - kh) (c - kw) == x)%Q).
  { rewrite (Hv (r - kh) (c - kw)) by lia.
    destruct Hkernel as [Hgen | Hconst].
    - rewrite Hgen. reflexivity.
    - destruct (allclose_const kernel (val kernel 0 0)); [| reflexivity].
      now apply constant_cross_correlation. }
  rewrite (Qltb_comp _ _ threshold Hval).
  destruct (Qltb x threshold); [reflexivity | exact Hval].
Qed.

Lemma xcorr2_cross_correlation_witness :
  exists out,
    xcorr2 (SparseMatrix signal_3x3) (DenseArray kernel_3x3) default_threshold = ok out
    /\ nrows out = 3 /\ ncols out = 3.
Proof.
  destruct (xcorr2_cross_correlation signal_3x3 kernel_3x3 3 default_threshold)
    as (out & Hx & Hr & Hc & _);
    try reflexivity; try (simpl; lia).
  - right. intros k kj _ _. reflexivity.
  - exists out. repeat split; assumption.
Defined.

(** The matrix [xcorr2] returns, when it returns: the raw output of the
    branch taken, thresholded and shifted by the half sizes of the kernel
    into a matrix of the shape of the signal. *)
Lemma xcorr2_ok_inv (signal kernel : array_like) (threshold : Q) (out : mat) :
  xcorr2 signal kernel threshold = ok out ->
  exists raw,
    out = mk_mat (nrows (values signal)) (ncols (values signal))
            (fun r c =>
               let kh := (nrows (values kernel) - 1) / 2 in
               let kw := (ncols (values kernel) - 1) / 2 in
               if (kh <=? r) && (r - kh <? nrows raw) && (kw <=? c) && (c - kw <? ncols raw)
               then (if Qltb (val raw (r - kh) (c - kw)) threshold then 0%Q
                     else val raw (r - kh) (c - kw))
               else 0%Q).
Proof.
  unfold xcorr2. cbv zeta.
  destruct (negb (issparse signal)); [discriminate |].
  destruct (issparse kernel); [discriminate |].
  destruct ((nrows (values kernel) >? nrows (values signal))
            || (ncols (values signal) >? ncols (values signal))); [discriminate |].
  destruct ((nrows (values kernel) <=? 0) || (ncols (values kernel) <=? 0));
    [discriminate |].
  destruct (zeros _ _) as [e | out0]; [discriminate |]. rewrite bind_ok.
  match goal with
  | |- bind ?m _ = _ -> _ => destruct m as [e | raw]; [discriminate |]
  end.
  rewrite bind_ok. unfold add_margins.
  destruct (all_cells _ _); [| discriminate].
  intros H. inversion H; subst; clear H. exists raw. reflexivity.
Qed.

(** X12: whenever [xcorr2] returns, the result has the shape of the
    signal, no cell holds a nonzero value below the threshold, and the rows
    above the half height of the kernel and the columns left of its half
    width hold 0. *)
Theorem xcorr2_output (signal kernel : array_like) (threshold : Q) (out : mat) :
  xcorr2 signal kernel threshold = ok out ->
  nrows out = nrows (values signal)
  /\ ncols out = ncols (values signal)
  /\ (forall r c, val out r c = 0%Q \/ ~ (val out r c < threshold)%Q)
  /\ (forall r c,
        r < (nrows (values kernel) - 1) / 2 \/ c < (ncols (values kernel) - 1) / 2 ->
        val out r c = 0%Q).
Proof.
  intros H. apply xcorr2_ok_inv in H. destruct H as [raw ->]. simpl.
  split; [reflexivity |]. split; [reflexivity |]. split.
  - intros r c.
    destruct ((_ <=? r) && _ && _ && _); [| now left].
    destruct (Qltb (val raw _ _) threshold) eqn:E; [now left |].
    right. intros Hlt. apply Qltb_lt in Hlt. congruence.
  - intros r c Hrc.
    destruct (Z.leb_spec ((nrows (values kernel) - 1) / 2) r) as [H1 | H1];
      [| reflexivity].
    destruct (Z.leb_spec ((ncols (values kernel) - 1) / 2) c) as [H2 | H2];
      [lia |].
    rewrite andb_false_r. reflexivity.
Qed.

Lemma xcorr2_output_witness :
  exists out,
    xcorr2 (SparseMatrix signal_2x3) (DenseArray kernel_1x1) default_threshold = ok out
    /\ nrows out = 2 /\ ncols out = 3.
Proof.
  assert (H : exists out,
             xcorr2 (SparseMatrix signal_2x3) (DenseArray kernel_1x1) default_threshold
             = ok out)
    by (eexists; vm_compute; reflexivity).
  destruct H as [out H]. exists out. split; [exact H |].
  destruct (xcorr2_output _ _ _ _ H) as (Hr & Hc & _).
  split; [rewrite Hr | rewrite Hc]; reflexivity.
Defined.

Section NonSquare.

Lemma zrange_pos n : 1 <= n -> exists t, zrange n = 0 :: t.
Proof.
  intros H. unfold zrange.
  destruct (Z.to_nat n) as [| m] eqn:E; [lia |].
  simpl. eexists. reflexivity.
Qed.

Lemma general_path_needs_square (signal kernel out0 : mat) :
  1 <= ncols kernel ->
  nrows out0 = nrows signal - nrows kernel + 1 ->
  nrows signal <> ncols signal ->
  exists msg, general_path signal kernel out0 = raise (ValueError msg).
Proof.
  intros Hkn Hout Hne. unfold general_path.
  destruct (zrange_pos (ncols kernel) Hkn) as [t ->].
  rewrite for_each_cons.
  unfold general_step at 1. cbv zeta.
  destruct (diags _ _ _ _) as [e | sub] eqn:Ed.
  - unfold diags in Ed. destruct (existsb _ _); [| discriminate].
    inversion Ed; subst. eexists. reflexivity.
  - rewrite bind_ok.
    assert (Hsub : nrows sub = ncols signal - nrows kernel + 1).
    { unfold diags in Ed. destruct (existsb _ _); [discriminate |].
      inversion Ed; subst. reflexivity. }
    unfold matmul. destruct (ncols sub =? nrows _).
    + rewrite bind_ok. unfold add. simpl nrows. simpl ncols.
      rewrite Hout, Hsub.
      destruct (Z.eqb_spec (nrows signal - nrows kernel + 1)
                           (ncols signal - nrows kernel + 1)); [lia |].
      simpl. eexists. reflexivity.
    + simpl. eexists. reflexivity.
Qed.

End NonSquare.

(** X14: with a kernel that is not constant, [xcorr2] fails on every signal
    that is not square: the product of the first kernel column has one row
    per signal column, and cannot be added to the output. *)
Theorem xcorr2_general_needs_square (signal kernel : mat) (threshold : Q) :
  nrows signal <> ncols signal ->
  1 <= nrows kernel -> 1 <= ncols kernel ->
  allclose_const kernel (val kernel 0 0) = false ->
  exists msg,
    xcorr2 (SparseMatrix signal) (DenseArray kernel) threshold = raise (ValueError msg).
Proof.
  intros Hne Hkm Hkn Hgen. unfold xcorr2. cbv zeta.
  simpl issparse. simpl negb. cbv iota. simpl values.
  destruct ((nrows kernel >? nrows signal) || (ncols signal >? ncols signal));
    [eexists; reflexivity |].
  destruct (Z.leb_spec (nrows kernel) 0); [lia |].
  destruct (Z.leb_spec (ncols kernel) 0); [lia |]. simpl orb. cbv iota.
  rewrite Hgen.
  destruct (zeros _ _) as [e | out0] eqn:Ez.
  - unfold zeros in Ez. destruct (_ || _); [| discriminate].
    inversion Ez; subst. eexists. reflexivity.
  - rewrite bind_ok.
    assert (Hout : nrows out0 = nrows signal - nrows kernel + 1).
    { unfold zeros in Ez. destruct (_ || _); [discriminate |].
      inversion Ez; subst. reflexivity. }
    destruct (general_path_needs_square signal kernel out0 Hkn Hout Hne) as [msg ->].
    eexists. reflexivity.
Qed.

Lemma xcorr2_general_needs_square_witness :
  exists msg,
    xcorr2 (SparseMatrix signal_2x3) (DenseArray kernel_1x2) default_threshold
    = raise (ValueError msg).
Proof.
  apply (xcorr2_general_needs_square signal_2x3 kernel_1x2 default_threshold);
    [simpl; lia | simpl; lia | simpl; lia | reflexivity].
Defined.

Lemma paths_agree_on_square_witness :
  exists out_c out_g,
    constant_path signal_3x3 2 2 1 = ok out_c
    /\ (do out0 <- zeros (3 - 2 + 1) (3 - 2 + 1);
        general_path signal_3x3 (mk_mat 2 2 (fun _ _ => 1%Q)) out0) = ok out_g
    /\ nrows out_c = nrows out_g /\ ncols out_c = ncols out_g
    /\ forall i j, 0 <= i < nrows out_c -> 0 <= j < ncols out_c ->
                   (val out_c i j == val out_g i j)%Q.
Proof.
  apply (paths_agree_on_square signal_3x3 3 2 2 1); try reflexivity; lia.
Defined.

Section CorrcoefShape.

Lemma corrcoef2d_upper (signal kernel : array_like) (sym_upper : bool)
      (conv : corr_mat) :
  corrcoef2d signal kernel None sym_upper = ok conv ->
  c_nrows conv = nrows (values signal) /\ c_ncols conv = ncols (values signal)
  /\ forall i j, j < i -> c_at conv i j = Zero.
Proof.
  unfold corrcoef2d.
  set (sig := if sym_upper then _ else ok signal).
  assert (Hsig : forall s, sig = ok s ->
                           nrows (values s) = nrows (values signal)
                           /\ ncols (values s) = ncols (values signal)).
  { intros s. unfold sig. destruct sym_upper.
    - destruct (issparse signal); [| discriminate].
      intros H. inversion H; subst. destruct signal; simpl; auto.
    - intros H. inversion H; subst. auto. }
  destruct sig as [e | s]; [discriminate |]. rewrite bind_ok.
  destruct (Hsig s eq_refl) as [Hr Hc].
  destruct (xcorr2 s kernel default_threshold) as [e | conv1]; [discriminate |].
  rewrite bind_ok. cbv zeta.
  destruct (xcorr2 (with_values s (power2 (values s))) _ _) as [e | signal2];
    [discriminate |].
  rewrite bind_ok.
  destruct (xcorr2 s (with_values kernel _) default_threshold) as [e | conv3] eqn:E3;
    [discriminate |].
  rewrite bind_ok. intros H. inversion H; subst; clear H. simpl.
  destruct (xcorr2_ok_inv _ _ _ _ E3) as [raw ->]. simpl.
  split; [congruence |]. split; [congruence |].
  intros i j Hij. destruct (Z.geb_spec j i); [lia | reflexivity].
Qed.

End CorrcoefShape.

(** X15: on a square sparse signal and a dense kernel no larger than it,
    without trimming by distance, [corrcoef2d] returns a matrix of the shape
    of the signal; every coefficient is 0, [+inf], or a quotient
    [n / sqrt d] with [0 <= n] and [n * n <= d]; every cell below the
    diagonal holds 0. *)
Theorem corrcoef2d_coefficients (signal kernel : mat) (N : Z) (sym_upper : bool) :
  nrows signal = N -> ncols signal = N ->
  1 <= nrows kernel <= N -> 1 <= ncols kernel <= N ->
  exists conv,
    corrcoef2d (SparseMatrix signal) (DenseArray kernel) None sym_upper = ok conv
    /\ c_nrows conv = N /\ c_ncols conv = N
    /\ (forall i j, c_at conv i j = PosInf \/ in_unit_interval (c_at conv i j))
    /\ (forall i j, j < i -> c_at conv i j = Zero).
Proof.
  intros Hr Hc Hkr Hkc.
  destruct (corrcoef2d_range_sym signal kernel N None sym_upper Hr Hc Hkr Hkc)
    as (conv & Hconv & Hrange).
  exists conv. split; [exact Hconv |].
  destruct (corrcoef2d_upper _ _ _ _ Hconv) as (H1 & H2 & H3).
  simpl in H1, H2. repeat split; try congruence; auto.
Qed.

Lemma corrcoef2d_coefficients_witness :
  exists conv,
    corrcoef2d (SparseMatrix faint_signal) (DenseArray kernel_1x1) None false = ok conv
    /\ c_nrows conv = 2 /\ c_ncols conv = 2.
Proof.
  destruct (corrcoef2d_coefficients faint_signal kernel_1x1 2 false)
    as (conv & Hconv & Hr & Hc & _);
    try reflexivity; try (simpl; lia).
  exists conv. repeat split; assumption.
Defined.

(* --------------------------------------------------------------------- *)
(** ** The smear filter *)
(* --------------------------------------------------------------------- *)

Section SmearFacts.

Local Open Scope nat_scope.

Let d : nat * pattern := (0, mk_pattern 0 0 0).

Lemma set_mem_In h s : set_mem h s = true <-> In h s.
Proof.
  unfold set_mem. rewrite existsb_exists. split.
  - intros (x & Hx & E). apply coord_eqb_eq in E. now subst.
  - intros H. exists h. split; [assumption | now apply coord_eqb_eq].
Qed.

Lemma group_keys_In k :
  forall p seen,
    In k (group_keys seen p) <-> ~ In k seen /\ exists r, In r p /\ key r = k.
Proof.
  induction p as [| r t IH]; intros seen; simpl.
  - split; [contradiction | intros (_ & x & [] & _)].
  - destruct (set_mem (key r) seen) eqn:E.
    + apply set_mem_In in E. rewrite IH. split.
      * intros (Hn & x & Hx & Hk). split; [assumption |]. exists x. auto.
      * intros (Hn & x & [<- | Hx] & Hk); [subst; contradiction |].
        split; [assumption |]. exists x. auto.
    + assert (Hnot : ~ In (key r) seen).
      { intros H. apply set_mem_In in H. congruence. }
      simpl. rewrite IH. simpl. split.
      * intros [<- | (Hn & x & Hx & Hk)].
        -- split; [assumption |]. exists r. auto.
        -- split; [tauto |]. exists x. auto.
      * intros (Hn & x & [<- | Hx] & Hk); [now left |].
        destruct (coord_eqb (key r) k) eqn:Ek.
        -- apply coord_eqb_eq in Ek. now left.
        -- right. split.
           ++ intros [H | H]; [| contradiction].
              apply coord_eqb_eq in H. congruence.
           ++ exists x. auto.
Qed.

Lemma group_In p k r : In r (group p k) <-> In r p /\ key r = k.
Proof. unfold group. rewrite filter_In, coord_eqb_eq. tauto. Qed.

Lemma filter_sorted {A : Type} (R : A -> A -> Prop) (f : A -> bool) (l : list A) :
  StronglySorted R l -> StronglySorted R (filter f l).
Proof.
  induction 1 as [| x t Ht IH Hx]; simpl; [constructor |].
  destruct (f x); [| assumption].
  constructor; [assumption |].
  rewrite Forall_forall in *. intros y Hy. apply filter_In in Hy. now apply Hx.
Qed.

Lemma seq_sorted : forall n s, StronglySorted lt (seq s n).
Proof.
  induction n as [| n IH]; intros s; simpl; constructor; [apply IH |].
  apply Forall_forall. intros y Hy. apply in_seq in Hy. lia.
Qed.

Lemma sorted_map_fst (l : DataFrame) :
  StronglySorted lt (map fst l) ->
  StronglySorted (fun a b => fst a < fst b) l.
Proof.
  induction l as [| x t IH]; simpl; intros H; constructor; inversion H; subst.
  - now apply IH.
  - rewrite Forall_forall in *. intros y Hy. match goal with
    | Hall : forall z, In z (map fst t) -> _ |- _ => apply Hall end.
    now apply in_map.
Qed.

Lemma sorted_fst_nth (l : DataFrame) :
  StronglySorted (fun a b => fst a < fst b) l ->
  forall a b, a < b -> b < length l -> fst (nth a l d) < fst (nth b l d).
Proof.
  induction 1 as [| x t Ht IH Hx]; intros a b Hab Hb; simpl in Hb; [lia |].
  destruct b as [| b]; [lia |]. destruct a as [| a]; simpl.
  - rewrite Forall_forall in Hx. apply Hx. apply nth_In. lia.
  - apply IH; lia.
Qed.

(** With the labels [0 .. n-1], the row labelled [i] is the [i]-th row. *)
Lemma default_index_row (p : DataFrame) r :
  map fst p = seq 0 (length p) -> In r p -> fst r < length p /\ nth (fst r) p d = r.
Proof.
  intros Hidx Hr. apply (In_nth _ _ d) in Hr. destruct Hr as (i & Hi & <-).
  assert (Hf : fst (nth i p d) = i).
  { change (fst (nth i p d)) with (fst (nth i p (0, mk_pattern 0 0 0))).
    rewrite <- (map_nth fst p (0, mk_pattern 0 0 0) i). simpl fst.
    rewrite Hidx. now rewrite seq_nth. }
  rewrite Hf. split; [assumption | reflexivity].
Qed.

(** The label found by [idxmax] in a group that is not empty. *)
Lemma idxmax_spec (g : DataFrame) :
  g <> [] ->
  exists t, t < length g /\ fst (nth t g d) = idxmax g
            /\ (forall t', t' < length g ->
                           (score (snd (nth t' g d)) <= score (snd (nth t g d)))%Q)
            /\ (forall t', t' < t ->
                           (score (snd (nth t' g d)) < score (snd (nth t g d)))%Q).
Proof.
  intros Hne.
  set (vals := map (fun r : nat * pattern => score (snd r)) g).
  assert (Hv : vals <> []).
  { unfold vals. destruct g; [contradiction | discriminate]. }
  destruct (argmax_first_maximum vals Hv) as (Ham & Hmax & Hfirst).
  assert (Hlen : length vals = length g) by (unfold vals; apply length_map).
  assert (Hnth : forall t, t < length g -> nth t vals 0%Q = score (snd (nth t g d))).
  { intros t Ht. unfold vals.
    apply (nth_map_lt (fun r : nat * pattern => score (snd r)) g 0%Q d t Ht). }
  exists (argmax vals). rewrite Hlen in *. split; [assumption |]. split; [| split].
  - unfold idxmax. fold vals.
    symmetry. apply (nth_map_lt fst g 0 d). assumption.
  - intros t' Ht'. rewrite <- !Hnth by assumption. now apply Hmax.
  - intros t' Ht'. rewrite <- !Hnth by lia. now apply Hfirst.
Qed.

Lemma set_true_ok (n : nat) (idx : list nat) :
  Forall (fun k => k < n) idx ->
  set_true (repeat false n) idx
  = ok (map (fun i => existsb (Nat.eqb i) idx) (seq 0 n)).
Proof.
  intros H. unfold set_true. rewrite repeat_length.
  assert (Hall : forallb (fun k => k <? n) idx = true).
  { apply forallb_forall. rewrite Forall_forall in H. intros k Hk.
    apply Nat.ltb_lt. now apply H. }
  rewrite Hall. f_equal.
  assert (Hgen : forall m s,
             map (fun ib : nat * bool => existsb (Nat.eqb (fst ib)) idx || snd ib)
                 (enumerate_from s (repeat false m))
             = map (fun i => existsb (Nat.eqb i) idx) (seq s m)).
  { induction m as [| m IH]; intros s; simpl; [reflexivity |].
    rewrite orb_false_r. f_equal. apply IH. }
  apply Hgen.
Qed.

End SmearFacts.

Section SmearMask.

Local Open Scope nat_scope.

Let d : nat * pattern := (0, mk_pattern 0 0 0).

Variable p : DataFrame.
Hypothesis default_index : map fst p = seq 0 (length p).

Lemma default_index_fst j : j < length p -> fst (nth j p d) = j.
Proof.
  intros Hj. unfold d.
  rewrite <- (map_nth fst p (0, mk_pattern 0 0 0) j). simpl fst.
  rewrite default_index. now rewrite seq_nth.
Qed.

Lemma group_sorted k : StronglySorted (fun a b => fst a < fst b) (group p k).
Proof.
  unfold group. apply filter_sorted. apply sorted_map_fst.
  rewrite default_index. apply seq_sorted.
Qed.

Lemma group_position k a b :
  a < length (group p k) -> b < length (group p k) ->
  fst (nth a (group p k) d) < fst (nth b (group p k) d) -> a < b.
Proof.
  intros Ha Hb Hlt.
  destruct (Nat.lt_trichotomy a b) as [H | [H | H]]; [assumption | |].
  - subst. lia.
  - pose proof (sorted_fst_nth (group p k) (group_sorted k) b a H Ha). fold d in H0. lia.
Qed.

Lemma group_member k j :
  j < length p -> key (nth j p d) = k ->
  exists t, t < length (group p k) /\ nth t (group p k) d = nth j p d.
Proof.
  intros Hj Hk.
  assert (Hin : In (nth j p d) (group p k)).
  { apply group_In. split; [now apply nth_In | assumption]. }
  apply (In_nth _ _ d) in Hin. exact Hin.
Qed.

(** The label [idxmax] finds in the group of key [k]. *)
Lemma best_label k :
  (exists r, In r p /\ key r = k) ->
  let m := idxmax (group p k) in
  m < length p /\ key (nth m p d) = k
  /\ (forall j, j < length p -> key (nth j p d) = k ->
                (score (snd (nth j p d)) <= score (snd (nth m p d)))%Q)
  /\ (forall j, j < m -> key (nth j p d) = k ->
                (score (snd (nth j p d)) < score (snd (nth m p d)))%Q).
Proof.
  intros (r & Hr & Hk) m.
  assert (Hne : group p k <> []).
  { intros Hnil. assert (Hin : In r (group p k)) by (apply group_In; auto).
    rewrite Hnil in Hin. contradiction. }
  destruct (idxmax_spec (group p k) Hne) as (t & Ht & Hlab & Hmax & Hfirst).
  fold d in Hlab, Hmax, Hfirst. fold m in Hlab.
  assert (Hin : In (nth t (group p k) d) (group p k)) by now apply nth_In.
  apply group_In in Hin. destruct Hin as [Hin Hkey].
  destruct (default_index_row p _ default_index Hin) as [Hlt Hrow].
  fold d in Hrow. rewrite Hlab in Hlt, Hrow.
  split; [assumption |]. split; [now rewrite Hrow |]. split.
  - intros j Hj Hkj. destruct (group_member k j Hj Hkj) as (t' & Ht' & <-).
    rewrite Hrow. now apply Hmax.
  - intros j Hj Hkj.
    destruct (group_member k j ltac:(lia) Hkj) as (t' & Ht' & Heq).
    rewrite <- Heq, Hrow. apply Hfirst.
    apply (group_position k); try assumption.
    rewrite Heq, Hlab. rewrite default_index_fst by lia. exact Hj.
Qed.

Lemma best_label_unique k i :
  i < length p -> key (nth i p d) = k -> first_best p i -> idxmax (group p k) = i.
Proof.
  intros Hi Hk [Hmax Hfirst]. fold d in Hmax, Hfirst.
  destruct (best_label k) as (Hm & Hkm & Hmax' & Hfirst').
  { exists (nth i p d). split; [now apply nth_In | assumption]. }
  set (m := idxmax (group p k)) in *.
  destruct (Nat.lt_trichotomy m i) as [H | [H | H]]; [| assumption |].
  - specialize (Hfirst m H ltac:(congruence)).
    specialize (Hmax' i Hi Hk). exfalso. lra.
  - specialize (Hfirst' i H Hk).
    specialize (Hmax m Hm ltac:(congruence)). exfalso. lra.
Qed.

Lemma best_idx_bound :
  Forall (fun k => k < length p)
         (map (fun k => idxmax (group p k)) (group_keys [] p)).
Proof.
  apply Forall_map, Forall_forall. intros k Hk.
  apply group_keys_In in Hk. destruct Hk as [_ Hex].
  now destruct (best_label k Hex).
Qed.

Lemma best_idx_first_best i :
  i < length p ->
  (In i (map (fun k => idxmax (group p k)) (group_keys [] p)) <-> first_best p i).
Proof.
  intros Hi. rewrite in_map_iff. split.
  - intros (k & Hk & Hin). apply group_keys_In in Hin. destruct Hin as [_ Hex].
    destruct (best_label k Hex) as (_ & Hkey & Hmax & Hfirst).
    rewrite Hk in *. unfold first_best. cbv zeta. fold d. split.
    + intros j Hj Hkj. apply Hmax; congruence.
    + intros j Hj Hkj. apply Hfirst; congruence.
  - intros Hbest. exists (key (nth i p d)). split.
    + now apply best_label_unique.
    + apply group_keys_In. split; [intros [] |].
      exists (nth i p d). split; [now apply nth_In | reflexivity].
Qed.

End SmearMask.

(** X16: on a table with the default index, [remove_smears] returns a mask
    with one entry per row, whatever [win_size]; the entry of a row is true
    exactly when the row holds the largest score among the rows with the
    same [bin1] and [bin2], and is the first such row. *)
Theorem remove_smears_default_index (patterns : DataFrame) (win_size : Z) :
  map fst patterns = seq 0 (length patterns) ->
  exists mask,
    remove_smears patterns win_size = ok mask
    /\ length mask = length patterns
    /\ forall i, (i < length patterns)%nat ->
                 (nth i mask false = true <-> first_best patterns i).
Proof.
  intros Hidx. unfold remove_smears. cbv zeta.
  rewrite set_true_ok by (now apply best_idx_bound).
  eexists. split; [reflexivity |]. split.
  - now rewrite length_map, length_seq.
  - intros i Hi.
    rewrite (nth_map_lt _ (seq 0 (length patterns)) false 0%nat)
      by (now rewrite length_seq).
    rewrite seq_nth by assumption. simpl.
    rewrite <- (best_idx_first_best patterns Hidx i Hi).
    rewrite existsb_exists. split.
    + intros (x & Hx & E). apply Nat.eqb_eq in E. now subst.
    + intros H. exists i. split; [assumption | apply Nat.eqb_refl].
Qed.

Lemma remove_smears_default_index_witness :
  exists mask,
    remove_smears close_patterns 8 = ok mask /\ length mask = 2%nat.
Proof.
  destruct (remove_smears_default_index close_patterns 8 eq_refl)
    as (mask & Hm & Hl & _).
  exists mask. split; assumption.
Defined.

Section SmearEdges.

Local Open Scope nat_scope.

Lemma map_all_true {A : Type} (f : A -> bool) (l : list A) :
  (forall x, In x l -> f x = true) -> map f l = repeat true (length l).
Proof.
  induction l as [| x t IH]; intros H; simpl; [reflexivity |].
  rewrite (H x) by now left. f_equal. apply IH. intros y Hy. apply H. now right.
Qed.

Lemma distinct_keys_first_best (p : DataFrame) i :
  NoDup (map key p) -> i < length p -> first_best p i.
Proof.
  intros Hnd Hi. unfold first_best. cbv zeta.
  assert (Hinj : forall j, j < length p ->
                           key (nth j p (0, mk_pattern 0 0 0))
                           = key (nth i p (0, mk_pattern 0 0 0)) -> j = i).
  { intros j Hj Hk.
    rewrite NoDup_nth with (d := key (0, mk_pattern 0 0 0)) in Hnd.
    apply Hnd; try (rewrite length_map; assumption).
    now rewrite !(map_nth key). }
  split.
  - intros j Hj Hk. rewrite (Hinj j Hj Hk). apply Qle_refl.
  - intros j Hj Hk. specialize (Hinj j ltac:(lia) Hk). lia.
Qed.

Lemma set_true_out_of_range (n : nat) (idx : list nat) :
  Exists (fun k => n <= k) idx ->
  exists msg, set_true (repeat false n) idx = raise (IndexError msg).
Proof.
  intros H. unfold set_true. rewrite repeat_length.
  assert (Hall : forallb (fun k => k <? n) idx = false).
  { apply Exists_exists in H. destruct H as (k & Hk & Hge).
    destruct (forallb _ idx) eqn:E; [| reflexivity].
    rewrite forallb_forall in E. specialize (E k Hk). apply Nat.ltb_lt in E. lia. }
  rewrite Hall. eexists. reflexivity.
Qed.

End SmearEdges.

(** X17: on a table with the default index in which no two rows have the
    same [bin1] and [bin2], [remove_smears] keeps every row, whatever
    [win_size] and however close the patterns are. *)
Theorem remove_smears_keeps_distinct (patterns : DataFrame) (win_size : Z) :
  map fst patterns = seq 0 (length patterns) ->
  NoDup (map key patterns) ->
  remove_smears patterns win_size = ok (repeat true (length patterns)).
Proof.
  intros Hidx Hnd. unfold remove_smears. cbv zeta.
  rewrite set_true_ok by (now apply best_idx_bound).
  unfold ok. cbv iota. f_equal.
  rewrite <- (length_seq (length patterns) 0) at 2.
  apply map_all_true. intros i Hi. apply in_seq in Hi.
  apply existsb_exists. exists i. split; [| apply Nat.eqb_refl].
  apply (best_idx_first_best patterns Hidx i); [lia |].
  apply distinct_keys_first_best; [assumption | lia].
Qed.

Lemma remove_smears_keeps_distinct_witness :
  remove_smears close_patterns 8 = ok [true; true].
Proof.
  apply (remove_smears_keeps_distinct close_patterns 8); [reflexivity |].
  repeat constructor; simpl; intros H; repeat destruct H as [H | H];
    try discriminate; assumption.
Defined.

(** X18: on a table whose index labels are all at least its number of rows,
    as a table can be after the rows before them were filtered out, the
    assignment through the labels fails, the error is discarded, and
    [remove_smears] marks no row as valid. *)
Theorem remove_smears_foreign_index (patterns : DataFrame) (win_size : Z) :
  patterns <> [] ->
  Forall (fun r => (length patterns <= fst r)%nat) patterns ->
  remove_smears patterns win_size = ok (repeat false (length patterns)).
Proof.
  intros Hne Hall. unfold remove_smears. cbv zeta.
  destruct (set_true_out_of_range (length patterns)
              (map (fun k => idxmax (group patterns k)) (group_keys [] patterns)))
    as [msg ->]; [| reflexivity].
  destruct patterns as [| r t] eqn:Ep; [contradiction |]. rewrite <- Ep in *.
  assert (Hk : In (key r) (group_keys [] patterns)).
  { apply group_keys_In. split; [intros [] |]. exists r. split; [| reflexivity].
    rewrite Ep. now left. }
  apply Exists_exists. exists (idxmax (group patterns (key r))). split.
  - apply in_map_iff. exists (key r). split; [reflexivity | assumption].
  - assert (Hg : group patterns (key r) <> []).
    { intros Hnil. assert (Hin : In r (group patterns (key r))).
      { apply group_In. split; [rewrite Ep; now left | reflexivity]. }
      rewrite Hnil in Hin. contradiction. }
    destruct (idxmax_spec _ Hg) as (t' & Ht' & Hlab & _).
    rewrite <- Hlab.
    assert (Hin : In (nth t' (group patterns (key r)) (0%nat, mk_pattern 0 0 0))
                     (group patterns (key r))) by now apply nth_In.
    apply group_In in Hin. destruct Hin as [Hin _].
    rewrite Forall_forall in Hall. now apply Hall.
Qed.

Lemma remove_smears_foreign_index_witness :
  remove_smears filtered_patterns 8 = ok [false; false].
Proof.
  apply (remove_smears_foreign_index filtered_patterns 8); [discriminate |].
  repeat constructor.
Defined.

(* --------------------------------------------------------------------- *)
(** ** The pileup of a stack of windows *)
(* --------------------------------------------------------------------- *)

Section MedianFacts.

Local Open Scope nat_scope.

Lemma insert_Q_In x y l : In y (insert_Q x l) -> y = x \/ In y l.
Proof.
  induction l as [| z t IH]; simpl.
  - intros [<- | []]. now left.
  - destruct (Qle_bool x z); simpl.
    + intros [<- | [<- | H]]; auto.
    + intros [<- | H]; auto. destruct (IH H); auto.
Qed.

Lemma insert_Q_length x l : length (insert_Q x l) = S (length l).
Proof.
  induction l as [| z t IH]; simpl; [reflexivity |].
  destruct (Qle_bool x z); simpl; [reflexivity | now rewrite IH].
Qed.

Lemma sort_Q_In y l : In y (sort_Q l) -> In y l.
Proof.
  induction l as [| x t IH]; simpl; [trivial |].
  intros H. apply insert_Q_In in H. destruct H as [-> | H]; auto.
Qed.

Lemma sort_Q_length l : length (sort_Q l) = length l.
Proof.
  induction l as [| x t IH]; simpl; [reflexivity |].
  now rewrite insert_Q_length, IH.
Qed.

(** The median of data that is not empty lies between two of its values. *)
Lemma median_between (l : list Q) :
  l <> [] -> exists a b, In a l /\ In b l /\ (a <= median l <= b)%Q.
Proof.
  intros Hne. unfold median. cbv zeta.
  set (s := sort_Q l). set (n := length s).
  assert (Hn : 0 < n).
  { unfold n, s. rewrite sort_Q_length. destruct l; [contradiction | simpl; lia]. }
  assert (Hmid : n / 2 < n) by (apply Nat.div_lt; lia).
  assert (Hin : forall k, k < n -> In (nth k s 0%Q) l).
  { intros k Hk. apply sort_Q_In. now apply nth_In. }
  destruct (Nat.even n) eqn:E.
  - set (x := nth (n / 2 - 1) s 0%Q). set (y := nth (n / 2) s 0%Q).
    assert (Hx : In x l) by (apply Hin; lia).
    assert (Hy : In y l) by (now apply Hin).
    assert (Hm : ((x + y) / 2 == (x + y) * (1 # 2))%Q) by (unfold Qdiv; reflexivity).
    destruct (Qlt_le_dec x y) as [Hlt | Hle].
    + exists x, y. repeat split; try assumption; rewrite Hm; lra.
    + exists y, x. repeat split; try assumption; rewrite Hm; lra.
  - exists (nth (n / 2) s 0%Q), (nth (n / 2) s 0%Q).
    repeat split; try (now apply Hin); apply Qle_refl.
Qed.

End MedianFacts.

(** X19: on a stack of at least one window, [pileup_patterns] returns a
    window of the shape of the stacked ones; each cell lies between two of
    the values stacked at this cell. *)
Theorem pileup_between (pattern_windows : list window) (win_h win_w : nat) :
  pattern_windows <> [] -> (0 < win_h)%nat -> (0 < win_w)%nat ->
  exists pileup,
    pileup_patterns pattern_windows win_h win_w = ok pileup
    /\ length pileup = win_h
    /\ forall i j, (i < win_h)%nat -> (j < win_w)%nat ->
         let stacked := map (fun w => nth j (nth i w []) 0%Q) pattern_windows in
         length (nth i pileup []) = win_w
         /\ exists m a b,
              nth j (nth i pileup []) None = Some m
              /\ In a stacked /\ In b stacked /\ (a <= m <= b)%Q.
Proof.
  intros Hne Hh Hw. unfold pileup_patterns.
  destruct (Nat.eqb_spec win_h 0); [lia |].
  destruct (Nat.eqb_spec win_w 0); [lia |]. simpl orb. cbv iota.
  eexists. split; [reflexivity |]. split; [now rewrite length_map, length_seq |].
  intros i j Hi Hj.
  set (stacked := map (fun w : list (list Q) => nth j (nth i w []) 0%Q) pattern_windows).
  rewrite (nth_map_lt _ (seq 0 win_h) [] 0%nat) by (now rewrite length_seq).
  rewrite seq_nth by assumption. simpl.
  split; [now rewrite length_map, length_seq |].
  rewrite (nth_map_lt _ (seq 0 win_w) None 0%nat) by (now rewrite length_seq).
  rewrite seq_nth by assumption. simpl. fold stacked.
  assert (Hs : stacked <> []).
  { unfold stacked. destruct pattern_windows; [contradiction | discriminate]. }
  destruct (median_between stacked Hs) as (a & b & Ha & Hb & Hab).
  exists (median stacked), a, b.
  split; [| auto].
  unfold np_median. destruct stacked; [contradiction | reflexivity].
Qed.

Lemma pileup_between_witness :
  exists pileup,
    pileup_patterns [[[1%Q; 2%Q]]; [[3%Q; 6%Q]]] 1 2 = ok pileup
    /\ length pileup = 1%nat.
Proof.
  destruct (pileup_between [[[1%Q; 2%Q]]; [[3%Q; 6%Q]]] 1 2)
    as (pileup & Hp & Hl & _); try lia; try discriminate.
  exists pileup. split; assumption.
Defined.

(* --------------------------------------------------------------------- *)
(** ** Exploration without kernel *)
(* --------------------------------------------------------------------- *)

(** X20: with an empty list of kernels and at least one iteration,
    [explore_patterns] raises a [NameError]: the first pass reads
    [detected_coords], which no detection has assigned. *)
Theorem explore_patterns_no_kernel
        (correlation_map : ContactMap -> KernelConfig -> ndarray -> result (coo Q))
        (contact_map : ContactMap) (kernel_config : KernelConfig) (window : Z) :
  cfg_kernels kernel_config = [] ->
  (0 < cfg_max_iterations kernel_config)%nat ->
  exists msg,
    explore_patterns correlation_map contact_map kernel_config window
    = raise (NameError msg).
Proof.
  intros Hk Hn. unfold explore_patterns. cbv zeta.
  destruct (cfg_max_iterations kernel_config) as [| n]; [lia |].
  simpl seq. rewrite for_each_cons.
  unfold pass_step at 1. simpl old_pattern_count. simpl current_pattern_count.
  simpl negb. cbv iota. cbv zeta. simpl Nat.eqb. cbv iota.
  rewrite Hk. simpl for_each. rewrite bind_ok. simpl detected_coords. cbv iota.
  eexists. reflexivity.
Qed.

Lemma explore_patterns_no_kernel_witness :
  exists msg,
    explore_patterns empty_correlation empty_contact_map
                     (mk_kernel_config (Some 5) 4 50 3 []) 4
    = raise (NameError msg).
Proof.
  apply (explore_patterns_no_kernel empty_correlation empty_contact_map
                                    (mk_kernel_config (Some 5) 4 50 3 []) 4);
    [reflexivity | simpl; lia].
Defined.
